(** * Exercise generator of the sight-reading trainer (services/logic.ts)

    A shallow embedding of the key-signature helpers, the note speller
    [midiToNote] and the three exercise generators of [generateExercise],
    followed by the properties the specification states about them.

    JavaScript numbers that the program only ever uses as integers (MIDI
    pitches, pitch classes, octaves, loop counters) are [Z]; the value of
    [Math.random()] is a rational in [0,1); strings are [string]. *)

From Stdlib Require Import ZArith QArith Qround List String Ascii Bool Lia.
From Stdlib Require Import DecimalString DecimalPos DecimalZ.
From Stdlib Require Import Sorting.Sorted Sorting.Permutation.
Import ListNotations.

Local Open Scope string_scope.
Local Open Scope list_scope.
Local Open Scope Z_scope.

(* ===================================================================== *)
(** ** types.ts *)
(* ===================================================================== *)

Inductive ClefType := treble | bass.
Inductive GameMode := single | chords | beams.
Inductive KeyType := major | minor.

(** The fifteen string literals of [KeyRoot], in the order of the type. *)
Inductive KeyRoot :=
| KC | KG | KD | KA | KE | KB | KFs | KCs
| KF | KBb | KEb | KAb | KDb | KGb | KCb.

(** The string a [KeyRoot] value is at run time. *)
Definition keyRootName (r : KeyRoot) : string :=
  match r with
  | KC => "C" | KG => "G" | KD => "D" | KA => "A" | KE => "E" | KB => "B"
  | KFs => "F#" | KCs => "C#"
  | KF => "F" | KBb => "Bb" | KEb => "Eb" | KAb => "Ab" | KDb => "Db"
  | KGb => "Gb" | KCb => "Cb"
  end.

Definition allKeyRoots : list KeyRoot :=
  [KC; KG; KD; KA; KE; KB; KFs; KCs; KF; KBb; KEb; KAb; KDb; KGb; KCb].
Definition allKeyTypes : list KeyType := [major; minor].

Inductive Accidental := Sharp | Flat | Natural.       (* '#' | 'b' | 'n' *)
Inductive Duration := Dw | Dh | Dq | D8 | D16.        (* 'w'|'h'|'q'|'8'|'16' *)
Inductive Status := pending | correct | incorrect.

Record Note := mkNote {
  midi : Z;
  name : string;
  octave : Z;
  accidental : option Accidental;     (* null is [None] *)
  duration : option Duration          (* absent is [None] *)
}.

Record ExerciseItem := mkItem {
  id : string;
  notes : list Note;
  status : Status;
  isBeamGroup : option bool;
  beamGroupIndex : option Z
}.

Record GameSettings := mkSettings {
  clef : ClefType;
  useAccidentals : bool;
  mode : GameMode;
  keyRoot : KeyRoot;
  keyType : KeyType
}.

(* ===================================================================== *)
(** ** Constants and key-signature logic *)
(* ===================================================================== *)

Definition TREBLE_MIN : Z := 53.
Definition TREBLE_MAX : Z := 88.
Definition BASS_MIN : Z := 29.
Definition BASS_MAX : Z := 67.

(** [Math.floor(Math.random() * (max - min + 1)) + min], as a function of
    the value [r] that [Math.random()] returned.  The product is taken
    exactly; the properties below use of the result only that it lies in
    [min, max], which the rounded product of doubles gives as well. *)
Definition getRandomIntOf (r : Q) (min max : Z) : Z :=
  Qfloor (r * inject_Z (max - min + 1)) + min.

(** [ROOT_MIDI_VALUES], an object used as a table from names to numbers. *)
Definition ROOT_MIDI_VALUES : list (string * Z) :=
  [("C", 0); ("C#", 1); ("Db", 1); ("D", 2); ("D#", 3); ("Eb", 3);
   ("E", 4); ("F", 5); ("F#", 6); ("Gb", 6); ("G", 7); ("G#", 8);
   ("Ab", 8); ("A", 9); ("A#", 10); ("Bb", 10); ("B", 11); ("Cb", 11)].

Fixpoint tableGet (t : list (string * Z)) (k : string) : option Z :=
  match t with
  | [] => None
  | (k', v) :: t' => if String.eqb k' k then Some v else tableGet t' k
  end.

Definition MAJOR_INTERVALS : list Z := [0; 2; 4; 5; 7; 9; 11].
Definition MINOR_INTERVALS : list Z := [0; 2; 3; 5; 7; 8; 10].

(** JavaScript's [%] on integers truncates towards zero: [Z.rem]. *)
Definition jsmod (a b : Z) : Z := Z.rem a b.

(** [Array.prototype.includes] on an array of integers / of strings. *)
Definition includesZ (l : list Z) (x : Z) : bool := existsb (Z.eqb x) l.
Definition includesStr (l : list string) (x : string) : bool :=
  existsb (String.eqb x) l.

(** [ROOT_MIDI_VALUES[root]]; every [KeyRoot] is a key of the table
    (lemma [ROOT_MIDI_VALUES_defined]), so the last branch is never taken. *)
Definition rootMidiOf (root : KeyRoot) : Z :=
  match tableGet ROOT_MIDI_VALUES (keyRootName root) with
  | Some v => v
  | None => 0
  end.

Definition getScalePitchClasses (root : KeyRoot) (type : KeyType) : list Z :=
  let rootMidi := rootMidiOf root in
  let intervals :=
    match type with major => MAJOR_INTERVALS | minor => MINOR_INTERVALS end in
  map (fun interval => jsmod (rootMidi + interval) 12) intervals.

Definition shouldUseFlats (root : KeyRoot) (type : KeyType) : bool :=
  if includesStr ["F"; "Bb"; "Eb"; "Ab"; "Db"; "Gb"; "Cb"] (keyRootName root)
  then true
  else if (match type with minor => true | major => false end)
          && includesStr ["D"; "G"; "C"; "F"; "Bb"; "Eb"] (keyRootName root)
  then true
  else false.

Definition NOTE_NAMES_SHARP : list string :=
  ["C"; "C#"; "D"; "D#"; "E"; "F"; "F#"; "G"; "G#"; "A"; "A#"; "B"].
Definition NOTE_NAMES_FLAT : list string :=
  ["C"; "Db"; "D"; "Eb"; "E"; "F"; "Gb"; "G"; "Ab"; "A"; "Bb"; "B"].

(** [arr[i]] for an integer [i]: [None] is JavaScript's [undefined], which
    is what a negative or too large index yields. *)
Definition arrayGet {A} (arr : list A) (i : Z) : option A :=
  if i <? 0 then None else nth_error arr (Z.to_nat i).

(** [s.includes(c)] for a one-character [c]. *)
Fixpoint strIncludes (s : string) (c : ascii) : bool :=
  match s with
  | EmptyString => false
  | String a s' => Ascii.eqb a c || strIncludes s' c
  end.

(** [s[0]] as a one-character string (no table entry is empty). *)
Definition firstChar (s : string) : string := substring 0 1 s.

(* ===================================================================== *)
(** ** midiToNote *)
(* ===================================================================== *)

(** [None] stands for the [TypeError] that [rawName.includes] raises when
    the table lookup gave [undefined]. *)
Definition midiToNote (midi : Z) (root : KeyRoot) (type : KeyType)
  : option Note :=
  let octave := midi / 12 - 1 in
  let pitchClass := jsmod midi 12 in
  let useFlats := shouldUseFlats root type in
  match (if useFlats then arrayGet NOTE_NAMES_FLAT pitchClass
         else arrayGet NOTE_NAMES_SHARP pitchClass) with
  | None => None
  | Some rawName =>
    let '(name, accidental) :=
      if strIncludes rawName "#"%char then (firstChar rawName, Some Sharp)
      else if strIncludes rawName "b"%char
              && (Nat.ltb 1 (String.length rawName))
      then (firstChar rawName, Some Flat)
      else (rawName, None) in
    let diatonicPitchClasses := getScalePitchClasses root type in
    let isDiatonic := includesZ diatonicPitchClasses pitchClass in
    let accidental :=
      if negb isDiatonic
         && (match accidental with None => true | Some _ => false end)
      then Some Natural else accidental in
    Some (mkNote midi name octave accidental None)
  end.

(* ===================================================================== *)
(** ** The ambient sources and the monad of the generator *)
(* ===================================================================== *)

(** How many values [Math.random()] and [uuidv4()] have handed out. *)
Record World := mkWorld { randomCalls : nat; uuidCalls : nat }.

(** A computation returns a value in a new world, throws, or is cut off by
    the fuel that bounds the one loop of the program whose counter can go
    back. *)
Inductive Outcome (A : Type) : Type :=
| Returns (a : A) (w : World)
| Throws
| Unfinished.
Arguments Returns {A} a w.
Arguments Throws {A}.
Arguments Unfinished {A}.

Definition M (A : Type) : Type := World -> Outcome A.

Definition ret {A} (a : A) : M A := fun w => Returns a w.

Definition bind {A B} (c : M A) (k : A -> M B) : M B :=
  fun w =>
    match c w with
    | Returns a w' => k a w'
    | Throws => Throws
    | Unfinished => Unfinished
    end.

Definition throwIfUndefined {A} (o : option A) : M A :=
  fun w => match o with Some a => Returns a w | None => Throws end.

Definition outOfFuel {A} : M A := fun _ => Unfinished.

Declare Scope gen_scope.
Delimit Scope gen_scope with gen.
Notation "x <- c ;; k" := (bind c (fun x => k))
  (at level 61, c at next level, right associativity) : gen_scope.
Notation "' pat <- c ;; k" := (bind c (fun x => match x with pat => k end))
  (at level 61, pat pattern, c at next level, right associativity) : gen_scope.
Local Open Scope gen_scope.

(** [for (let i = start; ...; i++)] running [count] times over a loop
    state [s]. *)
Fixpoint forUpTo {St : Type} (count : nat) (i : Z) (body : Z -> St -> M St)
  (s : St) : M St :=
  match count with
  | O => ret s
  | S count' => s' <- body i s ;; forUpTo count' (i + 1) body s'
  end.

(** [for (let i = 0; i < n; i++)]: the body runs [n] times, or not at all
    when [n <= 0]. *)
Definition forLoop {St : Type} (n : Z) (body : Z -> St -> M St) (s : St)
  : M St :=
  forUpTo (Z.to_nat n) 0 body s.

(** [chordMidis.map(m => midiToNote(m, ...))]: the first call that throws
    ends the map. *)
Fixpoint mapThrow {A B} (f : A -> option B) (l : list A) : M (list B) :=
  match l with
  | [] => ret []
  | a :: l' => b <- throwIfUndefined (f a) ;;
               bs <- mapThrow f l' ;;
               ret (b :: bs)
  end.

(** [x > y] on numbers. *)
Definition Qgtb (x y : Q) : bool := negb (Qle_bool x y).

Definition withDuration (n : Note) (d : Duration) : Note :=
  mkNote (midi n) (name n) (octave n) (accidental n) (Some d).

(** One pass through the body of the chord loop either reaches
    [i--; continue] or builds the notes of an item. *)
Inductive ChordAttempt :=
| Retry
| Accepted (finalNotes : list Note).

Section Generator.

(** [mathRandom k] is what the [k]-th call of [Math.random()] returns,
    [uuidSource k] what the [k]-th call of [uuidv4()] returns. *)
Variable mathRandom : nat -> Q.
Variable uuidSource : nat -> string.

Definition Math_random : M Q :=
  fun w => Returns (mathRandom (randomCalls w))
                   (mkWorld (S (randomCalls w)) (uuidCalls w)).

Definition uuidv4 : M string :=
  fun w => Returns (uuidSource (uuidCalls w))
                   (mkWorld (randomCalls w) (S (uuidCalls w))).

Definition getRandomInt (min max : Z) : M Z :=
  r <- Math_random ;; ret (getRandomIntOf r min max).

(** *** The closures of [generateExercise] *)

Definition isValidNote (settings : GameSettings)
  (diatonicPitchClasses : list Z) (midi : Z) : bool :=
  if negb (useAccidentals settings)
  then includesZ diatonicPitchClasses (jsmod midi 12)
  else true.

(** [while (attempts < 100)]: [left] is [100 - attempts]; [None] when the
    loop ends without a [return]. *)
Fixpoint randomAttempts (isValid : Z -> bool) (min max : Z) (left : nat)
  : M (option Z) :=
  match left with
  | O => ret None
  | S left' =>
    midi <- getRandomInt min max ;;
    if isValid midi then ret (Some midi)
    else randomAttempts isValid min max left'
  end.

(** [for (let i = min; i <= max; i++) if (isValidNote(i)) return i;]
    with [count] values of [i] left to try. *)
Fixpoint scanRange (isValid : Z -> bool) (i : Z) (count : nat) : option Z :=
  match count with
  | O => None
  | S count' =>
    if isValid i then Some i else scanRange isValid (i + 1) count'
  end.

Definition getValidRandomMidi (isValid : Z -> bool) (min max : Z) : M Z :=
  found <- randomAttempts isValid min max 100 ;;
  match found with
  | Some midi => ret midi
  | None =>
    match scanRange isValid min (Z.to_nat (max - min + 1)) with
    | Some i => ret i
    | None => ret min
    end
  end.

(** *** Chord mode *)

(** The strict branch: [None] is the [i--; continue] after the third. *)
Definition strictChordMidis (diatonicPitchClasses : list Z) (root : Z)
  (isSeventh : bool) : option (list Z) :=
  let inScale m := includesZ diatonicPitchClasses (jsmod m 12) in
  let chordMidis := [root] in
  match (if inScale (root + 3) then Some (chordMidis ++ [root + 3])
         else if inScale (root + 4) then Some (chordMidis ++ [root + 4])
         else None) with
  | None => None
  | Some chordMidis =>
    let chordMidis :=
      if inScale (root + 7) then chordMidis ++ [root + 7]
      else if inScale (root + 6) then chordMidis ++ [root + 6]
      else chordMidis in
    let chordMidis :=
      if isSeventh then
        if inScale (root + 11) then chordMidis ++ [root + 11]
        else if inScale (root + 10) then chordMidis ++ [root + 10]
        else if inScale (root + 9) then chordMidis ++ [root + 9]
        else chordMidis
      else chordMidis in
    Some chordMidis
  end.

(** The chromatic branch draws its third, and its seventh when asked. *)
Definition chromaticChordMidis (root : Z) (isSeventh : bool) : M (list Z) :=
  r <- Math_random ;;
  let third := if Qgtb r (1 # 2) then 4 else 3 in
  let chordMidis := [root] ++ [root + third] ++ [root + 7] in
  if isSeventh then
    r' <- Math_random ;;
    ret (chordMidis ++ [root + 10 + (if Qgtb r' (1 # 2) then 1 else 0)])
  else ret chordMidis.

Definition chordAttempt (settings : GameSettings) (min max : Z)
  : M ChordAttempt :=
  let diatonicPitchClasses :=
    getScalePitchClasses (keyRoot settings) (keyType settings) in
  let isValid := isValidNote settings diatonicPitchClasses in
  let safeMax := max - 11 in
  root <- getValidRandomMidi isValid min safeMax ;;
  r <- Math_random ;;
  let isSeventh := Qgtb r (7 # 10) in
  built <- (if negb (useAccidentals settings)
            then ret (strictChordMidis diatonicPitchClasses root isSeventh)
            else chordMidis <- chromaticChordMidis root isSeventh ;;
                 ret (Some chordMidis)) ;;
  match built with
  | None => ret Retry
  | Some chordMidis =>
    if negb (useAccidentals settings)
       && existsb (fun m => negb (isValid m)) chordMidis
    then ret Retry
    else
      finalNotes <- mapThrow
        (fun m => midiToNote m (keyRoot settings) (keyType settings))
        chordMidis ;;
      ret (Accepted finalNotes)
  end.

(** [for (let i = 0; i < 6; i++)] whose body may do [i--; continue], so
    that [i] comes back unchanged: each pass uses one unit of [fuel]. *)
Fixpoint chordLoop (settings : GameSettings) (min max : Z) (fuel : nat)
  (i : Z) (items : list ExerciseItem) : M (list ExerciseItem) :=
  let itemCount := 6 in
  if i <? itemCount then
    match fuel with
    | O => outOfFuel
    | S fuel' =>
      attempt <- chordAttempt settings min max ;;
      match attempt with
      | Retry => chordLoop settings min max fuel' (i - 1 + 1) items
      | Accepted finalNotes =>
        uid <- uuidv4 ;;
        chordLoop settings min max fuel' (i + 1)
          (items ++ [mkItem uid finalNotes pending None None])
      end
    end
  else ret items.

(** *** Single and beam mode bodies *)

Definition singleBody (settings : GameSettings) (min max : Z)
  (i : Z) (items : list ExerciseItem) : M (list ExerciseItem) :=
  let isValid := isValidNote settings
    (getScalePitchClasses (keyRoot settings) (keyType settings)) in
  midi <- getValidRandomMidi isValid min max ;;
  uid <- uuidv4 ;;
  note <- throwIfUndefined
    (midiToNote midi (keyRoot settings) (keyType settings)) ;;
  ret (items ++ [mkItem uid [note] pending None None]).

Definition beamNoteBody (settings : GameSettings) (min max : Z)
  (currentBeamIndex : Z) (n : Z) (items : list ExerciseItem)
  : M (list ExerciseItem) :=
  let isValid := isValidNote settings
    (getScalePitchClasses (keyRoot settings) (keyType settings)) in
  let duration := D16 in
  midi <- getValidRandomMidi isValid min max ;;
  note <- throwIfUndefined
    (midiToNote midi (keyRoot settings) (keyType settings)) ;;
  let note := withDuration note duration in
  uid <- uuidv4 ;;
  ret (items ++ [mkItem uid [note] pending (Some true)
                        (Some currentBeamIndex)]).

(** The loop state of the outer beam loop is [items] with
    [currentBeamIndex]. *)
Definition beamGroupBody (settings : GameSettings) (min max : Z)
  (g : Z) (st : list ExerciseItem * Z) : M (list ExerciseItem * Z) :=
  let '(items, currentBeamIndex) := st in
  groupSize <- getRandomInt 4 6 ;;
  items <- forLoop groupSize
             (beamNoteBody settings min max currentBeamIndex) items ;;
  ret (items, currentBeamIndex + 1).

(** *** generateExercise *)

Definition generateExercise (fuel : nat) (settings : GameSettings)
  : M (list ExerciseItem) :=
  let items : list ExerciseItem := [] in
  let min := match clef settings with
             | treble => TREBLE_MIN | bass => BASS_MIN end in
  let max := match clef settings with
             | treble => TREBLE_MAX | bass => BASS_MAX end in
  match mode settings with
  | single =>
    let itemCount := 6 in
    forLoop itemCount (singleBody settings min max) items
  | chords => chordLoop settings min max fuel 0 items
  | beams =>
    numGroups <- getRandomInt 3 4 ;;
    let currentBeamIndex := 0 in
    st <- forLoop numGroups (beamGroupBody settings min max)
            (items, currentBeamIndex) ;;
    ret (fst st)
  end.

End Generator.

(* ===================================================================== *)
(** ** App.tsx: how [submitChord] orders the target pitches *)
(* ===================================================================== *)

(** [String(n)] for an integer. *)
Definition numberToString (z : Z) : string :=
  NilZero.string_of_int (Z.to_int z).

Fixpoint insertBy {A} (le : A -> A -> bool) (x : A) (l : list A) : list A :=
  match l with
  | [] => [x]
  | y :: l' => if le x y then x :: l else y :: insertBy le x l'
  end.

(** A stable sort by a [<=] test. *)
Definition sortBy {A} (le : A -> A -> bool) (l : list A) : list A :=
  fold_right (insertBy le) [] l.

(** [Array.prototype.sort()] without a comparator: the elements are
    ordered by their strings, compared code unit by code unit. *)
Definition jsDefaultSort (l : list Z) : list Z :=
  sortBy (fun a b => String.leb (numberToString a) (numberToString b)) l.

(** [currentItem.notes.map(n => n.midi).sort()] *)
Definition targetMidis (currentItem : ExerciseItem) : list Z :=
  jsDefaultSort (map midi (notes currentItem)).

(** The comparison of [submitChord]: two arrays of integers have the same
    [JSON.stringify] exactly when they are equal. *)
Definition isCorrect (currentItem : ExerciseItem)
  (selectedChordNotes : list Z) : bool :=
  if list_eq_dec Z.eq_dec (targetMidis currentItem)
                          (jsDefaultSort selectedChordNotes)
  then true else false.

(* ===================================================================== *)
(** ** constants.ts: the keyboard map *)
(* ===================================================================== *)

Module Constants.

Inductive KeyKind := white | black.                  (* 'white' | 'black' *)

Record KeyConfig := mkKeyConfig {
  midi : Z;
  type : KeyKind;
  label : string;
  leftOffset : option Z
}.

Definition MIDDLE_C : Z := 60.
Definition START_MIDI : Z := 29.
Definition TOTAL_WHITE_KEYS : Z := 35.

(** [while (whiteKeyCount < TOTAL_WHITE_KEYS)] over the loop variables
    [currentMidi], [whiteKeyCount] and [keys]; each pass uses one unit of
    [fuel], and [None] means the fuel ran out. *)
Fixpoint keyboardLoop (fuel : nat) (currentMidi whiteKeyCount : Z)
  (keys : list KeyConfig) : option (list KeyConfig) :=
  if whiteKeyCount <? TOTAL_WHITE_KEYS then
    match fuel with
    | O => None
    | S fuel' =>
      let octave := currentMidi / 12 - 1 in
      let noteInOctave := jsmod currentMidi 12 in
      let isBlack := includesZ [1; 3; 6; 8; 10] noteInOctave in
      let name :=
        match noteInOctave with
        | 0 => "C" | 1 => "C#" | 2 => "D" | 3 => "D#" | 4 => "E"
        | 5 => "F" | 6 => "F#" | 7 => "G" | 8 => "G#" | 9 => "A"
        | 10 => "A#" | 11 => "B"
        | _ => ""
        end in
      let whiteKeyCount :=
        if negb isBlack then whiteKeyCount + 1 else whiteKeyCount in
      let keys :=
        keys ++ [mkKeyConfig currentMidi
                             (if isBlack then black else white)
                             (name ++ numberToString octave)
                             None] in
      keyboardLoop fuel' (currentMidi + 1) whiteKeyCount keys
    end
  else Some keys.

Definition generateKeyboardMap (fuel : nat) : option (list KeyConfig) :=
  keyboardLoop fuel START_MIDI 0 [].

(** [KEYBOARD_MAP = generateKeyboardMap()]; sixty passes end the loop
    (lemma [generateKeyboardMap_returns]). *)
Definition KEYBOARD_MAP : list KeyConfig :=
  match generateKeyboardMap 60 with
  | Some keys => keys
  | None => []
  end.

End Constants.

(* ===================================================================== *)
(** ** components/SheetMusic.tsx: key name and manual beaming *)
(* ===================================================================== *)

(** [Math.trunc], and [x % d] on numbers: the remainder has the sign of
    [x]. *)
Definition Qtrunc (x : Q) : Z :=
  if Qle_bool 0 x then Qfloor x else Qceiling x.
Definition jsRemQ (x d : Q) : Q := (x - d * inject_Z (Qtrunc (x / d)))%Q.

Module SheetMusic.

(** [keySpec]: the root, with an [m] appended for a minor key. *)
Definition keySpec (keyRoot : KeyRoot) (keyType : KeyType) : string :=
  match keyType with
  | minor => keyRootName keyRoot ++ "m"
  | major => keyRootName keyRoot
  end.

(** The variables of the beaming loop; a beam is the list of notes handed
    to [new Beam(...)]. *)
Record BeamState (A : Type) := mkBeamState {
  beams : list (list A);
  currentBeamGroup : list A;
  lastBeamIndex : option Z
}.
Arguments mkBeamState {A}.
Arguments beams {A}.
Arguments currentBeamGroup {A}.
Arguments lastBeamIndex {A}.

(** [if (currentBeamGroup.length > 0) beams.push(new Beam(currentBeamGroup))] *)
Definition pushBeam {A} (beams : list (list A)) (currentBeamGroup : list A)
  : list (list A) :=
  if Nat.ltb 0 (List.length currentBeamGroup)
  then beams ++ [currentBeamGroup] else beams.

(** The callback of [staveNotes.forEach((note, index) => ...)]; [None]
    is the [TypeError] of reading [beamGroupIndex] off [items[index]]
    when there is no such item. *)
Definition beamStep {A} (items : list ExerciseItem) (st : BeamState A)
  (note : A) (index : nat) : option (BeamState A) :=
  match nth_error items index with
  | None => None
  | Some item =>
    match beamGroupIndex item with
    | Some g =>
      let '(beams, currentBeamGroup) :=
        if (match lastBeamIndex st with
            | Some l => negb (g =? l)
            | None => false
            end)
        then (pushBeam (beams st) (currentBeamGroup st), [])
        else (beams st, currentBeamGroup st) in
      Some (mkBeamState beams (currentBeamGroup ++ [note]) (Some g))
    | None =>
      let '(beams, currentBeamGroup) :=
        if Nat.ltb 0 (List.length (currentBeamGroup st))
        then ((beams st) ++ [currentBeamGroup st], [])
        else (beams st, currentBeamGroup st) in
      Some (mkBeamState beams currentBeamGroup None)
    end
  end.

Fixpoint beamLoop {A} (items : list ExerciseItem) (st : BeamState A)
  (staveNotes : list A) (index : nat) : option (BeamState A) :=
  match staveNotes with
  | [] => Some st
  | note :: rest =>
    match beamStep items st note index with
    | None => None
    | Some st' => beamLoop items st' rest (S index)
    end
  end.

(** The beams the effect goes on to draw. *)
Definition manualBeams {A} (items : list ExerciseItem) (staveNotes : list A)
  : option (list (list A)) :=
  match beamLoop items (mkBeamState [] [] None) staveNotes 0 with
  | None => None
  | Some st => Some (pushBeam (beams st) (currentBeamGroup st))
  end.

(** *** The time signature

    The durations are multiples of a quarter, which doubles hold and add
    without rounding, so the numbers of this computation are rationals. *)

Definition durationValues (d : Duration) : Q :=
  match d with
  | Dw => 4
  | Dh => 2
  | Dq => 1
  | D8 => 1 # 2
  | D16 => 1 # 4
  end.

(** [x || y] on numbers: [y] when [x] is zero. *)
Definition orElse (x y : Q) : Q := if Qeq_bool x 0 then y else x.

(** The callback of [items.reduce]; [None] is the [TypeError] of reading
    [duration] off a missing first note. *)
Definition addBeats (acc : Q) (item : ExerciseItem) : option Q :=
  match arrayGet (notes item) 0 with
  | None => None
  | Some first =>
    let dur := match duration first with Some d => d | None => Dq end in
    Some (acc + orElse (durationValues dur) 1)%Q
  end.

Fixpoint reduceBeats (items : list ExerciseItem) (acc : Q) : option Q :=
  match items with
  | [] => Some acc
  | item :: items' =>
    match addBeats acc item with
    | None => None
    | Some acc' => reduceBeats items' acc'
    end
  end.

Definition totalBeats (items : list ExerciseItem) : option Q :=
  reduceBeats items 0.

(** [numBeats] and [beatValue], the two numbers of [timeSig]. *)
Definition timeSignature (items : list ExerciseItem) : option (Q * Z) :=
  match totalBeats items with
  | None => None
  | Some totalBeats =>
    let '(numBeats, beatValue) :=
      if negb (Qeq_bool (jsRemQ totalBeats 1) 0) then
        if Qeq_bool (jsRemQ totalBeats (1 # 2)) 0
        then ((totalBeats * 2)%Q, 8)
        else ((totalBeats * 4)%Q, 16)
      else (totalBeats, 4) in
    let numBeats := if Qeq_bool numBeats 0 then 4%Q else numBeats in
    Some (numBeats, beatValue)
  end.

End SheetMusic.

(* ===================================================================== *)
(** ** App.tsx: the handlers of the game *)
(* ===================================================================== *)

Module App.

(** The state the handlers read and set; they run on the state of the
    render they belong to.  [isDarkMode] and [isLoading] are left out:
    no handler below reads or sets them. *)
Record State := mkState {
  isPlaying : bool;
  settings : GameSettings;
  exerciseItems : list ExerciseItem;
  cursorIndex : Z;
  selectedChordNotes : list Z;
  feedbackMessage : option string       (* null is [None] *)
}.

(** What a handler asks of the outside: a timer, or a chord to sound. *)
Inductive Callback := NextTurn | ClearFeedback.
Inductive Effect :=
| SetTimeout (callback : Callback) (delay : Z)
| PlayChord (midis : list Z) (duration : string).

Definition withStatus (it : ExerciseItem) (s : Status) : ExerciseItem :=
  mkItem (id it) (notes it) s (isBeamGroup it) (beamGroupIndex it).

(** [updatedItems = [...exerciseItems]; updatedItems[i].status = s] *)
Fixpoint setStatusAt (items : list ExerciseItem) (i : nat) (s : Status)
  : list ExerciseItem :=
  match items, i with
  | [], _ => []
  | it :: rest, O => withStatus it s :: rest
  | it :: rest, S i' => it :: setStatusAt rest i' s
  end.

(** The updater of [setSelectedChordNotes] in [handlePianoInput]. *)
Definition toggleNote (prev : list Z) (midi : Z) : list Z :=
  if includesZ prev midi
  then filter (fun n => negb (n =? midi)) prev
  else prev ++ [midi].

(** What both handlers do after a correct answer: mark the item, then
    move the cursor on, or ask for the next turn after the last item. *)
Definition markCorrect (st : State) (selected : list Z)
  (effects : list Effect) : State * list Effect :=
  let updatedItems :=
    setStatusAt (exerciseItems st) (Z.to_nat (cursorIndex st)) correct in
  if cursorIndex st + 1 <? Z.of_nat (List.length (exerciseItems st))
  then (mkState (isPlaying st) (settings st) updatedItems
                (cursorIndex st + 1) selected (feedbackMessage st),
        effects)
  else (mkState (isPlaying st) (settings st) updatedItems
                (cursorIndex st) selected (feedbackMessage st),
        effects ++ [SetTimeout NextTurn 500]).

Definition showFeedback (st : State) (message : string)
  : State * list Effect :=
  (mkState (isPlaying st) (settings st) (exerciseItems st) (cursorIndex st)
           (selectedChordNotes st) (Some message),
   [SetTimeout ClearFeedback 1000]).

(** [None] is a [TypeError]: reading [notes] off a missing item, or
    [midi] off a missing first note. *)
Definition handlePianoInput (st : State) (midi : Z)
  : option (State * list Effect) :=
  if negb (isPlaying st) then Some (st, [])
  else if cursorIndex st >=? Z.of_nat (List.length (exerciseItems st))
  then Some (st, [])
  else
    let currentItem := arrayGet (exerciseItems st) (cursorIndex st) in
    match mode (settings st) with
    | single | beams =>
      match currentItem with
      | None => None
      | Some currentItem =>
        match arrayGet (notes currentItem) 0 with
        | None => None
        | Some (mkNote targetMidi _ _ _ _) =>
          if midi =? targetMidi
          then Some (markCorrect st (selectedChordNotes st) [])
          else Some (showFeedback st "Try again!")
        end
      end
    | chords =>
      Some (mkState (isPlaying st) (settings st) (exerciseItems st)
                    (cursorIndex st)
                    (toggleNote (selectedChordNotes st) midi)
                    (feedbackMessage st),
            [])
    end.

(** [JSON.stringify] of an array of integers. *)
Definition jsonStringify (l : list Z) : string :=
  "[" ++ String.concat "," (map numberToString l) ++ "]".

(** The comparison of [submitChord], as the program makes it. *)
Definition chordMatches (currentItem : ExerciseItem)
  (selectedChordNotes : list Z) : bool :=
  let targetMidis := targetMidis currentItem in
  let selectedSorted := jsDefaultSort selectedChordNotes in
  String.eqb (jsonStringify targetMidis) (jsonStringify selectedSorted).

Definition submitChord (st : State) : option (State * list Effect) :=
  if cursorIndex st >=? Z.of_nat (List.length (exerciseItems st))
  then Some (st, [])
  else
    match arrayGet (exerciseItems st) (cursorIndex st) with
    | None => None
    | Some currentItem =>
      if chordMatches currentItem (selectedChordNotes st)
      then Some (markCorrect st [] [PlayChord (targetMidis currentItem) "2n"])
      else Some (showFeedback st "Incorrect chord notes.")
    end.

(** [nextTurn]: a new round for the same settings. *)
Definition nextTurn (mathRandom : nat -> Q) (uuidSource : nat -> string)
  (fuel : nat) (st : State) : M State :=
  newItems <- generateExercise mathRandom uuidSource fuel (settings st) ;;
  ret (mkState (isPlaying st) (settings st) newItems 0 [] None).

(** [startGame] once [audioService.init()] has resolved: the first round
    is made and the game is set playing.  ([isLoading] and the [catch]
    branch of a failed load are left out.) *)
Definition startGame (mathRandom : nat -> Q) (uuidSource : nat -> string)
  (fuel : nat) (st : State) : M State :=
  newItems <- generateExercise mathRandom uuidSource fuel (settings st) ;;
  ret (mkState true (settings st) newItems 0 [] None).

(** The timer callback [() => setFeedbackMessage(null)]. *)
Definition clearFeedback (st : State) : State :=
  mkState (isPlaying st) (settings st) (exerciseItems st) (cursorIndex st)
          (selectedChordNotes st) None.

Definition stopGame (st : State) : State :=
  mkState false (settings st) [] (cursorIndex st) (selectedChordNotes st)
          (feedbackMessage st).

End App.

(* ===================================================================== *)
(** ** Definitions used to state the properties *)
(* ===================================================================== *)

(** The decoding the specification checks the speller against: the base
    pitch class of the letter, [+1] for a sharp, [-1] for a flat, [+0] for
    a natural or no accidental, plus [12 * (octave + 1)].  It is not part
    of the program; [None] when the name is not one of the seven letters. *)
Definition letterPitchClass (letter : string) : option Z :=
  if String.eqb letter "C" then Some 0
  else if String.eqb letter "D" then Some 2
  else if String.eqb letter "E" then Some 4
  else if String.eqb letter "F" then Some 5
  else if String.eqb letter "G" then Some 7
  else if String.eqb letter "A" then Some 9
  else if String.eqb letter "B" then Some 11
  else None.

Definition accidentalOffset (a : option Accidental) : Z :=
  match a with
  | Some Sharp => 1
  | Some Flat => -1
  | Some Natural => 0
  | None => 0
  end.

Definition decodeNote (n : Note) : option Z :=
  match letterPitchClass (name n) with
  | Some base => Some (base + accidentalOffset (accidental n)
                       + 12 * (octave n + 1))
  | None => None
  end.

(** The [rawName] that [midiToNote] looks up for a pitch. *)
Definition rawNameOf (midi : Z) (root : KeyRoot) (type : KeyType)
  : option string :=
  if shouldUseFlats root type then arrayGet NOTE_NAMES_FLAT (jsmod midi 12)
  else arrayGet NOTE_NAMES_SHARP (jsmod midi 12).

(** The two tests [midiToNote] makes on [rawName]. *)
Definition carriesSharp (rawName : string) : bool :=
  strIncludes rawName "#"%char.
Definition carriesFlat (rawName : string) : bool :=
  strIncludes rawName "b"%char && Nat.ltb 1 (String.length rawName).

(** Membership of a pitch in the diatonic set of a key. *)
Definition isDiatonic (root : KeyRoot) (type : KeyType) (m : Z) : bool :=
  includesZ (getScalePitchClasses root type) (jsmod m 12).

(** How a spelled note reads as a table entry: the letter followed by its
    sharp or flat sign. *)
Definition spelling (n : Note) : string :=
  match accidental n with
  | Some Sharp => name n ++ "#"
  | Some Flat => name n ++ "b"
  | Some Natural => name n
  | None => name n
  end.

(** [Math.random()] returns a number in [0,1), at every call. *)
Definition unitRandom (mathRandom : nat -> Q) : Prop :=
  forall k, (0 <= mathRandom k)%Q /\ (mathRandom k < 1)%Q.

(** [returns c w post]: started in [w], the computation [c] returns (it
    neither throws nor runs out of fuel), and the value and the world it
    ends in satisfy [post]. *)
Definition returns {A} (c : M A) (w : World) (post : A -> World -> Prop)
  : Prop :=
  exists a w', c w = Returns a w' /\ post a w'.

(** The pitch range of a clef, as [generateExercise] picks it. *)
Definition clefMin (c : ClefType) : Z :=
  match c with treble => TREBLE_MIN | bass => BASS_MIN end.
Definition clefMax (c : ClefType) : Z :=
  match c with treble => TREBLE_MAX | bass => BASS_MAX end.

(** The validity test of a round, [isValidNote] closed over its
    settings. *)
Definition validIn (settings : GameSettings) (m : Z) : bool :=
  isValidNote settings
    (getScalePitchClasses (keyRoot settings) (keyType settings)) m.

(** The chord of the specification, member by member: the third is [+3]
    if diatonic, else [+4] if diatonic, else there is none and the chord
    is discarded; the fifth is [+7] if diatonic, else [+6] if diatonic,
    else left out; the seventh, when asked for, is [+11], else [+10], else
    [+9], each only if diatonic, else left out. *)
Definition specThird (inKey : Z -> bool) (root : Z) : option Z :=
  if inKey (root + 3) then Some (root + 3)
  else if inKey (root + 4) then Some (root + 4)
  else None.

Definition specFifth (inKey : Z -> bool) (root : Z) : option Z :=
  if inKey (root + 7) then Some (root + 7)
  else if inKey (root + 6) then Some (root + 6)
  else None.

Definition specSeventh (inKey : Z -> bool) (root : Z) (seventh : bool)
  : option Z :=
  if seventh then
    if inKey (root + 11) then Some (root + 11)
    else if inKey (root + 10) then Some (root + 10)
    else if inKey (root + 9) then Some (root + 9)
    else None
  else None.

Definition optional {A} (o : option A) : list A :=
  match o with Some a => [a] | None => [] end.

Definition specStrictChord (inKey : Z -> bool) (root : Z) (seventh : bool)
  : option (list Z) :=
  match specThird inKey root with
  | None => None
  | Some third =>
    Some (root :: third :: optional (specFifth inKey root)
                        ++ optional (specSeventh inKey root seventh))
  end.

(** The chromatic chord of the specification: the root, a coin-flip third,
    always the fifth, and a coin-flip seventh when asked for. *)
Definition specChromaticChord (root : Z) (seventh coinThird coinSeventh : bool)
  : list Z :=
  root :: (root + (if coinThird then 4 else 3)) :: (root + 7)
       :: (if seventh then [root + (if coinSeventh then 11 else 10)] else []).

(** The beam-group indices of groups of the given sizes, numbered from
    [g]: every item of a group carries the number of its group. *)
Fixpoint beamIndices (sizes : list Z) (g : Z) : list (option Z) :=
  match sizes with
  | [] => []
  | size :: sizes' =>
    repeat (Some g) (Z.to_nat size) ++ beamIndices sizes' (g + 1)
  end.

Definition sumZ (l : list Z) : Z := fold_right Z.add 0 l.

(** Sorting numbers ascending by value. *)
Definition numericSort (l : list Z) : list Z := sortBy Z.leb l.

(** The integers [lo, lo + 1, ..., lo + count - 1]. *)
Definition interval (lo : Z) (count : nat) : list Z :=
  map (fun k => lo + Z.of_nat k) (seq 0 count).

(** The [k]-th integer that [getRandomInt(min, max)] yields when called
    again and again from world [w] on. *)
Definition drawnFrom (mathRandom : nat -> Q) (w : World) (min max : Z)
  (k : nat) : Z :=
  getRandomIntOf (mathRandom (randomCalls w + k)%nat) min max.

(** What every item of chord mode is: its pitches are the chord of the
    specification over a valid root that leaves eleven semitones of
    headroom, and its notes are those pitches spelled in the key. *)
Definition chordItemOk (settings : GameSettings) (min max : Z)
  (it : ExerciseItem) : Prop :=
  exists root seventh coinThird coinSeventh,
    min <= root <= max - 11
    /\ validIn settings root = true
    /\ (if useAccidentals settings
        then map midi (notes it)
             = specChromaticChord root seventh coinThird coinSeventh
        else specStrictChord
               (isDiatonic (keyRoot settings) (keyType settings))
               root seventh
             = Some (map midi (notes it)))
    /\ Forall (fun n => midiToNote (midi n) (keyRoot settings)
                                   (keyType settings) = Some n) (notes it)
    /\ status it = pending.

(** What every item of single mode is: one valid pitch of the range,
    spelled in the key, with no beam data. *)
Definition singleItemOk (settings : GameSettings) (min max : Z)
  (it : ExerciseItem) : Prop :=
  exists n,
    notes it = [n]
    /\ min <= midi n <= max
    /\ validIn settings (midi n) = true
    /\ midiToNote (midi n) (keyRoot settings) (keyType settings) = Some n
    /\ status it = pending
    /\ isBeamGroup it = None /\ beamGroupIndex it = None.

(** What every item of beam group [g] is: one valid pitch of the range,
    spelled in the key and given the duration '16', tagged with [g]. *)
Definition beamItemOk (settings : GameSettings) (min max : Z) (g : Z)
  (it : ExerciseItem) : Prop :=
  exists n,
    notes it = [n]
    /\ min <= midi n <= max
    /\ validIn settings (midi n) = true
    /\ duration n = Some D16
    /\ status it = pending
    /\ isBeamGroup it = Some true /\ beamGroupIndex it = Some g.

(** The state of the outer beam loop after [k] groups: the next index is
    [k], and the items made so far fall into [k] groups of 4 to 6 items,
    group [g] tagged [g]. *)
Definition beamsInv (settings : GameSettings) (min max : Z) (k : nat)
  (st : list ExerciseItem * Z) : Prop :=
  snd st = Z.of_nat k
  /\ exists sizes,
       List.length sizes = k
       /\ Forall (fun size => 4 <= size <= 6) sizes
       /\ map beamGroupIndex (fst st) = beamIndices sizes 0
       /\ Forall (fun it => exists g, beamItemOk settings min max g it)
                 (fst st).

(** The numbers with two decimal digits. *)
Definition twoDigits : list Z := interval 10 90.

(** On how many of the pairs of two-digit numbers the string order and
    the numeric order agree: all of them when this is [true]. *)
Definition ordersAgree : bool :=
  forallb (fun a =>
    forallb (fun b =>
      Bool.eqb (String.leb (numberToString a) (numberToString b))
               (a <=? b)) twoDigits) twoDigits.

(** What a round is, mode by mode. *)
Definition roundOk (settings : GameSettings) (items : list ExerciseItem)
  : Prop :=
  let min := clefMin (clef settings) in
  let max := clefMax (clef settings) in
  match mode settings with
  | single => List.length items = 6%nat
              /\ Forall (singleItemOk settings min max) items
  | chords => List.length items = 6%nat
              /\ Forall (chordItemOk settings min max) items
  | beams => exists k, 3 <= Z.of_nat k <= 4
                       /\ beamsInv settings min max k (items, Z.of_nat k)
  end.

(** A sample random source and a sample uuid source, for examples. *)
Definition sampleRandom (k : nat) : Q :=
  Z.of_nat ((k * 37 + 11) mod 101) # 101.
Definition sampleUuid (k : nat) : string :=
  "id-" ++ numberToString (Z.of_nat k).

(** The postcondition on one generated note: its pitch is in the range of
    the clef, and diatonic when accidentals are off. *)
Definition pitchOk (settings : GameSettings) (n : Note) : Prop :=
  (clef settings = treble -> 53 <= midi n <= 88)
  /\ (clef settings = bass -> 29 <= midi n <= 67)
  /\ (useAccidentals settings = false ->
      isDiatonic (keyRoot settings) (keyType settings) (midi n) = true).

Definition startWorld : World := mkWorld 0 0.

(* ===================================================================== *)
(** ** Definitions used to state the further properties *)
(* ===================================================================== *)

(** The key the keyboard loop pushes for a pitch, read off the sharp
    table of the speller instead of the [switch] of the loop. *)
Definition keyAt (m : Z) : Constants.KeyConfig :=
  Constants.mkKeyConfig m
    (if includesZ [1; 3; 6; 8; 10] (jsmod m 12)
     then Constants.black else Constants.white)
    (match arrayGet NOTE_NAMES_SHARP (jsmod m 12) with
     | Some rawName => rawName
     | None => ""
     end ++ numberToString (m / 12 - 1))
    None.

Definition isWhite (k : Constants.KeyConfig) : bool :=
  match Constants.type k with
  | Constants.white => true
  | Constants.black => false
  end.

Definition countWhite (keys : list Constants.KeyConfig) : nat :=
  List.length (filter isWhite keys).

(** The bookkeeping of the items of a round made from world [u0] on: the
    item ids are the values [uuidv4()] returned, in order, one call per
    item; every item is pending; the beam fields are set on all items or
    on none. *)
Definition roundFrame (uuidSource : nat -> string) (beamed : bool)
  (u0 : nat) (items : list ExerciseItem) (w : World) : Prop :=
  uuidCalls w = (u0 + List.length items)%nat
  /\ map id items = map uuidSource (seq u0 (List.length items))
  /\ Forall (fun it => status it = pending) items
  /\ Forall (fun it =>
       if beamed
       then isBeamGroup it = Some true /\ beamGroupIndex it <> None
       else isBeamGroup it = None /\ beamGroupIndex it = None) items.

Definition isBeams (m : GameMode) : bool :=
  match m with beams => true | _ => false end.

(** The callback of the beaming loop as a function of the beam-group
    index of the item of the note. *)
Definition beamStepOn {A} (st : SheetMusic.BeamState A) (note : A)
  (index : option Z) : SheetMusic.BeamState A :=
  match index with
  | Some g =>
    match SheetMusic.lastBeamIndex st with
    | Some l =>
      if negb (g =? l)
      then SheetMusic.mkBeamState
             (SheetMusic.pushBeam (SheetMusic.beams st)
                                  (SheetMusic.currentBeamGroup st))
             [note] (Some g)
      else SheetMusic.mkBeamState (SheetMusic.beams st)
             (SheetMusic.currentBeamGroup st ++ [note]) (Some g)
    | None =>
      SheetMusic.mkBeamState (SheetMusic.beams st)
        (SheetMusic.currentBeamGroup st ++ [note]) (Some g)
    end
  | None =>
    SheetMusic.mkBeamState
      (SheetMusic.pushBeam (SheetMusic.beams st)
                           (SheetMusic.currentBeamGroup st))
      [] None
  end.

Fixpoint beamFold {A} (st : SheetMusic.BeamState A)
  (l : list (A * option Z)) : SheetMusic.BeamState A :=
  match l with
  | [] => st
  | (note, index) :: l' => beamFold (beamStepOn st note index) l'
  end.

(** The beams a state stands for once the loop is over. *)
Definition closeBeams {A} (st : SheetMusic.BeamState A) : list (list A) :=
  SheetMusic.pushBeam (SheetMusic.beams st) (SheetMusic.currentBeamGroup st).


(** The notes whose item carries a beam-group index. *)
Definition beamedNotes {A} (l : list (A * option Z)) : list A :=
  map fst (filter (fun p => match snd p with Some _ => true | None => false end)
                  l).


(** The order by which the default sort of JavaScript compares two
    integers. *)
Definition jsLeb (a b : Z) : bool :=
  String.leb (numberToString a) (numberToString b).

(** What can happen to the running game: a key of the piano is pressed,
    the chord is submitted, or one of the two timers fires. *)
Inductive Event :=
| PressKey (midi : Z)
| PressSubmit
| TimerNextTurn
| TimerClearFeedback.

(** The game after an event; the requested effects are left to the
    outside, and a [TypeError] of a handler is a throw. *)
Definition dispatch (mathRandom : nat -> Q) (uuidSource : nat -> string)
  (e : Event) (st : App.State) : M App.State :=
  match e with
  | PressKey midi =>
    r <- throwIfUndefined (App.handlePianoInput st midi) ;; ret (fst r)
  | PressSubmit =>
    r <- throwIfUndefined (App.submitChord st) ;; ret (fst r)
  | TimerNextTurn => App.nextTurn mathRandom uuidSource 6 st
  | TimerClearFeedback => ret (App.clearFeedback st)
  end.

Fixpoint runEvents (mathRandom : nat -> Q) (uuidSource : nat -> string)
  (events : list Event) (st : App.State) : M App.State :=
  match events with
  | [] => ret st
  | e :: events' =>
    st' <- dispatch mathRandom uuidSource e st ;;
    runEvents mathRandom uuidSource events' st'
  end.

(** The state of a running game is in order: the cursor points at an
    item, every item has a first note, the items before the cursor are
    correct and those after it pending, no item is marked incorrect, and
    no key is selected twice. *)
Definition sessionOk (st : App.State) : Prop :=
  App.isPlaying st = true
  /\ 0 <= App.cursorIndex st < Z.of_nat (List.length (App.exerciseItems st))
  /\ Forall (fun it => notes it <> []) (App.exerciseItems st)
  /\ (forall k it, nth_error (App.exerciseItems st) k = Some it ->
        (Z.of_nat k < App.cursorIndex st -> status it = correct)
        /\ (App.cursorIndex st < Z.of_nat k -> status it = pending)
        /\ status it <> incorrect)
  /\ NoDup (App.selectedChordNotes st).

(** A string without a comma and without a closing bracket. *)
Definition plainText (s : string) : Prop :=
  strIncludes s ","%char = false /\ strIncludes s "]"%char = false.

(** What follows the opening bracket in [JSON.stringify] of the array. *)
Definition jsonTail (l : list Z) : string :=
  String.concat "," (map numberToString l) ++ "]".

(** Two keys whose scales have the same members. *)
Definition sameScale (r1 : KeyRoot) (t1 : KeyType) (r2 : KeyRoot)
  (t2 : KeyType) : Prop :=
  forall pc, includesZ (getScalePitchClasses r1 t1) pc
             = includesZ (getScalePitchClasses r2 t2) pc.

(** Two notes, two items that differ in spelling at most. *)
Definition sameNote (n1 n2 : Note) : Prop :=
  midi n1 = midi n2 /\ octave n1 = octave n2 /\ duration n1 = duration n2.

Definition sameItem (it1 it2 : ExerciseItem) : Prop :=
  id it1 = id it2
  /\ Forall2 sameNote (notes it1) (notes it2)
  /\ status it1 = status it2
  /\ isBeamGroup it1 = isBeamGroup it2
  /\ beamGroupIndex it1 = beamGroupIndex it2.

Definition sameAttempt (a1 a2 : ChordAttempt) : Prop :=
  match a1, a2 with
  | Retry, Retry => True
  | Accepted ns1, Accepted ns2 => Forall2 sameNote ns1 ns2
  | _, _ => False
  end.

(** Two computations that, from every world, end the same way: both
    throw, both are cut off, or both return, in the same world, values
    related by [R]. *)
Definition alike {A B} (R : A -> B -> Prop) (c1 : M A) (c2 : M B) : Prop :=
  forall w,
    match c1 w, c2 w with
    | Returns a w1, Returns b w2 => R a b /\ w1 = w2
    | Throws, Throws => True
    | Unfinished, Unfinished => True
    | _, _ => False
    end.

(** Pressing a list of keys one after the other, gathering what the
    handler requests; [None] if a press throws. *)
Fixpoint pressKeys (st : App.State) (keys : list Z)
  : option (App.State * list App.Effect) :=
  match keys with
  | [] => Some (st, [])
  | key :: keys' =>
    match App.handlePianoInput st key with
    | None => None
    | Some (st', effects) =>
      match pressKeys st' keys' with
      | None => None
      | Some (st'', effects') => Some (st'', effects ++ effects')
      end
    end
  end.

(** The pitch of the first note of each item. *)
Definition firstPitches (items : list ExerciseItem) : list Z :=
  map (fun it => match notes it with n :: _ => midi n | [] => 0 end) items.

(** The duration of the first note of an item in quarters of a beat. *)
Definition quarterBeats (it : ExerciseItem) : Z :=
  match notes it with
  | [] => 0
  | first :: _ =>
    match duration first with
    | Some Dw => 16
    | Some Dh => 8
    | Some Dq => 4
    | Some D8 => 2
    | Some D16 => 1
    | None => 4
    end
  end.

(* ===================================================================== *)
(** ** The program on some inputs *)
(* ===================================================================== *)

Example midiToNote_F_natural_in_D_major :
  midiToNote 65 KD major = Some (mkNote 65 "F" 4 (Some Natural) None).
Proof. reflexivity. Qed.

Example midiToNote_F_sharp_in_D_major :
  midiToNote 66 KD major = Some (mkNote 66 "F" 4 (Some Sharp) None).
Proof. reflexivity. Qed.

Example midiToNote_B_in_Cb_major :
  midiToNote 71 KCb major = Some (mkNote 71 "B" 4 None None).
Proof. reflexivity. Qed.

Example midiToNote_negative_throws : midiToNote (-1) KC major = None.
Proof. reflexivity. Qed.

Example scale_of_D_major :
  getScalePitchClasses KD major = [2; 4; 6; 7; 9; 11; 1].
Proof. reflexivity. Qed.

Example jsDefaultSort_orders_by_strings :
  jsDefaultSort [100; 9; 88; 29] = [100; 29; 88; 9].
Proof. vm_compute. reflexivity. Qed.

Example single_round_in_D_major :
  match generateExercise sampleRandom sampleUuid 0
          (mkSettings treble false single KD major) startWorld with
  | Returns items w' =>
    (map (fun it => map midi (notes it)) items, randomCalls w', uuidCalls w')
  | _ => ([], 0%nat, 0%nat)
  end = ([[83]; [73]; [86]; [64]; [54]; [67]], 10%nat, 6%nat).
Proof. vm_compute. reflexivity. Qed.

Example chord_round_in_D_major :
  match generateExercise sampleRandom sampleUuid 6
          (mkSettings treble false chords KD major) startWorld with
  | Returns items _ => map (fun it => map midi (notes it)) items
  | _ => []
  end = [[55; 59; 62]; [74; 78; 81]; [67; 71; 74; 78]; [69; 73; 76];
         [74; 78; 81]; [61; 64; 67; 71]].
Proof. vm_compute. reflexivity. Qed.

Example chord_round_with_five_passes :
  generateExercise sampleRandom sampleUuid 5
    (mkSettings treble false chords KD major) startWorld = Unfinished.
Proof. vm_compute. reflexivity. Qed.

Example beam_round_indices :
  match generateExercise sampleRandom sampleUuid 0
          (mkSettings bass false beams KGb minor) startWorld with
  | Returns items _ => map beamGroupIndex items
  | _ => []
  end = beamIndices [5; 6; 4] 0.
Proof. vm_compute. reflexivity. Qed.

(* ===================================================================== *)
(** ** Arithmetic of pitch classes *)
(* ===================================================================== *)

Lemma jsmod_nonneg (m : Z) : 0 <= m -> jsmod m 12 = m mod 12.
Proof. intros H. unfold jsmod. apply Z.rem_mod_nonneg; lia. Qed.

Lemma split_pitch (m : Z) :
  0 <= m -> exists q pc, m = 12 * q + pc /\ 0 <= q /\ 0 <= pc < 12.
Proof.
  intros H. exists (m / 12), (m mod 12).
  pose proof (Z.div_mod m 12 ltac:(lia)).
  pose proof (Z.mod_pos_bound m 12 ltac:(lia)).
  pose proof (Z.div_pos m 12 H ltac:(lia)). lia.
Qed.

Lemma jsmod_split (q pc : Z) :
  0 <= q -> 0 <= pc < 12 -> jsmod (12 * q + pc) 12 = pc.
Proof.
  intros Hq Hpc. rewrite jsmod_nonneg by lia.
  rewrite Z.add_comm, Z.mul_comm, Z.mod_add by lia.
  apply Z.mod_small; lia.
Qed.

Lemma div_split (q pc : Z) : 0 <= pc < 12 -> (12 * q + pc) / 12 = q.
Proof.
  intros Hpc. rewrite Z.add_comm, Z.mul_comm, Z.div_add by lia.
  rewrite Z.div_small; lia.
Qed.


(** The twelve cases of a pitch class. *)
Ltac each_class pc :=
  let H := fresh "Hclass" in
  assert (H : pc = 0 \/ pc = 1 \/ pc = 2 \/ pc = 3 \/ pc = 4 \/ pc = 5 \/
              pc = 6 \/ pc = 7 \/ pc = 8 \/ pc = 9 \/ pc = 10 \/ pc = 11)
    by lia;
  repeat (destruct H as [H | H]); subst pc.

Lemma ROOT_MIDI_VALUES_defined (root : KeyRoot) :
  exists v, tableGet ROOT_MIDI_VALUES (keyRootName root) = Some v
            /\ 0 <= v < 12.
Proof. destruct root; eexists; (split; [reflexivity | lia]). Qed.

(* ===================================================================== *)
(** ** The note speller *)
(* ===================================================================== *)

(** Spelling a pitch is spelling its class and moving it to its octave. *)
Lemma midiToNote_split (q pc : Z) (root : KeyRoot) (type : KeyType) :
  0 <= q -> 0 <= pc < 12 ->
  midiToNote (12 * q + pc) root type =
  match midiToNote pc root type with
  | Some n => Some (mkNote (12 * q + pc) (name n) (q - 1) (accidental n) None)
  | None => None
  end.
Proof.
  intros Hq Hpc. unfold midiToNote.
  rewrite (jsmod_split q pc Hq Hpc), (div_split q pc Hpc).
  replace (jsmod pc 12) with pc by (symmetry; apply (jsmod_split 0 pc); lia).
  destruct (if shouldUseFlats root type
            then arrayGet NOTE_NAMES_FLAT pc
            else arrayGet NOTE_NAMES_SHARP pc) as [rawName|]; [|reflexivity].
  destruct (strIncludes rawName "#"%char); [reflexivity|].
  destruct (strIncludes rawName "b"%char && Nat.ltb 1 (String.length rawName));
    reflexivity.
Qed.

Lemma rawNameOf_split (q pc : Z) (root : KeyRoot) (type : KeyType) :
  0 <= q -> 0 <= pc < 12 ->
  rawNameOf (12 * q + pc) root type = rawNameOf pc root type.
Proof.
  intros Hq Hpc. unfold rawNameOf.
  rewrite (jsmod_split q pc Hq Hpc).
  replace (jsmod pc 12) with pc by (symmetry; apply (jsmod_split 0 pc); lia).
  reflexivity.
Qed.

Lemma isDiatonic_split (q pc : Z) (root : KeyRoot) (type : KeyType) :
  0 <= q -> 0 <= pc < 12 ->
  isDiatonic root type (12 * q + pc) = isDiatonic root type pc.
Proof.
  intros Hq Hpc. unfold isDiatonic.
  rewrite (jsmod_split q pc Hq Hpc).
  replace (jsmod pc 12) with pc by (symmetry; apply (jsmod_split 0 pc); lia).
  reflexivity.
Qed.

Lemma isDiatonic_shift (q x : Z) (root : KeyRoot) (type : KeyType) :
  0 <= q -> 0 <= x ->
  isDiatonic root type (12 * q + x) = isDiatonic root type x.
Proof.
  intros Hq Hx. unfold isDiatonic.
  rewrite !jsmod_nonneg by lia.
  rewrite Z.add_comm, Z.mul_comm, Z.mod_add by lia. reflexivity.
Qed.

(** What [midiToNote] does on the twelve pitch classes, by evaluation. *)
Lemma midiToNote_class (pc : Z) (root : KeyRoot) (type : KeyType) :
  0 <= pc < 12 ->
  exists n base,
    midiToNote pc root type = Some n
    /\ letterPitchClass (name n) = Some base
    /\ base + accidentalOffset (accidental n) = pc.
Proof.
  intros Hpc.
  each_class pc; destruct root, type; do 2 eexists;
    (split; [reflexivity|]); (split; [reflexivity|]); reflexivity.
Qed.

(** For a pitch that is not negative the table lookup succeeds, so
    [midiToNote] returns a note, and the note keeps the pitch. *)
Lemma midiToNote_returns (m : Z) (root : KeyRoot) (type : KeyType) :
  0 <= m ->
  exists n, midiToNote m root type = Some n /\ midi n = m
            /\ duration n = None.
Proof.
  intros H. destruct (split_pitch m H) as (q & pc & -> & Hq & Hpc).
  rewrite midiToNote_split by assumption.
  destruct (midiToNote_class pc root type Hpc) as (n & base & -> & _).
  eexists; split; [reflexivity|]. split; reflexivity.
Qed.

(** C1. Round trip of the note speller: for every pitch from 0 to 127 and
    every one of the 15 roots and 2 key types, [midiToNote] returns a note
    whose octave is [floor(pitch / 12) - 1] and whose letter, accidental
    and octave decode to the pitch it was given. *)
Theorem midiToNote_round_trip (pitch : Z) (root : KeyRoot) (type : KeyType) :
  0 <= pitch <= 127 ->
  exists n, midiToNote pitch root type = Some n
            /\ midi n = pitch
            /\ octave n = pitch / 12 - 1
            /\ decodeNote n = Some pitch.
Proof.
  intros [H _]. destruct (split_pitch pitch H) as (q & pc & -> & Hq & Hpc).
  rewrite midiToNote_split, div_split by assumption.
  destruct (midiToNote_class pc root type Hpc) as (n & base & -> & Hl & Hb).
  eexists; split; [reflexivity|].
  unfold decodeNote; cbn [midi name octave accidental duration].
  rewrite Hl. repeat split. f_equal. lia.
Qed.

Lemma midiToNote_round_trip_witness :
  0 <= 66 <= 127 /\
  exists n, midiToNote 66 KD major = Some n
            /\ midi n = 66 /\ octave n = 66 / 12 - 1
            /\ decodeNote n = Some 66.
Proof. split; [lia | apply (midiToNote_round_trip 66 KD major); lia]. Defined.

(** The natural-marking rule on the twelve pitch classes, by evaluation. *)
Lemma natural_marking_class (pc : Z) (root : KeyRoot) (type : KeyType) :
  0 <= pc < 12 ->
  exists rawName n,
    rawNameOf pc root type = Some rawName
    /\ midiToNote pc root type = Some n
    /\ (accidental n = Some Natural <->
        isDiatonic root type pc = false
        /\ carriesSharp rawName = false /\ carriesFlat rawName = false)
    /\ (carriesSharp rawName = true -> accidental n = Some Sharp)
    /\ (carriesFlat rawName = true -> accidental n = Some Flat)
    /\ (root = KD -> type = major -> pc = 5 ->
        name n = "F" /\ accidental n = Some Natural)
    /\ (root = KD -> type = major -> pc = 6 ->
        name n = "F" /\ accidental n = Some Sharp).
Proof.
  intros Hpc.
  each_class pc; destruct root, type; do 2 eexists;
    (split; [reflexivity|]); (split; [reflexivity|]);
    cbn; repeat split; intros; try discriminate; try lia;
    try reflexivity; intuition discriminate.
Qed.

(** C5. Natural marking: the spelled note carries the natural sign exactly
    when the pitch class is outside the key's diatonic set and the name
    looked up in the table has neither sharp nor flat; a sharp or a flat of
    the looked-up name is kept as it is.  In D major the class of F natural
    (5) is spelled with the natural sign and the class of F sharp (6) as
    the letter F with a sharp. *)
Theorem natural_marking_rule (pitch : Z) (root : KeyRoot) (type : KeyType) :
  0 <= pitch ->
  exists rawName n,
    rawNameOf pitch root type = Some rawName
    /\ midiToNote pitch root type = Some n
    /\ (accidental n = Some Natural <->
        isDiatonic root type pitch = false
        /\ carriesSharp rawName = false /\ carriesFlat rawName = false)
    /\ (carriesSharp rawName = true -> accidental n = Some Sharp)
    /\ (carriesFlat rawName = true -> accidental n = Some Flat)
    /\ (root = KD -> type = major -> jsmod pitch 12 = 5 ->
        name n = "F" /\ accidental n = Some Natural)
    /\ (root = KD -> type = major -> jsmod pitch 12 = 6 ->
        name n = "F" /\ accidental n = Some Sharp).
Proof.
  intros H. destruct (split_pitch pitch H) as (q & pc & -> & Hq & Hpc).
  rewrite midiToNote_split, rawNameOf_split, isDiatonic_split,
    (jsmod_split q pc) by assumption.
  destruct (natural_marking_class pc root type Hpc)
    as (rawName & n & -> & -> & Hn).
  exists rawName. eexists. split; [reflexivity|]. split; [reflexivity|].
  cbn [midi name octave accidental duration]. exact Hn.
Qed.

Lemma natural_marking_rule_witness :
  0 <= 65 /\
  exists rawName n,
    rawNameOf 65 KD major = Some rawName
    /\ midiToNote 65 KD major = Some n
    /\ accidental n = Some Natural.
Proof.
  split; [lia|].
  destruct (natural_marking_rule 65 KD major ltac:(lia))
    as (rawName & n & Hr & Hn & _ & _ & _ & H5 & _).
  exists rawName, n. repeat split; try assumption.
  apply H5; reflexivity.
Defined.

(** The spellings of the twelve pitch classes, by evaluation. *)
Lemma spelling_class (pc : Z) (root : KeyRoot) (type : KeyType) :
  0 <= pc < 12 ->
  exists n,
    midiToNote pc root type = Some n
    /\ includesStr ["A"; "B"; "C"; "D"; "E"; "F"; "G"] (name n) = true
    /\ includesStr (NOTE_NAMES_SHARP ++ NOTE_NAMES_FLAT) (spelling n) = true
    /\ includesStr ["Cb"; "Fb"; "E#"; "B#"] (spelling n) = false
    /\ (pc = 11 -> name n = "B")
    /\ (pc = 4 -> name n = "E")
    /\ (pc = 11 \/ pc = 4 -> isDiatonic root type pc = true ->
        accidental n = None).
Proof.
  intros Hpc.
  each_class pc; destruct root, type; eexists;
    (split; [reflexivity|]); cbn;
    repeat split; intros; try reflexivity; try discriminate; try lia.
Qed.

(** C10. [midiToNote] only emits the letters A to G with at most one
    accidental, read off the two tables: never Cb, Fb, E# or B#.  Pitch
    class 11 is always the letter B and pitch class 4 the letter E, with
    no accidental whenever the class is diatonic, also for the roots Gb
    and Cb, whose scales contain these classes. *)
Theorem midiToNote_table_spellings (pitch : Z) (root : KeyRoot)
  (type : KeyType) :
  0 <= pitch ->
  (exists n,
    midiToNote pitch root type = Some n
    /\ includesStr ["A"; "B"; "C"; "D"; "E"; "F"; "G"] (name n) = true
    /\ includesStr (NOTE_NAMES_SHARP ++ NOTE_NAMES_FLAT) (spelling n) = true
    /\ includesStr ["Cb"; "Fb"; "E#"; "B#"] (spelling n) = false
    /\ (jsmod pitch 12 = 11 -> name n = "B")
    /\ (jsmod pitch 12 = 4 -> name n = "E")
    /\ (jsmod pitch 12 = 11 \/ jsmod pitch 12 = 4 ->
        isDiatonic root type pitch = true -> accidental n = None))
  /\ isDiatonic KGb major 11 = true
  /\ isDiatonic KCb major 11 = true
  /\ isDiatonic KCb major 4 = true.
Proof.
  intros H. split; [|repeat split].
  destruct (split_pitch pitch H) as (q & pc & -> & Hq & Hpc).
  rewrite midiToNote_split, isDiatonic_split, (jsmod_split q pc)
    by assumption.
  destruct (spelling_class pc root type Hpc) as (n & -> & Hn).
  eexists. split; [reflexivity|].
  unfold spelling in *. cbn [midi name octave accidental duration].
  exact Hn.
Qed.

Lemma midiToNote_table_spellings_witness :
  0 <= 71 /\
  exists n, midiToNote 71 KCb major = Some n
            /\ name n = "B" /\ accidental n = None.
Proof.
  split; [lia|].
  destruct (midiToNote_table_spellings 71 KCb major ltac:(lia))
    as ((n & Hn & _ & _ & _ & HB & _ & Hacc) & _ & Hd & _).
  exists n. split; [exact Hn|]. split.
  - apply HB. reflexivity.
  - apply Hacc; [left; reflexivity | exact Hd].
Defined.

(* ===================================================================== *)
(** ** Reasoning about computations *)
(* ===================================================================== *)

Lemma returns_ret {A} (a : A) (w : World) (post : A -> World -> Prop) :
  post a w -> returns (ret a) w post.
Proof. intros H. exists a, w. split; [reflexivity | exact H]. Qed.

Lemma returns_bind {A B} (c : M A) (k : A -> M B) (w : World)
  (post : B -> World -> Prop) :
  returns c w (fun a w' => returns (k a) w' post) ->
  returns (bind c k) w post.
Proof.
  intros (a & w' & Hc & b & w'' & Hk & Hpost).
  exists b, w''. split; [|exact Hpost].
  unfold bind. rewrite Hc. exact Hk.
Qed.

Lemma returns_weaken {A} (c : M A) (w : World)
  (post post' : A -> World -> Prop) :
  returns c w post -> (forall a w', post a w' -> post' a w') ->
  returns c w post'.
Proof.
  intros (a & w' & Hc & Hpost) Himp. exists a, w'. split; auto.
Qed.

Lemma returns_throwIfUndefined {A} (o : option A) (a : A) (w : World)
  (post : A -> World -> Prop) :
  o = Some a -> post a w -> returns (throwIfUndefined o) w post.
Proof.
  intros -> H. exists a, w. split; [reflexivity | exact H].
Qed.

(** A counted loop keeps an invariant that knows how many passes are
    done. *)
Lemma returns_forUpTo {St} (body : Z -> St -> M St)
  (inv : nat -> St -> Prop) (count : nat) :
  forall (done : nat) (i : Z) (s : St) (w : World),
    (forall k i' s' w', (done <= k < done + count)%nat -> inv k s' ->
        returns (body i' s') w' (fun s'' _ => inv (S k) s'')) ->
    inv done s ->
    returns (forUpTo count i body s) w
            (fun s' _ => inv (done + count)%nat s').
Proof.
  induction count as [|count IH]; intros done i s w Hbody Hinv; cbn.
  - apply returns_ret. rewrite Nat.add_0_r. exact Hinv.
  - apply returns_bind.
    eapply returns_weaken; [apply (Hbody done); [lia | exact Hinv]|].
    intros s' w' Hs'. cbv beta in Hs'.
    replace (done + S count)%nat
      with (S done + count)%nat by lia.
    apply IH; [|exact Hs'].
    intros k i' s'' w'' Hk. apply Hbody. lia.
Qed.

(* ===================================================================== *)
(** ** Random integers and the random valid pitch *)
(* ===================================================================== *)

Lemma getRandomIntOf_range (r : Q) (min max : Z) :
  (0 <= r)%Q -> (r < 1)%Q -> min <= max ->
  min <= getRandomIntOf r min max <= max.
Proof.
  intros H0 H1 Hle. unfold getRandomIntOf.
  set (n := max - min + 1).
  assert (Hn : (0 < inject_Z n)%Q).
  { change 0%Q with (inject_Z 0). rewrite <- Zlt_Qlt. unfold n. lia. }
  assert (Hlo : 0 <= Qfloor (r * inject_Z n)).
  { change 0 with (Qfloor 0). apply Qfloor_resp_le.
    apply Qmult_le_0_compat; [exact H0 | apply Qlt_le_weak; exact Hn]. }
  assert (Hhi : Qfloor (r * inject_Z n) < n).
  { rewrite Zlt_Qlt.
    apply Qle_lt_trans with (r * inject_Z n)%Q; [apply Qfloor_le|].
    rewrite <- (Qmult_1_l (inject_Z n)) at 2.
    apply Qmult_lt_compat_r; assumption. }
  unfold n in *. lia.
Qed.

(* ===================================================================== *)
(** ** Diatonic scales and the chords stacked in them *)
(* ===================================================================== *)

(** The root of a key is in its scale. *)
Lemma root_in_scale (root : KeyRoot) (type : KeyType) :
  includesZ (getScalePitchClasses root type) (rootMidiOf root) = true
  /\ 0 <= rootMidiOf root < 12.
Proof. destruct root, type; split; (reflexivity || (cbn; lia)). Qed.

(** Any twelve consecutive pitches contain a diatonic one. *)
Lemma diatonic_in_span (root : KeyRoot) (type : KeyType) (lo hi : Z) :
  0 <= lo -> lo + 11 <= hi ->
  exists m, lo <= m <= hi /\ isDiatonic root type m = true.
Proof.
  intros Hlo Hhi.
  destruct (root_in_scale root type) as (Hin & Hrc).
  exists (lo + (rootMidiOf root - lo) mod 12).
  pose proof (Z.mod_pos_bound (rootMidiOf root - lo) 12 ltac:(lia)).
  split; [lia|]. unfold isDiatonic. rewrite jsmod_nonneg by lia.
  rewrite Z.add_mod_idemp_r by lia.
  replace (lo + (rootMidiOf root - lo)) with (rootMidiOf root) by lia.
  rewrite Z.mod_small by lia. exact Hin.
Qed.

(** From a diatonic pitch class, exactly one of the two thirds, one of the
    two fifths and one of the three sevenths stay in the scale. *)
Lemma diatonic_steps_class (pc : Z) (root : KeyRoot) (type : KeyType) :
  0 <= pc < 12 -> isDiatonic root type pc = true ->
  xorb (isDiatonic root type (pc + 3)) (isDiatonic root type (pc + 4)) = true
  /\ isDiatonic root type (pc + 7) || isDiatonic root type (pc + 6) = true
  /\ isDiatonic root type (pc + 11) || isDiatonic root type (pc + 10)
     || isDiatonic root type (pc + 9) = true.
Proof.
  intros Hpc.
  each_class pc; destruct root, type; vm_compute; intros Hd;
    try discriminate Hd; repeat split.
Qed.

Lemma diatonic_steps (m : Z) (root : KeyRoot) (type : KeyType) :
  0 <= m -> isDiatonic root type m = true ->
  xorb (isDiatonic root type (m + 3)) (isDiatonic root type (m + 4)) = true
  /\ isDiatonic root type (m + 7) || isDiatonic root type (m + 6) = true
  /\ isDiatonic root type (m + 11) || isDiatonic root type (m + 10)
     || isDiatonic root type (m + 9) = true.
Proof.
  intros H. destruct (split_pitch m H) as (q & pc & -> & Hq & Hpc).
  rewrite <- !Z.add_assoc, !isDiatonic_shift by lia.
  apply diatonic_steps_class. exact Hpc.
Qed.

(** The strict branch of the program builds the chord of the
    specification. *)
Lemma strictChordMidis_refines (root : KeyRoot) (type : KeyType) (r : Z)
  (seventh : bool) :
  strictChordMidis (getScalePitchClasses root type) r seventh
  = specStrictChord (isDiatonic root type) r seventh.
Proof.
  unfold strictChordMidis, specStrictChord, specThird, specFifth,
    specSeventh.
  fold (isDiatonic root type (r + 3)). fold (isDiatonic root type (r + 4)).
  fold (isDiatonic root type (r + 6)). fold (isDiatonic root type (r + 7)).
  fold (isDiatonic root type (r + 9)). fold (isDiatonic root type (r + 10)).
  fold (isDiatonic root type (r + 11)).
  destruct (isDiatonic root type (r + 3)), (isDiatonic root type (r + 4)),
    (isDiatonic root type (r + 7)), (isDiatonic root type (r + 6)),
    seventh, (isDiatonic root type (r + 11)),
    (isDiatonic root type (r + 10)), (isDiatonic root type (r + 9));
    reflexivity.
Qed.

(** On a diatonic root the chord of the specification is complete: a
    third, a fifth and, when asked for, a seventh, all diatonic. *)
Lemma specStrictChord_complete (root : KeyRoot) (type : KeyType) (r : Z)
  (seventh : bool) :
  0 <= r -> isDiatonic root type r = true ->
  exists t f s,
    (t = 3 \/ t = 4) /\ (f = 6 \/ f = 7) /\ (s = 9 \/ s = 10 \/ s = 11)
    /\ specStrictChord (isDiatonic root type) r seventh
       = Some (r :: (r + t) :: (r + f) :: (if seventh then [r + s] else []))
    /\ isDiatonic root type (r + t) = true
    /\ isDiatonic root type (r + f) = true
    /\ isDiatonic root type (r + s) = true.
Proof.
  intros Hr Hd.
  destruct (diatonic_steps r root type Hr Hd) as (H3 & H5 & H7).
  exists (if isDiatonic root type (r + 3) then 3 else 4),
         (if isDiatonic root type (r + 7) then 7 else 6),
         (if isDiatonic root type (r + 11) then 11
          else if isDiatonic root type (r + 10) then 10 else 9).
  unfold specStrictChord, specThird, specFifth, specSeventh.
  destruct (isDiatonic root type (r + 3)) eqn:E3;
    destruct (isDiatonic root type (r + 4)) eqn:E4; try discriminate H3;
    destruct (isDiatonic root type (r + 7)) eqn:E7;
    destruct (isDiatonic root type (r + 6)) eqn:E6; try discriminate H5;
    destruct (isDiatonic root type (r + 11)) eqn:E11;
    destruct (isDiatonic root type (r + 10)) eqn:E10;
    destruct (isDiatonic root type (r + 9)) eqn:E9; try discriminate H7;
    destruct seventh; cbn [optional app];
    repeat split; try assumption; try reflexivity; auto.
Qed.

(** Case analysis on the coins that occur in the goal. *)
Ltac destruct_coins :=
  repeat match goal with
         | |- context [if Qgtb ?a ?b then _ else _] => destruct (Qgtb a b)
         end.

Section GeneratorFacts.

Variable mathRandom : nat -> Q.
Variable uuidSource : nat -> string.
Hypothesis random_in_unit : unitRandom mathRandom.

Lemma drawn_range (w : World) (min max : Z) (k : nat) :
  min <= max -> min <= drawnFrom mathRandom w min max k <= max.
Proof.
  intros H. destruct (random_in_unit (randomCalls w + k)%nat).
  apply getRandomIntOf_range; assumption.
Qed.

(** The attempts stop at the first valid draw, or use all of them. *)
Lemma randomAttempts_spec (isValid : Z -> bool) (min max : Z) (left : nat) :
  forall w,
    exists found w',
      randomAttempts mathRandom isValid min max left w = Returns found w'
      /\ uuidCalls w' = uuidCalls w
      /\ match found with
         | Some v =>
           exists k, (k < left)%nat /\ v = drawnFrom mathRandom w min max k
                     /\ isValid v = true
                     /\ (forall j, (j < k)%nat ->
                           isValid (drawnFrom mathRandom w min max j)
                           = false)
                     /\ randomCalls w' = (randomCalls w + S k)%nat
         | None =>
           (forall j, (j < left)%nat ->
                      isValid (drawnFrom mathRandom w min max j) = false)
           /\ randomCalls w' = (randomCalls w + left)%nat
         end.
Proof.
  induction left as [|left IH]; intros w; cbn.
  - exists None, w. repeat split; [lia | lia].
  - unfold bind, getRandomInt, Math_random, ret at 1.
    destruct (isValid (getRandomIntOf (mathRandom (randomCalls w)) min max))
      eqn:Hv.
    + eexists (Some _), _. split; [reflexivity|]. split; [reflexivity|].
      exists 0%nat. unfold drawnFrom. rewrite Nat.add_0_r.
      repeat split; [lia | exact Hv | lia | cbn; lia].
    + destruct (IH (mkWorld (S (randomCalls w)) (uuidCalls w)))
        as (found & w' & Hrun & Hu & Hfound).
      exists found, w'. split; [exact Hrun|]. split; [exact Hu|].
      assert (Hshift : forall j,
        drawnFrom mathRandom
          (mkWorld (S (randomCalls w)) (uuidCalls w)) min max j
        = drawnFrom mathRandom w min max (S j)).
      { intros j. unfold drawnFrom. cbn. f_equal. f_equal. lia. }
      destruct found as [v|].
      * destruct Hfound as (k & Hk & Hvk & Hval & Hbefore & Hcalls).
        exists (S k). rewrite Hshift in Hvk.
        repeat split; [lia | exact Hvk | exact Hval | | cbn in Hcalls; lia].
        intros [|j] Hj.
        -- unfold drawnFrom. rewrite Nat.add_0_r. exact Hv.
        -- rewrite <- Hshift. apply Hbefore. lia.
      * destruct Hfound as (Hall & Hcalls). split; [|cbn in Hcalls; lia].
        intros [|j] Hj.
        -- unfold drawnFrom. rewrite Nat.add_0_r. exact Hv.
        -- rewrite <- Hshift. apply Hall. lia.
Qed.

(** The ascending scan finds the smallest valid pitch, if there is
    one. *)
Lemma scanRange_spec (isValid : Z -> bool) (count : nat) :
  forall i,
    match scanRange isValid i count with
    | Some v => i <= v < i + Z.of_nat count /\ isValid v = true
                /\ (forall m, i <= m < v -> isValid m = false)
    | None => forall m, i <= m < i + Z.of_nat count -> isValid m = false
    end.
Proof.
  induction count as [|count IH]; intros i; cbn [scanRange].
  - intros m Hm. lia.
  - destruct (isValid i) eqn:Hi.
    + repeat split; [lia | lia | exact Hi | intros m Hm; lia].
    + specialize (IH (i + 1)).
      destruct (scanRange isValid (i + 1) count) as [v|].
      * destruct IH as (Hr & Hv & Hmin). repeat split; [lia | lia | exact Hv |].
        intros m Hm. destruct (Z.eq_dec m i) as [->|]; [exact Hi|].
        apply Hmin. lia.
      * intros m Hm. destruct (Z.eq_dec m i) as [->|]; [exact Hi|].
        apply IH. lia.
Qed.

(** The whole routine: the first valid draw of at most 100, else the
    smallest valid pitch of the range, else the range minimum. *)
Lemma getValidRandomMidi_spec (isValid : Z -> bool) (min max : Z)
  (w : World) :
  min <= max ->
  exists v w',
    getValidRandomMidi mathRandom isValid min max w = Returns v w'
    /\ min <= v <= max
    /\ uuidCalls w' = uuidCalls w
    /\ ((exists k, (k < 100)%nat /\ v = drawnFrom mathRandom w min max k
                   /\ isValid v = true
                   /\ (forall j, (j < k)%nat ->
                       isValid (drawnFrom mathRandom w min max j)
                       = false)
                   /\ randomCalls w' = (randomCalls w + S k)%nat)
        \/ ((forall j, (j < 100)%nat ->
                       isValid (drawnFrom mathRandom w min max j) = false)
            /\ randomCalls w' = (randomCalls w + 100)%nat
            /\ ((isValid v = true
                 /\ forall m, min <= m < v -> isValid m = false)
                \/ ((forall m, min <= m <= max -> isValid m = false)
                    /\ v = min)))).
Proof.
  intros Hle. unfold getValidRandomMidi, bind.
  destruct (randomAttempts_spec isValid min max 100 w)
    as (found & w' & -> & Hu & Hfound).
  destruct found as [v|].
  - destruct Hfound as (k & Hk & Hvk & Hval & Hbefore & Hcalls).
    exists v, w'. split; [reflexivity|]. split.
    + rewrite Hvk. apply drawn_range. exact Hle.
    + split; [exact Hu|]. left. exists k. repeat split; assumption.
  - destruct Hfound as (Hall & Hcalls).
    pose proof (scanRange_spec isValid (Z.to_nat (max - min + 1)) min)
      as Hscan.
    rewrite Z2Nat.id in Hscan by lia.
    destruct (scanRange isValid min (Z.to_nat (max - min + 1))) as [v|].
    + destruct Hscan as (Hr & Hv & Hmin).
      exists v, w'. split; [reflexivity|]. split; [lia|].
      split; [exact Hu|]. right. repeat split; try assumption.
      left. split; assumption.
    + exists min, w'. split; [reflexivity|]. split; [lia|].
      split; [exact Hu|]. right. repeat split; try assumption.
      right. split; [|reflexivity]. intros m Hm. apply Hscan. lia.
Qed.

(** When the range holds a valid pitch, the routine returns one. *)
Lemma getValidRandomMidi_valid (isValid : Z -> bool) (min max : Z)
  (w : World) :
  min <= max ->
  (exists m, min <= m <= max /\ isValid m = true) ->
  exists v w',
    getValidRandomMidi mathRandom isValid min max w = Returns v w'
    /\ min <= v <= max
    /\ isValid v = true
    /\ uuidCalls w' = uuidCalls w
    /\ (randomCalls w < randomCalls w' <= randomCalls w + 100)%nat.
Proof.
  intros Hle (m & Hm & Hvalid).
  destruct (getValidRandomMidi_spec isValid min max w Hle)
    as (v & w' & Hrun & Hr & Hu & Hcases).
  exists v, w'. split; [exact Hrun|]. split; [exact Hr|].
  destruct Hcases as [(k & Hk & _ & Hv & _ & Hc)
                     | (_ & Hc & [(Hv & _) | (Hnone & _)])].
  - repeat split; [exact Hv | exact Hu | lia | lia].
  - repeat split; [exact Hv | exact Hu | lia | lia].
  - rewrite (Hnone m Hm) in Hvalid. discriminate.
Qed.

Lemma validIn_strict (settings : GameSettings) (m : Z) :
  useAccidentals settings = false ->
  validIn settings m = isDiatonic (keyRoot settings) (keyType settings) m.
Proof. intros H. unfold validIn, isValidNote. rewrite H. reflexivity. Qed.

Lemma validIn_chromatic (settings : GameSettings) (m : Z) :
  useAccidentals settings = true -> validIn settings m = true.
Proof. intros H. unfold validIn, isValidNote. rewrite H. reflexivity. Qed.

(** Every span of twelve pitches holds a valid one, whatever the
    settings. *)
Lemma valid_in_span (settings : GameSettings) (lo hi : Z) :
  0 <= lo -> lo + 11 <= hi ->
  exists m, lo <= m <= hi /\ validIn settings m = true.
Proof.
  intros Hlo Hhi. destruct (useAccidentals settings) eqn:Hacc.
  - exists lo. split; [lia|]. apply validIn_chromatic. exact Hacc.
  - destruct (diatonic_in_span (keyRoot settings) (keyType settings)
                               lo hi Hlo Hhi) as (m & Hm & Hd).
    exists m. split; [exact Hm|]. rewrite validIn_strict; assumption.
Qed.

(** Spelling a list of pitches that are not negative never throws. *)
Lemma mapThrow_midiToNote (root : KeyRoot) (type : KeyType) (ms : list Z)
  (w : World) :
  Forall (fun m => 0 <= m) ms ->
  exists ns,
    mapThrow (fun m => midiToNote m root type) ms w = Returns ns w
    /\ map midi ns = ms
    /\ Forall (fun n => midiToNote (midi n) root type = Some n) ns.
Proof.
  induction 1 as [|m ms Hm _ IH]; cbn [mapThrow].
  - exists []. repeat split. constructor.
  - destruct IH as (ns & Hrun & Hmap & Hall).
    destruct (midiToNote_returns m root type Hm) as (n & Hn & Hmidi & _).
    exists (n :: ns). unfold bind, throwIfUndefined. rewrite Hn, Hrun.
    repeat split.
    + cbn. rewrite Hmidi, Hmap. reflexivity.
    + constructor; [rewrite Hmidi; exact Hn | exact Hall].
Qed.

(** One pass of the chord loop: the root is a valid pitch with eleven
    semitones of headroom, the pass never reaches [i--; continue], and
    the pitches of the notes it builds are the chord of the
    specification, for the seventh flag and the coins it draws after
    the root. *)
Lemma chordAttempt_spec (settings : GameSettings) (min max : Z)
  (w : World) :
  0 <= min -> min + 11 <= max - 11 ->
  exists root w1 finalNotes w2,
    getValidRandomMidi mathRandom (validIn settings) min (max - 11) w
    = Returns root w1
    /\ min <= root <= max - 11
    /\ validIn settings root = true
    /\ chordAttempt mathRandom settings min max w
       = Returns (Accepted finalNotes) w2
    /\ uuidCalls w2 = uuidCalls w
    /\ Forall (fun n => midiToNote (midi n) (keyRoot settings)
                                   (keyType settings) = Some n) finalNotes
    /\ let seventh := Qgtb (mathRandom (randomCalls w1)) (7 # 10) in
       if useAccidentals settings
       then map midi finalNotes
            = specChromaticChord root seventh
                (Qgtb (mathRandom (S (randomCalls w1))) (1 # 2))
                (Qgtb (mathRandom (S (S (randomCalls w1)))) (1 # 2))
       else specStrictChord
              (isDiatonic (keyRoot settings) (keyType settings))
              root seventh
            = Some (map midi finalNotes).
Proof.
  intros Hmin Hspan.
  destruct (getValidRandomMidi_valid (validIn settings) min (max - 11) w
              ltac:(lia) (valid_in_span settings min (max - 11) Hmin Hspan))
    as (root & w1 & Hroot & Hr & Hv & Hu & _).
  exists root, w1.
  unfold chordAttempt, bind.
  change (isValidNote settings
            (getScalePitchClasses (keyRoot settings) (keyType settings)))
    with (validIn settings).
  rewrite Hroot. unfold Math_random at 1.
  set (seventh := Qgtb (mathRandom (randomCalls w1)) (7 # 10)).
  destruct (useAccidentals settings) eqn:Hacc; cbn [negb andb].
  - (* chromatic *)
    unfold chromaticChordMidis, bind, Math_random, ret.
    cbn [randomCalls uuidCalls].
    destruct seventh eqn:Hs; cbn [randomCalls uuidCalls app].
    + destruct (mapThrow_midiToNote (keyRoot settings) (keyType settings)
        [root; root + (if Qgtb (mathRandom (S (randomCalls w1))) (1 # 2)
                       then 4 else 3); root + 7;
         root + 10 + (if Qgtb (mathRandom (S (S (randomCalls w1)))) (1 # 2)
                      then 1 else 0)]
        (mkWorld (S (S (S (randomCalls w1)))) (uuidCalls w1)))
        as (ns & Hrun & Hmap & Hall).
      { repeat (apply Forall_cons; [destruct_coins; lia|]).
        apply Forall_nil. }
      rewrite Hrun. exists ns. eexists.
      do 5 (split; [first [reflexivity | assumption]|]).
      split; [exact Hall|]. cbv zeta. rewrite Hmap.
      unfold specChromaticChord.
      destruct (Qgtb (mathRandom (S (S (randomCalls w1)))) (1 # 2)).
      * replace (root + 10 + 1) with (root + 11) by lia. reflexivity.
      * replace (root + 10 + 0) with (root + 10) by lia. reflexivity.
    + destruct (mapThrow_midiToNote (keyRoot settings) (keyType settings)
        [root; root + (if Qgtb (mathRandom (S (randomCalls w1))) (1 # 2)
                       then 4 else 3); root + 7]
        (mkWorld (S (S (randomCalls w1))) (uuidCalls w1)))
        as (ns & Hrun & Hmap & Hall).
      { repeat (apply Forall_cons; [destruct_coins; lia|]).
        apply Forall_nil. }
      rewrite Hrun. exists ns. eexists.
      do 5 (split; [first [reflexivity | assumption]|]).
      split; [exact Hall|]. cbv zeta. rewrite Hmap. reflexivity.
  - (* strict *)
    unfold ret at 1. rewrite strictChordMidis_refines.
    rewrite validIn_strict in Hv by exact Hacc.
    destruct (specStrictChord_complete (keyRoot settings) (keyType settings)
                root seventh ltac:(lia) Hv)
      as (t & f & s & Ht & Hf & Hs & Hchord & Dt & Df & Ds).
    rewrite Hchord.
    assert (Hre : existsb (fun m => negb (validIn settings m))
              (root :: root + t :: root + f
                    :: (if seventh then [root + s] else [])) = false).
    { destruct seventh; cbn [existsb];
        rewrite !validIn_strict by exact Hacc;
        rewrite Hv, Dt, Df, ?Ds; reflexivity. }
    rewrite Hre.
    destruct (mapThrow_midiToNote (keyRoot settings) (keyType settings)
        (root :: root + t :: root + f
              :: (if seventh then [root + s] else []))
        (mkWorld (S (randomCalls w1)) (uuidCalls w1)))
        as (ns & Hrun & Hmap & Hall).
    { destruct seventh; repeat (apply Forall_cons; [lia|]);
        apply Forall_nil. }
    rewrite Hrun. exists ns. eexists.
    split; [reflexivity|]. split; [exact Hr|].
    split; [rewrite validIn_strict by exact Hacc; exact Hv|].
    do 2 (split; [first [reflexivity | assumption]|]).
    split; [exact Hall|]. cbv zeta. rewrite Hmap. reflexivity.
Qed.

(** *** The chord loop *)

Lemma chordLoop_unfold (settings : GameSettings) (min max : Z)
  (fuel : nat) (i : Z) (items : list ExerciseItem) (w : World) :
  chordLoop mathRandom uuidSource settings min max (S fuel) i items w =
  if i <? 6 then
    match chordAttempt mathRandom settings min max w with
    | Returns Retry w' =>
      chordLoop mathRandom uuidSource settings min max fuel (i - 1 + 1)
                items w'
    | Returns (Accepted finalNotes) w' =>
      chordLoop mathRandom uuidSource settings min max fuel (i + 1)
        (items ++ [mkItem (uuidSource (uuidCalls w')) finalNotes
                          pending None None])
        (mkWorld (randomCalls w') (S (uuidCalls w')))
    | Throws => Throws
    | Unfinished => Unfinished
    end
  else Returns items w.
Proof.
  cbn [chordLoop]. unfold bind, uuidv4.
  destruct (i <? 6); [|reflexivity].
  destruct (chordAttempt mathRandom settings min max w) as [[|ns] w'| |];
    reflexivity.
Qed.

Lemma chordLoop_done (settings : GameSettings) (min max : Z)
  (fuel : nat) (i : Z) (items : list ExerciseItem) (w : World) :
  6 <= i ->
  chordLoop mathRandom uuidSource settings min max fuel i items w
  = Returns items w.
Proof.
  intros Hi. assert (Hlt : (i <? 6) = false) by (apply Z.ltb_ge; lia).
  destruct fuel; cbn [chordLoop]; rewrite Hlt; reflexivity.
Qed.

(** With [k] items still to make, the loop makes them in exactly [k]
    passes: any fuel from [k] on gives the same [k] new items. *)
Lemma chordLoop_spec (settings : GameSettings) (min max : Z) :
  0 <= min -> min + 11 <= max - 11 ->
  forall (k : nat) (i : Z) (items : list ExerciseItem) (w : World),
    i = 6 - Z.of_nat k ->
    exists new w',
      (forall fuel, (k <= fuel)%nat ->
         chordLoop mathRandom uuidSource settings min max fuel i items w
         = Returns (items ++ new) w')
      /\ List.length new = k
      /\ Forall (chordItemOk settings min max) new.
Proof.
  intros Hmin Hspan. induction k as [|k IH]; intros i items w Hi.
  - exists [], w. split; [|split; [reflexivity | constructor]].
    intros fuel _. rewrite app_nil_r. apply chordLoop_done. lia.
  - destruct (chordAttempt_spec settings min max w Hmin Hspan)
      as (root & w1 & ns & w2 & _ & Hr & Hv & Hrun & _ & Hall & Hchord).
    set (it := mkItem (uuidSource (uuidCalls w2)) ns pending None None).
    destruct (IH (i + 1) (items ++ [it])
                 (mkWorld (randomCalls w2) (S (uuidCalls w2)))
                 ltac:(lia))
      as (new & w' & Hloop & Hlen & Hok).
    exists (it :: new), w'. split; [|split].
    + intros [|fuel] Hfuel; [lia|].
      rewrite chordLoop_unfold, Hrun.
      replace (i <? 6) with true by (symmetry; apply Z.ltb_lt; lia).
      fold it. rewrite Hloop by lia. rewrite <- app_assoc. reflexivity.
    + cbn. rewrite Hlen. reflexivity.
    + constructor; [|exact Hok].
      exists root, (Qgtb (mathRandom (randomCalls w1)) (7 # 10)),
        (Qgtb (mathRandom (S (randomCalls w1))) (1 # 2)),
        (Qgtb (mathRandom (S (S (randomCalls w1)))) (1 # 2)).
      cbv zeta in Hchord. cbn [notes status it].
      repeat split; assumption || reflexivity || lia.
Qed.

(** With fewer than [k] units of fuel the loop is cut off. *)
Lemma chordLoop_starves (settings : GameSettings) (min max : Z) :
  0 <= min -> min + 11 <= max - 11 ->
  forall (fuel k : nat) (i : Z) (items : list ExerciseItem) (w : World),
    i = 6 - Z.of_nat k -> (fuel < k)%nat ->
    chordLoop mathRandom uuidSource settings min max fuel i items w
    = Unfinished.
Proof.
  intros Hmin Hspan. induction fuel as [|fuel IH];
    intros k i items w Hi Hk.
  - cbn [chordLoop].
    replace (i <? 6) with true by (symmetry; apply Z.ltb_lt; lia).
    reflexivity.
  - destruct (chordAttempt_spec settings min max w Hmin Hspan)
      as (root & w1 & ns & w2 & _ & _ & _ & Hrun & _).
    rewrite chordLoop_unfold, Hrun.
    replace (i <? 6) with true by (symmetry; apply Z.ltb_lt; lia).
    apply (IH (Nat.pred k)); lia.
Qed.

(** *** Single mode *)

Lemma singleBody_spec (settings : GameSettings) (min max : Z) (i : Z)
  (items : list ExerciseItem) (w : World) :
  0 <= min -> min + 11 <= max ->
  returns (singleBody mathRandom uuidSource settings min max i items) w
    (fun items' _ =>
       exists it, items' = items ++ [it]
                  /\ singleItemOk settings min max it).
Proof.
  intros Hmin Hspan.
  destruct (getValidRandomMidi_valid (validIn settings) min max w
              ltac:(lia) (valid_in_span settings min max Hmin Hspan))
    as (v & w1 & Hrun & Hr & Hv & _).
  destruct (midiToNote_returns v (keyRoot settings) (keyType settings)
              ltac:(lia)) as (n & Hn & Hmidi & _).
  unfold returns, singleBody, bind.
  change (isValidNote settings
            (getScalePitchClasses (keyRoot settings) (keyType settings)))
    with (validIn settings).
  rewrite Hrun. unfold uuidv4, throwIfUndefined. rewrite Hn.
  do 2 eexists. split; [reflexivity|].
  eexists. split; [reflexivity|].
  exists n. cbn [notes status isBeamGroup beamGroupIndex].
  rewrite Hmidi. repeat split; assumption || lia.
Qed.

Lemma singleLoop_spec (settings : GameSettings) (min max : Z)
  (count : nat) (w : World) :
  0 <= min -> min + 11 <= max ->
  returns (forUpTo count 0
             (singleBody mathRandom uuidSource settings min max) []) w
    (fun items _ => List.length items = count
                    /\ Forall (singleItemOk settings min max) items).
Proof.
  intros Hmin Hspan.
  apply (returns_forUpTo
           (singleBody mathRandom uuidSource settings min max)
           (fun k items => List.length items = k
                           /\ Forall (singleItemOk settings min max) items)
           count 0%nat 0 [] w).
  - intros k i items w' _ (Hlen & Hok).
    eapply returns_weaken; [apply singleBody_spec; assumption|].
    intros items' _ (it & -> & Hit). split.
    + rewrite length_app, Hlen. cbn. lia.
    + apply Forall_app. split; [exact Hok|].
      constructor; [exact Hit | constructor].
  - split; [reflexivity | constructor].
Qed.

(** *** Beam mode *)

Lemma beamNoteBody_spec (settings : GameSettings) (min max g n : Z)
  (items : list ExerciseItem) (w : World) :
  0 <= min -> min + 11 <= max ->
  returns (beamNoteBody mathRandom uuidSource settings min max g n items) w
    (fun items' _ =>
       exists it, items' = items ++ [it]
                  /\ beamItemOk settings min max g it).
Proof.
  intros Hmin Hspan.
  destruct (getValidRandomMidi_valid (validIn settings) min max w
              ltac:(lia) (valid_in_span settings min max Hmin Hspan))
    as (v & w1 & Hrun & Hr & Hv & _).
  destruct (midiToNote_returns v (keyRoot settings) (keyType settings)
              ltac:(lia)) as (note & Hn & Hmidi & _).
  unfold returns, beamNoteBody, bind.
  change (isValidNote settings
            (getScalePitchClasses (keyRoot settings) (keyType settings)))
    with (validIn settings).
  rewrite Hrun. unfold uuidv4, throwIfUndefined. rewrite Hn.
  do 2 eexists. split; [reflexivity|].
  eexists. split; [reflexivity|].
  exists (withDuration note D16).
  cbn [notes status isBeamGroup beamGroupIndex withDuration midi duration].
  rewrite Hmidi. repeat split; assumption || lia.
Qed.

Lemma beamGroup_spec (settings : GameSettings) (min max g : Z)
  (count : nat) (items : list ExerciseItem) (w : World) :
  0 <= min -> min + 11 <= max ->
  returns (forUpTo count 0
             (beamNoteBody mathRandom uuidSource settings min max g)
             items) w
    (fun items' _ =>
       exists new, items' = items ++ new
                   /\ List.length new = count
                   /\ Forall (beamItemOk settings min max g) new).
Proof.
  intros Hmin Hspan.
  apply (returns_forUpTo
           (beamNoteBody mathRandom uuidSource settings min max g)
           (fun k items' =>
              exists new, items' = items ++ new
                          /\ List.length new = k
                          /\ Forall (beamItemOk settings min max g) new)
           count 0%nat 0 items w).
  - intros k i items' w' _ (new & -> & Hlen & Hok).
    eapply returns_weaken; [apply beamNoteBody_spec; assumption|].
    intros items'' _ (it & -> & Hit). exists (new ++ [it]).
    split; [rewrite app_assoc; reflexivity|]. split.
    + rewrite length_app, Hlen. cbn. lia.
    + apply Forall_app. split; [exact Hok|].
      constructor; [exact Hit | constructor].
  - exists []. split; [rewrite app_nil_r; reflexivity|].
    split; [reflexivity | constructor].
Qed.

Lemma beamIndices_app (sizes : list Z) (size g : Z) :
  beamIndices (sizes ++ [size]) g
  = beamIndices sizes g
    ++ repeat (Some (g + Z.of_nat (List.length sizes))) (Z.to_nat size).
Proof.
  revert g. induction sizes as [|s sizes IH]; intros g; cbn [beamIndices app].
  - rewrite app_nil_r. cbn. rewrite Z.add_0_r. reflexivity.
  - rewrite IH, <- app_assoc. do 3 f_equal. cbn [List.length]. f_equal. lia.
Qed.

Lemma beamItems_indices (settings : GameSettings) (min max g : Z)
  (new : list ExerciseItem) :
  Forall (beamItemOk settings min max g) new ->
  map beamGroupIndex new = repeat (Some g) (List.length new).
Proof.
  induction 1 as [|it new Hit _ IH]; [reflexivity|].
  destruct Hit as (n & _ & _ & _ & _ & _ & _ & Hg).
  cbn. rewrite Hg, IH. reflexivity.
Qed.

Lemma beamGroupBody_spec (settings : GameSettings) (min max : Z) (k : nat)
  (g : Z) (st : list ExerciseItem * Z) (w : World) :
  0 <= min -> min + 11 <= max ->
  beamsInv settings min max k st ->
  returns (beamGroupBody mathRandom uuidSource settings min max g st) w
    (fun st' _ => beamsInv settings min max (S k) st').
Proof.
  intros Hmin Hspan (Hidx & sizes & Hlen & Hsizes & Hmap & Hok).
  destruct st as (items, idx). cbn [fst snd] in *.
  unfold beamGroupBody. apply returns_bind.
  unfold getRandomInt, bind, Math_random, ret, returns at 1.
  do 2 eexists. split; [reflexivity|].
  set (size := getRandomIntOf (mathRandom (randomCalls w)) 4 6).
  assert (Hsize : 4 <= size <= 6).
  { destruct (random_in_unit (randomCalls w)).
    apply getRandomIntOf_range; [assumption | assumption | lia]. }
  apply returns_bind. unfold forLoop.
  eapply returns_weaken; [apply beamGroup_spec; assumption|].
  intros items' w' (new & -> & Hnew & Hnewok). cbv beta.
  apply returns_ret. split; [cbn [snd]; lia|].
  exists (sizes ++ [size]). cbn [fst]. repeat split.
  - rewrite length_app, Hlen. cbn. lia.
  - apply Forall_app. split; [exact Hsizes|].
    constructor; [exact Hsize | constructor].
  - rewrite map_app, Hmap, beamIndices_app.
    rewrite (beamItems_indices settings min max idx new Hnewok).
    rewrite Hnew, Hlen, Hidx. reflexivity.
  - apply Forall_app. split; [exact Hok|].
    eapply Forall_impl; [|exact Hnewok]. intros it Hit. exists idx. exact Hit.
Qed.

Lemma beamsLoop_spec (settings : GameSettings) (min max : Z)
  (count : nat) (w : World) :
  0 <= min -> min + 11 <= max ->
  returns (forUpTo count 0
             (beamGroupBody mathRandom uuidSource settings min max)
             ([], 0)) w
    (fun st _ => beamsInv settings min max count st).
Proof.
  intros Hmin Hspan.
  apply (returns_forUpTo
           (beamGroupBody mathRandom uuidSource settings min max)
           (beamsInv settings min max) count 0%nat 0 ([], 0) w).
  - intros k i st w' _ Hinv. apply beamGroupBody_spec; assumption.
  - split; [reflexivity|]. exists []. repeat split; constructor.
Qed.

(** *** The whole round *)

Lemma clef_span (c : ClefType) :
  0 <= clefMin c /\ clefMin c + 11 <= clefMax c - 11.
Proof.
  destruct c;
    unfold clefMin, clefMax, TREBLE_MIN, TREBLE_MAX, BASS_MIN, BASS_MAX;
    lia.
Qed.

(** Every round returns, needs six units of fuel in chord mode and none
    otherwise, and is made as [roundOk] says. *)
Lemma generateExercise_spec (settings : GameSettings) (w : World) :
  exists items w',
    (forall fuel, (mode settings = chords -> (6 <= fuel)%nat) ->
       generateExercise mathRandom uuidSource fuel settings w
       = Returns items w')
    /\ roundOk settings items.
Proof.
  destruct (clef_span (clef settings)) as (Hmin & Hspan).
  unfold generateExercise, roundOk.
  change (match clef settings with
          | treble => TREBLE_MIN | bass => BASS_MIN end)
    with (clefMin (clef settings)).
  change (match clef settings with
          | treble => TREBLE_MAX | bass => BASS_MAX end)
    with (clefMax (clef settings)).
  destruct (mode settings).
  - destruct (singleLoop_spec settings (clefMin (clef settings))
                (clefMax (clef settings)) 6 w Hmin ltac:(lia))
      as (items & w' & Hrun & Hok).
    exists items, w'. split; [intros fuel _; exact Hrun | exact Hok].
  - destruct (chordLoop_spec settings (clefMin (clef settings))
                (clefMax (clef settings)) Hmin Hspan 6 0 [] w
                ltac:(reflexivity))
      as (items & w' & Hrun & Hok).
    exists items, w'. split; [|exact Hok].
    intros fuel Hfuel. apply Hrun. apply Hfuel. reflexivity.
  - set (numGroups := getRandomIntOf (mathRandom (randomCalls w)) 3 4).
    assert (Hn : 3 <= numGroups <= 4).
    { destruct (random_in_unit (randomCalls w)).
      apply getRandomIntOf_range; [assumption | assumption | lia]. }
    destruct (beamsLoop_spec settings (clefMin (clef settings))
                (clefMax (clef settings)) (Z.to_nat numGroups)
                (mkWorld (S (randomCalls w)) (uuidCalls w))
                Hmin ltac:(lia))
      as ((items, idx) & w' & Hrun & Hinv).
    exists items, w'. split.
    + intros fuel _. unfold getRandomInt, Math_random, forLoop.
      unfold bind, ret. fold numGroups. rewrite Hrun. reflexivity.
    + exists (Z.to_nat numGroups). split; [lia|].
      destruct Hinv as (Hidx & Hrest). split; [reflexivity|].
      exact Hrest.
Qed.

End GeneratorFacts.

(* ===================================================================== *)
(** ** What the items of a round contain *)
(* ===================================================================== *)

(** The pitches of a chord item ascend from the root, stay within eleven
    semitones of it, and are three, or four with a seventh; in strict
    mode they are all diatonic. *)
Lemma chordItem_pitches (settings : GameSettings) (min max : Z)
  (it : ExerciseItem) :
  0 <= min -> chordItemOk settings min max it ->
  StronglySorted Z.lt (map midi (notes it))
  /\ Forall (fun m => min <= m <= max) (map midi (notes it))
  /\ (List.length (notes it) = 3%nat \/ List.length (notes it) = 4%nat)
  /\ (useAccidentals settings = false ->
      Forall (fun m => isDiatonic (keyRoot settings) (keyType settings) m
                       = true) (map midi (notes it))).
Proof.
  intros Hmin (root & seventh & c1 & c2 & Hr & Hv & Hchord & _ & _).
  rewrite <- (length_map midi (notes it)).
  destruct (useAccidentals settings) eqn:Hacc.
  - rewrite Hchord. unfold specChromaticChord.
    destruct seventh, c1, c2; cbn [List.length];
      (split; [repeat constructor; lia|]);
      (split; [repeat (apply Forall_cons; [lia|]); apply Forall_nil|]);
      (split; [auto | discriminate]).
  - unfold validIn, isValidNote in Hv. rewrite Hacc in Hv. cbn [negb] in Hv.
    destruct (specStrictChord_complete (keyRoot settings) (keyType settings)
                root seventh ltac:(lia) Hv)
      as (t & f & s & Ht & Hf & Hs & Heq & Dt & Df & Ds).
    rewrite Heq in Hchord. injection Hchord as <-.
    destruct seventh; cbn [List.length];
      (split; [repeat constructor; lia|]);
      (split; [repeat (apply Forall_cons; [lia|]); apply Forall_nil|]);
      (split; [auto|]); intros _;
      repeat (apply Forall_cons; [assumption|]); apply Forall_nil.
Qed.

(* ===================================================================== *)
(** ** Sorting *)
(* ===================================================================== *)

Lemma insertBy_In {A} (le : A -> A -> bool) (x y : A) (l : list A) :
  In y (insertBy le x l) <-> y = x \/ In y l.
Proof.
  induction l as [|z l IH]; cbn.
  - intuition.
  - destruct (le x z); cbn; rewrite ?IH; intuition.
Qed.

Lemma sortBy_In {A} (le : A -> A -> bool) (y : A) (l : list A) :
  In y (sortBy le l) <-> In y l.
Proof.
  induction l as [|x l IH]; cbn; [reflexivity|].
  rewrite insertBy_In, IH. intuition.
Qed.

Lemma insertBy_ext {A} (le le' : A -> A -> bool) (x : A) (l : list A) :
  (forall b, In b l -> le x b = le' x b) ->
  insertBy le x l = insertBy le' x l.
Proof.
  induction l as [|y l IH]; intros H; cbn; [reflexivity|].
  rewrite (H y) by (left; reflexivity).
  rewrite IH by (intros b Hb; apply H; right; exact Hb). reflexivity.
Qed.

(** Two orders that agree on the elements of a list sort it alike. *)
Lemma sortBy_ext {A} (le le' : A -> A -> bool) (l : list A) :
  (forall a b, In a l -> In b l -> le a b = le' a b) ->
  sortBy le l = sortBy le' l.
Proof.
  induction l as [|x l IH]; intros H; [reflexivity|].
  change (insertBy le x (sortBy le l) = insertBy le' x (sortBy le' l)).
  rewrite <- IH by (intros a b Ha Hb; apply H; right; assumption).
  apply insertBy_ext. intros b Hb. apply H; [left; reflexivity|].
  right. apply (sortBy_In le). exact Hb.
Qed.

(** An ascending list is left as it is by the numeric sort. *)
Lemma numericSort_sorted (l : list Z) :
  StronglySorted Z.lt l -> numericSort l = l.
Proof.
  unfold numericSort. induction 1 as [|x l Hs IH Hall]; [reflexivity|].
  change (insertBy Z.leb x (sortBy Z.leb l) = x :: l).
  rewrite IH. destruct l as [|y l]; [reflexivity|].
  cbn [insertBy]. inversion Hall as [|? ? Hxy _]; subst.
  replace (x <=? y) with true by (symmetry; apply Z.leb_le; lia).
  reflexivity.
Qed.

Lemma interval_In (lo : Z) (count : nat) (m : Z) :
  lo <= m < lo + Z.of_nat count -> In m (interval lo count).
Proof.
  intros H. unfold interval. apply in_map_iff.
  exists (Z.to_nat (m - lo)). split; [lia|]. apply in_seq. lia.
Qed.

(** On numbers of two digits the order of the strings is the order of
    the numbers. *)
Lemma two_digit_order (a b : Z) :
  10 <= a <= 99 -> 10 <= b <= 99 ->
  String.leb (numberToString a) (numberToString b) = (a <=? b).
Proof.
  intros Ha Hb.
  assert (Hagree : ordersAgree = true) by (vm_compute; reflexivity).
  unfold ordersAgree in Hagree. rewrite forallb_forall in Hagree.
  specialize (Hagree a (interval_In 10 90 a ltac:(lia))).
  rewrite forallb_forall in Hagree.
  specialize (Hagree b (interval_In 10 90 b ltac:(lia))).
  apply Bool.eqb_prop. exact Hagree.
Qed.

(** So the default sort of JavaScript sorts such numbers by value. *)
Lemma jsDefaultSort_two_digits (l : list Z) :
  Forall (fun m => 10 <= m <= 99) l -> jsDefaultSort l = numericSort l.
Proof.
  intros H. rewrite Forall_forall in H.
  unfold jsDefaultSort, numericSort. apply sortBy_ext.
  intros a b Ha Hb. apply two_digit_order; apply H; assumption.
Qed.

(* ===================================================================== *)
(** ** Properties of the generated rounds *)
(* ===================================================================== *)

Lemma sampleRandom_unit : unitRandom sampleRandom.
Proof.
  intros k. unfold sampleRandom.
  pose proof (Nat.mod_upper_bound (k * 37 + 11) 101 ltac:(lia)).
  split; [unfold Qle | unfold Qlt]; cbn [Qnum Qden]; lia.
Qed.

(** Every note of a round is in the range of the clef and valid. *)
Lemma round_pitches (settings : GameSettings) (items : list ExerciseItem) :
  roundOk settings items ->
  Forall (fun it => Forall (pitchOk settings) (notes it)) items.
Proof.
  assert (Hclef : forall m,
    clefMin (clef settings) <= m <= clefMax (clef settings) ->
    (clef settings = treble -> 53 <= m <= 88)
    /\ (clef settings = bass -> 29 <= m <= 67)).
  { intros m. destruct (clef settings);
      unfold clefMin, clefMax, TREBLE_MIN, TREBLE_MAX, BASS_MIN, BASS_MAX;
      intros Hm; split; intros E; (discriminate E || lia). }
  assert (Hvalid : forall m,
    validIn settings m = true -> useAccidentals settings = false ->
    isDiatonic (keyRoot settings) (keyType settings) m = true).
  { intros m Hv Hacc. unfold validIn, isValidNote in Hv.
    rewrite Hacc in Hv. exact Hv. }
  unfold roundOk. destruct (mode settings).
  - intros (_ & Hok). eapply Forall_impl; [|exact Hok].
    intros it (n & -> & Hr & Hv & _). constructor; [|constructor].
    destruct (Hclef _ Hr).
    split; [assumption|]. split; [assumption|]. auto.
  - intros (_ & Hok). eapply Forall_impl; [|exact Hok].
    intros it Hit.
    destruct (clef_span (clef settings)) as (Hmin & _).
    destruct (chordItem_pitches settings _ _ it Hmin Hit)
      as (_ & Hr & _ & Hd).
    rewrite Forall_map in Hr. rewrite Forall_forall in Hr.
    apply Forall_forall. intros n Hn. destruct (Hclef _ (Hr n Hn)).
    split; [assumption|]. split; [assumption|].
    intros Hacc. specialize (Hd Hacc).
    rewrite Forall_map in Hd. rewrite Forall_forall in Hd. auto.
  - intros (k & _ & _ & sizes & _ & _ & _ & Hok). cbn [fst] in Hok.
    eapply Forall_impl; [|exact Hok].
    intros it (g & n & -> & Hr & Hv & _). constructor; [|constructor].
    destruct (Hclef _ Hr).
    split; [assumption|]. split; [assumption|]. auto.
Qed.

Lemma scale_has_seven (root : KeyRoot) (type : KeyType) :
  List.length (getScalePitchClasses root type) = 7%nat
  /\ NoDup (getScalePitchClasses root type).
Proof.
  split; [destruct type; reflexivity|].
  destruct root, type; vm_compute;
    repeat (constructor; [cbn; intuition discriminate|]); constructor.
Qed.

(** C2. Postcondition of generation, for every settings and every random
    draws: every pitch of every item lies in [53,88] under the treble clef
    and in [29,67] under the bass clef, and with accidentals off its class
    is one of the seven diatonic classes of the key.  In particular the
    settings treble, D major, accidentals off, single mode always give six
    one-note items with classes among 2, 4, 6, 7, 9, 11, 1 and pitches in
    [53,88]. *)
Theorem generation_postcondition (mathRandom : nat -> Q)
  (uuidSource : nat -> string) :
  unitRandom mathRandom ->
  (forall settings w, exists items w',
      (forall fuel, (mode settings = chords -> (6 <= fuel)%nat) ->
         generateExercise mathRandom uuidSource fuel settings w
         = Returns items w')
      /\ Forall (fun it => Forall (pitchOk settings) (notes it)) items)
  /\ (forall w, exists items w',
      (forall fuel,
         generateExercise mathRandom uuidSource fuel
           (mkSettings treble false single KD major) w = Returns items w')
      /\ List.length items = 6%nat
      /\ Forall (fun it => exists n,
                   notes it = [n]
                   /\ includesZ [2; 4; 6; 7; 9; 11; 1] (jsmod (midi n) 12)
                      = true
                   /\ 53 <= midi n <= 88) items)
  /\ (forall root type,
      List.length (getScalePitchClasses root type) = 7%nat
      /\ NoDup (getScalePitchClasses root type)).
Proof.
  intros Hrand. split; [|split].
  - intros settings w.
    destruct (generateExercise_spec mathRandom uuidSource Hrand settings w)
      as (items & w' & Hrun & Hok).
    exists items, w'. split; [exact Hrun|]. apply round_pitches. exact Hok.
  - intros w.
    destruct (generateExercise_spec mathRandom uuidSource Hrand
                (mkSettings treble false single KD major) w)
      as (items & w' & Hrun & Hlen & Hok).
    exists items, w'. split; [|split; [exact Hlen|]].
    + intros fuel. apply Hrun. discriminate.
    + eapply Forall_impl; [|exact Hok].
      intros it (n & Hn & Hr & Hv & _). exists n.
      split; [exact Hn|]. split; [exact Hv | exact Hr].
  - apply scale_has_seven.
Qed.

Lemma generation_postcondition_witness :
  exists items w',
    generateExercise sampleRandom sampleUuid 6
      (mkSettings bass false chords KEb minor) startWorld = Returns items w'
    /\ Forall (fun it =>
         Forall (pitchOk (mkSettings bass false chords KEb minor)) (notes it))
         items.
Proof.
  destruct (generation_postcondition sampleRandom sampleUuid sampleRandom_unit)
    as (Hall & _).
  destruct (Hall (mkSettings bass false chords KEb minor) startWorld)
    as (items & w' & Hrun & Hok).
  exists items, w'. split; [apply Hrun; intros _; apply le_n | exact Hok].
Defined.

(** C4. The random valid pitch never fails: for [min <= max] and any
    validity test it returns a pitch of the range, namely the first valid
    one among at most 100 draws, otherwise the smallest valid pitch of the
    range, and the range minimum when the range holds no valid pitch. *)
Theorem getValidRandomMidi_two_tier (mathRandom : nat -> Q)
  (isValid : Z -> bool) (min max : Z) (w : World) :
  unitRandom mathRandom ->
  min <= max ->
  exists v w',
    getValidRandomMidi mathRandom isValid min max w = Returns v w'
    /\ min <= v <= max
    /\ uuidCalls w' = uuidCalls w
    /\ ((exists k, (k < 100)%nat /\ v = drawnFrom mathRandom w min max k
                   /\ isValid v = true
                   /\ (forall j, (j < k)%nat ->
                         isValid (drawnFrom mathRandom w min max j) = false)
                   /\ randomCalls w' = (randomCalls w + S k)%nat)
        \/ ((forall j, (j < 100)%nat ->
               isValid (drawnFrom mathRandom w min max j) = false)
            /\ randomCalls w' = (randomCalls w + 100)%nat
            /\ ((isValid v = true
                 /\ forall m, min <= m < v -> isValid m = false)
                \/ ((forall m, min <= m <= max -> isValid m = false)
                    /\ v = min)))).
Proof.
  intros Hrand Hle. apply getValidRandomMidi_spec; assumption.
Qed.

Lemma getValidRandomMidi_two_tier_witness :
  exists v w',
    getValidRandomMidi sampleRandom (fun m => m =? 60) 53 88 startWorld
    = Returns v w'
    /\ 53 <= v <= 88.
Proof.
  destruct (getValidRandomMidi_two_tier sampleRandom (fun m => m =? 60)
              53 88 startWorld sampleRandom_unit ltac:(lia))
    as (v & w' & Hrun & Hr & _).
  exists v, w'. split; [exact Hrun | exact Hr].
Defined.

(** C3. Termination with bounded retries: every round returns, for every
    settings and every random draws, whatever fuel from six on the chord
    loop is given; the chord loop makes exactly six passes (less fuel than
    six cuts it off), because a pass never reaches the retry: from a
    diatonic root [+3] or [+4] is diatonic.  The random valid pitch uses
    at most 100 draws. *)
Theorem generation_terminates (mathRandom : nat -> Q)
  (uuidSource : nat -> string) :
  unitRandom mathRandom ->
  (forall settings w, exists items w',
      forall fuel, (mode settings = chords -> (6 <= fuel)%nat) ->
        generateExercise mathRandom uuidSource fuel settings w
        = Returns items w')
  /\ (forall settings w fuel,
        mode settings = chords -> (fuel < 6)%nat ->
        generateExercise mathRandom uuidSource fuel settings w = Unfinished)
  /\ (forall isValid min max w,
        min <= max ->
        exists v w',
          getValidRandomMidi mathRandom isValid min max w = Returns v w'
          /\ (randomCalls w' <= randomCalls w + 100)%nat)
  /\ (forall settings w, exists finalNotes w',
        chordAttempt mathRandom settings (clefMin (clef settings))
                     (clefMax (clef settings)) w
        = Returns (Accepted finalNotes) w')
  /\ (forall root type r,
        0 <= r -> isDiatonic root type r = true ->
        isDiatonic root type (r + 3) || isDiatonic root type (r + 4) = true).
Proof.
  intros Hrand. repeat apply conj.
  - intros settings w.
    destruct (generateExercise_spec mathRandom uuidSource Hrand settings w)
      as (items & w' & Hrun & _).
    exists items, w'. exact Hrun.
  - intros settings w fuel Hmode Hfuel. unfold generateExercise.
    rewrite Hmode.
    destruct (clef_span (clef settings)) as (Hmin & Hspan).
    apply (chordLoop_starves mathRandom uuidSource Hrand settings
             (clefMin (clef settings)) (clefMax (clef settings))
             Hmin Hspan fuel 6); [reflexivity | exact Hfuel].
  - intros isValid min max w Hle.
    destruct (getValidRandomMidi_spec mathRandom Hrand isValid min max w Hle)
      as (v & w' & Hrun & _ & _ & Hcases).
    exists v, w'. split; [exact Hrun|].
    destruct Hcases as [(k & Hk & _ & _ & _ & Hc) | (_ & Hc & _)]; lia.
  - intros settings w.
    destruct (clef_span (clef settings)) as (Hmin & Hspan).
    destruct (chordAttempt_spec mathRandom Hrand settings _ _ w Hmin Hspan)
      as (root & w1 & ns & w2 & _ & _ & _ & Hrun & _).
    exists ns, w2. exact Hrun.
  - intros root type r Hr Hd.
    destruct (diatonic_steps r root type Hr Hd) as (H3 & _).
    destruct (isDiatonic root type (r + 3)), (isDiatonic root type (r + 4));
      (reflexivity || discriminate H3).
Qed.

Lemma generation_terminates_witness :
  exists items w',
    generateExercise sampleRandom sampleUuid 6
      (mkSettings treble false chords KFs major) startWorld
    = Returns items w'.
Proof.
  destruct (generation_terminates sampleRandom sampleUuid sampleRandom_unit)
    as (Hret & _).
  destruct (Hret (mkSettings treble false chords KFs major) startWorld)
    as (items & w' & Hrun).
  exists items, w'. apply Hrun. intros _. apply le_n.
Defined.

(** C6. Chord construction: the root of each chord is a valid random pitch
    in [min, max - 11]; with accidentals off the pass builds the root, the
    third [+3] else [+4], the fifth [+7] else [+6] else none, and, when the
    seventh flag is set, the seventh [+11] else [+10] else [+9] else none,
    each only if diatonic, and a chord without a third is discarded and the
    loop tries again with the same counter; with accidentals on it builds
    the root, a coin-flip third, always [+7], and a coin-flip [+10] or
    [+11] when the seventh flag is set. *)
Theorem chord_construction (mathRandom : nat -> Q)
  (uuidSource : nat -> string) (settings : GameSettings) (w : World) :
  unitRandom mathRandom ->
  let min := clefMin (clef settings) in
  let max := clefMax (clef settings) in
  exists root w1 attempt w2,
    getValidRandomMidi mathRandom (validIn settings) min (max - 11) w
    = Returns root w1
    /\ min <= root <= max - 11
    /\ validIn settings root = true
    /\ chordAttempt mathRandom settings min max w = Returns attempt w2
    /\ (let seventh := Qgtb (mathRandom (randomCalls w1)) (7 # 10) in
        if useAccidentals settings
        then exists finalNotes,
            attempt = Accepted finalNotes
            /\ map midi finalNotes
               = specChromaticChord root seventh
                   (Qgtb (mathRandom (S (randomCalls w1))) (1 # 2))
                   (Qgtb (mathRandom (S (S (randomCalls w1)))) (1 # 2))
        else match specStrictChord
                     (isDiatonic (keyRoot settings) (keyType settings))
                     root seventh with
             | Some chordMidis =>
               exists finalNotes,
                 attempt = Accepted finalNotes
                 /\ map midi finalNotes = chordMidis
             | None => attempt = Retry
             end)
    /\ (forall fuel i items, i < 6 ->
          chordLoop mathRandom uuidSource settings min max (S fuel) i items w
          = match attempt with
            | Retry =>
              chordLoop mathRandom uuidSource settings min max fuel i items w2
            | Accepted finalNotes =>
              chordLoop mathRandom uuidSource settings min max fuel (i + 1)
                (items ++ [mkItem (uuidSource (uuidCalls w2)) finalNotes
                                  pending None None])
                (mkWorld (randomCalls w2) (S (uuidCalls w2)))
            end).
Proof.
  intros Hrand min max.
  destruct (clef_span (clef settings)) as (Hmin & Hspan).
  destruct (chordAttempt_spec mathRandom Hrand settings min max w Hmin Hspan)
    as (root & w1 & ns & w2 & Hroot & Hr & Hv & Hrun & _ & _ & Hchord).
  exists root, w1, (Accepted ns), w2.
  split; [exact Hroot|]. split; [exact Hr|]. split; [exact Hv|].
  split; [exact Hrun|]. split.
  - cbv zeta in *. destruct (useAccidentals settings).
    + exists ns. split; [reflexivity | exact Hchord].
    + rewrite Hchord. exists ns. split; reflexivity.
  - intros fuel i items Hi. rewrite chordLoop_unfold, Hrun.
    replace (i <? 6) with true by (symmetry; apply Z.ltb_lt; lia).
    reflexivity.
Qed.

Lemma chord_construction_witness :
  exists root w1 attempt w2,
    getValidRandomMidi sampleRandom
      (validIn (mkSettings treble true chords KC major)) 53 (88 - 11)
      startWorld = Returns root w1
    /\ 53 <= root <= 88 - 11
    /\ chordAttempt sampleRandom (mkSettings treble true chords KC major)
         53 88 startWorld = Returns attempt w2.
Proof.
  destruct (chord_construction sampleRandom sampleUuid
              (mkSettings treble true chords KC major) startWorld
              sampleRandom_unit)
    as (root & w1 & attempt & w2 & Hroot & Hr & _ & Hrun & _).
  exists root, w1, attempt, w2. repeat split; assumption || apply Hr.
Defined.

Lemma beamIndices_length (sizes : list Z) (g : Z) :
  Forall (fun size => 0 <= size) sizes ->
  Z.of_nat (List.length (beamIndices sizes g)) = sumZ sizes.
Proof.
  intros H. revert g. induction H as [|size sizes Hsize _ IH]; intros g.
  - reflexivity.
  - cbn [beamIndices sumZ fold_right].
    rewrite length_app, repeat_length, Nat2Z.inj_add, IH, Z2Nat.id by lia.
    reflexivity.
Qed.

(** C7. Shape of beam mode, for every random draws: 3 to 4 groups of 4 to
    6 one-note items; the number of items is the sum of the group sizes;
    the beam-group indices of the items are 0 for the whole first group,
    1 for the second, and so on; every note has the duration '16'. *)
Theorem beam_mode_shape (mathRandom : nat -> Q) (uuidSource : nat -> string)
  (settings : GameSettings) (fuel : nat) (w : World) :
  unitRandom mathRandom ->
  mode settings = beams ->
  exists items w' sizes,
    generateExercise mathRandom uuidSource fuel settings w = Returns items w'
    /\ 3 <= Z.of_nat (List.length sizes) <= 4
    /\ Forall (fun size => 4 <= size <= 6) sizes
    /\ Z.of_nat (List.length items) = sumZ sizes
    /\ map beamGroupIndex items = beamIndices sizes 0
    /\ Forall (fun it => exists n,
                 notes it = [n] /\ duration n = Some D16
                 /\ isBeamGroup it = Some true) items.
Proof.
  intros Hrand Hmode.
  destruct (generateExercise_spec mathRandom uuidSource Hrand settings w)
    as (items & w' & Hrun & Hok).
  unfold roundOk in Hok. rewrite Hmode in Hok.
  destruct Hok as (k & Hk & _ & sizes & Hlen & Hsizes & Hmap & Hitems).
  cbn [fst] in Hmap, Hitems.
  exists items, w', sizes.
  split; [apply Hrun; rewrite Hmode; discriminate|].
  split; [rewrite Hlen; exact Hk|]. split; [exact Hsizes|].
  split; [|split; [exact Hmap|]].
  - rewrite <- (length_map beamGroupIndex items), Hmap.
    apply beamIndices_length.
    eapply Forall_impl; [|exact Hsizes]. intros size Hs. cbv beta in Hs. lia.
  - eapply Forall_impl; [|exact Hitems].
    intros it (g & n & Hn & _ & _ & Hd & _ & Hb & _). exists n.
    repeat split; assumption.
Qed.

Lemma beam_mode_shape_witness :
  exists items w' sizes,
    generateExercise sampleRandom sampleUuid 0
      (mkSettings bass false beams KGb minor) startWorld = Returns items w'
    /\ Z.of_nat (List.length items) = sumZ sizes
    /\ map beamGroupIndex items = beamIndices sizes 0.
Proof.
  destruct (beam_mode_shape sampleRandom sampleUuid
              (mkSettings bass false beams KGb minor) 0 startWorld
              sampleRandom_unit eq_refl)
    as (items & w' & sizes & Hrun & _ & _ & Hsum & Hmap & _).
  exists items, w', sizes. repeat split; assumption.
Defined.

(** C8. Agreement with the judge on the order of chord pitches: every
    pitch of a generated chord lies in [29,88] and so has two digits, the
    chord is stored in ascending order, and the order in which
    [submitChord] compares the target pitches, the default sort of
    JavaScript by strings, is their ascending numeric order.  The same
    sort puts any selection of two-digit keys in numeric order. *)
Theorem chord_order_agrees_with_judge (mathRandom : nat -> Q)
  (uuidSource : nat -> string) (settings : GameSettings) (w : World) :
  unitRandom mathRandom ->
  mode settings = chords ->
  (exists items w',
     (forall fuel, (6 <= fuel)%nat ->
        generateExercise mathRandom uuidSource fuel settings w
        = Returns items w')
     /\ Forall (fun it =>
          Forall (fun m => 29 <= m <= 88) (map midi (notes it))
          /\ StronglySorted Z.lt (map midi (notes it))
          /\ numericSort (map midi (notes it)) = map midi (notes it)
          /\ targetMidis it = numericSort (map midi (notes it))) items)
  /\ (forall selectedChordNotes,
        Forall (fun m => 10 <= m <= 99) selectedChordNotes ->
        jsDefaultSort selectedChordNotes = numericSort selectedChordNotes).
Proof.
  intros Hrand Hmode. split; [|exact jsDefaultSort_two_digits].
  destruct (generateExercise_spec mathRandom uuidSource Hrand settings w)
    as (items & w' & Hrun & Hok).
  unfold roundOk in Hok. rewrite Hmode in Hok. destruct Hok as (_ & Hok).
  exists items, w'. split; [intros fuel Hfuel; apply Hrun; auto|].
  eapply Forall_impl; [|exact Hok]. intros it Hit.
  destruct (clef_span (clef settings)) as (Hmin & _).
  destruct (chordItem_pitches settings _ _ it Hmin Hit)
    as (Hsorted & Hr & _ & _).
  assert (Hrange : Forall (fun m => 29 <= m <= 88) (map midi (notes it))).
  { eapply Forall_impl; [|exact Hr]. cbv beta.
    destruct (clef settings);
      unfold clefMin, clefMax, TREBLE_MIN, TREBLE_MAX, BASS_MIN, BASS_MAX;
      intros m Hm; lia. }
  split; [exact Hrange|]. split; [exact Hsorted|].
  split; [apply numericSort_sorted; exact Hsorted|].
  unfold targetMidis. apply jsDefaultSort_two_digits.
  eapply Forall_impl; [|exact Hrange]. intros m Hm. cbv beta in Hm. lia.
Qed.

Lemma chord_order_agrees_with_judge_witness :
  exists items w',
    generateExercise sampleRandom sampleUuid 6
      (mkSettings treble true chords KA minor) startWorld = Returns items w'
    /\ Forall (fun it => targetMidis it = map midi (notes it)) items.
Proof.
  destruct (chord_order_agrees_with_judge sampleRandom sampleUuid
              (mkSettings treble true chords KA minor) startWorld
              sampleRandom_unit eq_refl)
    as ((items & w' & Hrun & Hok) & _).
  exists items, w'. split; [apply Hrun; apply le_n|].
  eapply Forall_impl; [|exact Hok].
  intros it (_ & _ & Hsame & Htarget). rewrite Htarget. exact Hsame.
Defined.

(** C9. With accidentals off the discard and the omissions of the chord
    loop never happen: from a diatonic root exactly one of [+3] and [+4]
    is diatonic, one of [+7] and [+6] is, one of [+11], [+10] and [+9] is,
    and the check after the construction finds every pitch valid; so every
    strict chord has exactly three notes, or exactly four when the seventh
    flag is set. *)
Theorem strict_chords_complete (mathRandom : nat -> Q)
  (uuidSource : nat -> string) :
  unitRandom mathRandom ->
  (forall root type r,
     0 <= r -> isDiatonic root type r = true ->
     xorb (isDiatonic root type (r + 3)) (isDiatonic root type (r + 4)) = true
     /\ isDiatonic root type (r + 7) || isDiatonic root type (r + 6) = true
     /\ isDiatonic root type (r + 11) || isDiatonic root type (r + 10)
        || isDiatonic root type (r + 9) = true
     /\ forall seventh, exists chordMidis,
          strictChordMidis (getScalePitchClasses root type) r seventh
          = Some chordMidis
          /\ existsb (fun m => negb (isDiatonic root type m)) chordMidis
             = false
          /\ List.length chordMidis = if seventh then 4%nat else 3%nat)
  /\ (forall settings w,
        useAccidentals settings = false ->
        exists root w1 finalNotes w2,
          getValidRandomMidi mathRandom (validIn settings)
            (clefMin (clef settings)) (clefMax (clef settings) - 11) w
          = Returns root w1
          /\ isDiatonic (keyRoot settings) (keyType settings) root = true
          /\ chordAttempt mathRandom settings (clefMin (clef settings))
                          (clefMax (clef settings)) w
             = Returns (Accepted finalNotes) w2
          /\ List.length finalNotes
             = if Qgtb (mathRandom (randomCalls w1)) (7 # 10)
               then 4%nat else 3%nat)
  /\ (forall settings w,
        useAccidentals settings = false -> mode settings = chords ->
        exists items w',
          (forall fuel, (6 <= fuel)%nat ->
             generateExercise mathRandom uuidSource fuel settings w
             = Returns items w')
          /\ List.length items = 6%nat
          /\ Forall (fun it => List.length (notes it) = 3%nat
                               \/ List.length (notes it) = 4%nat) items).
Proof.
  intros Hrand. split; [|split].
  - intros root type r Hr Hd.
    destruct (diatonic_steps r root type Hr Hd) as (H3 & H5 & H7).
    split; [exact H3|]. split; [exact H5|]. split; [exact H7|].
    intros seventh. rewrite strictChordMidis_refines.
    destruct (specStrictChord_complete root type r seventh Hr Hd)
      as (t & f & s & _ & _ & _ & -> & Dt & Df & Ds).
    eexists. split; [reflexivity|].
    destruct seventh; cbn [existsb List.length];
      rewrite Hd, Dt, Df, ?Ds; split; reflexivity.
  - intros settings w Hacc.
    destruct (clef_span (clef settings)) as (Hmin & Hspan).
    destruct (chordAttempt_spec mathRandom Hrand settings _ _ w Hmin Hspan)
      as (root & w1 & ns & w2 & Hroot & Hr & Hv & Hrun & _ & _ & Hchord).
    cbv zeta in Hchord. rewrite Hacc in Hchord.
    unfold validIn, isValidNote in Hv. rewrite Hacc in Hv. cbn [negb] in Hv.
    exists root, w1, ns, w2.
    split; [exact Hroot|]. split; [exact Hv|]. split; [exact Hrun|].
    destruct (specStrictChord_complete (keyRoot settings) (keyType settings)
                root (Qgtb (mathRandom (randomCalls w1)) (7 # 10))
                ltac:(lia) Hv)
      as (t & f & s & _ & _ & _ & Heq & _).
    rewrite Heq in Hchord. injection Hchord as Hmidis.
    rewrite <- (length_map midi ns), <- Hmidis.
    destruct (Qgtb (mathRandom (randomCalls w1)) (7 # 10)); reflexivity.
  - intros settings w Hacc Hmode.
    destruct (generateExercise_spec mathRandom uuidSource Hrand settings w)
      as (items & w' & Hrun & Hok).
    unfold roundOk in Hok. rewrite Hmode in Hok.
    destruct Hok as (Hlen & Hok).
    exists items, w'. split; [intros fuel Hfuel; apply Hrun; auto|].
    split; [exact Hlen|].
    eapply Forall_impl; [|exact Hok]. intros it Hit.
    destruct (clef_span (clef settings)) as (Hmin & _).
    destruct (chordItem_pitches settings _ _ it Hmin Hit)
      as (_ & _ & Hcount & _).
    exact Hcount.
Qed.

Lemma strict_chords_complete_witness :
  exists root w1 finalNotes w2,
    getValidRandomMidi sampleRandom
      (validIn (mkSettings bass false chords KB minor)) 29 (67 - 11)
      startWorld = Returns root w1
    /\ chordAttempt sampleRandom (mkSettings bass false chords KB minor)
         29 67 startWorld = Returns (Accepted finalNotes) w2
    /\ List.length finalNotes
       = if Qgtb (sampleRandom (randomCalls w1)) (7 # 10)
         then 4%nat else 3%nat.
Proof.
  destruct (strict_chords_complete sampleRandom sampleUuid sampleRandom_unit)
    as (_ & Hattempt & _).
  destruct (Hattempt (mkSettings bass false chords KB minor) startWorld
                     eq_refl)
    as (root & w1 & ns & w2 & Hroot & _ & Hrun & Hlen).
  exists root, w1, ns, w2. repeat split; assumption.
Defined.

(* ===================================================================== *)
(** ** Further properties of the note speller *)
(* ===================================================================== *)

Lemma jsmod_small (pc : Z) : -12 < pc < 12 -> jsmod pc 12 = pc.
Proof.
  intros H. unfold jsmod. destruct (Z_lt_le_dec pc 0) as [Hneg | Hpos].
  - replace pc with (- (- pc)) at 1 by lia.
    rewrite Z.rem_opp_l by lia. rewrite Z.rem_small by lia. lia.
  - apply Z.rem_small. lia.
Qed.

Lemma jsmod_range (m : Z) :
  -12 < jsmod m 12 < 12
  /\ (0 <= m -> 0 <= jsmod m 12)
  /\ (m < 0 -> jsmod m 12 <= 0).
Proof.
  unfold jsmod. destruct (Z_lt_le_dec m 0) as [Hneg | Hpos].
  - pose proof (Z.rem_bound_pos (- m) 12 ltac:(lia) ltac:(lia)) as Hb.
    rewrite Z.rem_opp_l in Hb by lia. lia.
  - pose proof (Z.rem_bound_pos m 12 ltac:(lia) ltac:(lia)). lia.
Qed.

(** For every pitch, also a negative one, the name and the accidental are
    those of its remainder. *)
Lemma midiToNote_by_class (m : Z) (root : KeyRoot) (type : KeyType) :
  midiToNote m root type =
  match midiToNote (jsmod m 12) root type with
  | Some n => Some (mkNote m (name n) (m / 12 - 1) (accidental n) None)
  | None => None
  end.
Proof.
  unfold midiToNote.
  rewrite (jsmod_small (jsmod m 12)) by apply jsmod_range.
  destruct (if shouldUseFlats root type
            then arrayGet NOTE_NAMES_FLAT (jsmod m 12)
            else arrayGet NOTE_NAMES_SHARP (jsmod m 12)) as [rawName|];
    [|reflexivity].
  destruct (strIncludes rawName "#"%char); [reflexivity|].
  destruct (strIncludes rawName "b"%char && Nat.ltb 1 (String.length rawName));
    reflexivity.
Qed.

(** X1. [midiToNote] throws exactly on the pitches that are negative and
    not a multiple of twelve; on every other pitch it returns a note. *)
Theorem midiToNote_throws_iff (m : Z) (root : KeyRoot) (type : KeyType) :
  midiToNote m root type = None <-> m < 0 /\ Z.rem m 12 <> 0.
Proof.
  rewrite midiToNote_by_class.
  destruct (jsmod_range m) as (Hr & Hpos & Hneg).
  fold (jsmod m 12).
  destruct (Z_lt_le_dec (jsmod m 12) 0) as [Hc | Hc].
  - assert (E : midiToNote (jsmod m 12) root type = None).
    { unfold midiToNote. rewrite (jsmod_small (jsmod m 12)) by exact Hr.
      unfold arrayGet.
      replace (jsmod m 12 <? 0) with true by (symmetry; apply Z.ltb_lt; lia).
      destruct (shouldUseFlats root type); reflexivity. }
    rewrite E. split; [intros _ | reflexivity].
    split; [|lia]. destruct (Z_lt_le_dec m 0); [assumption|].
    specialize (Hpos ltac:(lia)). lia.
  - destruct (midiToNote_class (jsmod m 12) root type ltac:(lia))
      as (n & base & -> & _).
    split; [discriminate|]. intros (Hm & Hne).
    specialize (Hneg Hm). lia.
Qed.

(** X2. A key spelled with flats never gives a note a sharp, and a key
    spelled with sharps never gives a note a flat. *)
Theorem midiToNote_one_convention (m : Z) (root : KeyRoot) (type : KeyType)
  (n : Note) :
  midiToNote m root type = Some n ->
  (shouldUseFlats root type = true -> accidental n <> Some Sharp)
  /\ (shouldUseFlats root type = false -> accidental n <> Some Flat).
Proof.
  rewrite midiToNote_by_class.
  destruct (jsmod_range m) as (Hr & _).
  destruct (Z_lt_le_dec (jsmod m 12) 0) as [Hc | Hc].
  - assert (E : midiToNote (jsmod m 12) root type = None).
    { unfold midiToNote. rewrite (jsmod_small (jsmod m 12)) by exact Hr.
      unfold arrayGet.
      replace (jsmod m 12 <? 0) with true by (symmetry; apply Z.ltb_lt; lia).
      destruct (shouldUseFlats root type); reflexivity. }
    rewrite E. discriminate.
  - assert (Hpc : 0 <= jsmod m 12 < 12) by lia.
    generalize dependent (jsmod m 12). intros pc _ _ Hpc.
    each_class pc; destruct root, type; cbn; intros [= <-]; cbn;
      split; intros; discriminate.
Qed.

Lemma midiToNote_one_convention_witness :
  midiToNote 70 KF major = Some (mkNote 70 "B" 4 (Some Flat) None)
  /\ (shouldUseFlats KF major = true -> Some Flat <> Some Sharp)
  /\ (shouldUseFlats KF major = false -> Some Flat <> Some Flat).
Proof.
  split; [reflexivity|].
  apply (midiToNote_one_convention 70 KF major
           (mkNote 70 "B" 4 (Some Flat) None)).
  reflexivity.
Defined.



(* ===================================================================== *)
(** ** The keyboard map *)
(* ===================================================================== *)

Lemma jsmod_shift (q x : Z) :
  0 <= q -> 0 <= x -> jsmod (12 * q + x) 12 = jsmod x 12.
Proof.
  intros Hq Hx. rewrite !jsmod_nonneg by lia.
  rewrite Z.add_comm, Z.mul_comm, Z.mod_add by lia. reflexivity.
Qed.








Lemma keyboardLoop_more_fuel (fuel : nat) :
  forall (m whiteKeyCount : Z) (keys result : list Constants.KeyConfig),
    Constants.keyboardLoop fuel m whiteKeyCount keys = Some result ->
    Constants.keyboardLoop (S fuel) m whiteKeyCount keys = Some result.
Proof.
  induction fuel as [|fuel IH]; intros m wkc keys result.
  - cbn [Constants.keyboardLoop]. destruct (wkc <? Constants.TOTAL_WHITE_KEYS);
      [discriminate | auto].
  - intros H. cbn [Constants.keyboardLoop] in H.
    change (Constants.keyboardLoop (S (S fuel)) m wkc keys) with
      (if wkc <? Constants.TOTAL_WHITE_KEYS
       then
         Constants.keyboardLoop (S fuel) (m + 1)
           (if negb (includesZ [1; 3; 6; 8; 10] (jsmod m 12))
            then wkc + 1 else wkc)
           (keys ++
            [Constants.mkKeyConfig m
               (if includesZ [1; 3; 6; 8; 10] (jsmod m 12)
                then Constants.black else Constants.white)
               (match jsmod m 12 with
                | 0 => "C" | 1 => "C#" | 2 => "D" | 3 => "D#" | 4 => "E"
                | 5 => "F" | 6 => "F#" | 7 => "G" | 8 => "G#" | 9 => "A"
                | 10 => "A#" | 11 => "B"
                | _ => ""
                end ++ numberToString (m / 12 - 1))
               None])
       else Some keys).
    destruct (wkc <? Constants.TOTAL_WHITE_KEYS); [|exact H].
    apply IH. exact H.
Qed.

Lemma generateKeyboardMap_returns (fuel : nat) :
  (60 <= fuel)%nat ->
  Constants.generateKeyboardMap fuel = Some Constants.KEYBOARD_MAP.
Proof.
  intros H. unfold Constants.generateKeyboardMap.
  replace fuel with ((fuel - 60) + 60)%nat by lia.
  induction (fuel - 60)%nat as [|k IH].
  - vm_compute. reflexivity.
  - apply keyboardLoop_more_fuel. exact IH.
Qed.

Lemma KEYBOARD_MAP_keys :
  Constants.KEYBOARD_MAP = map keyAt (interval 29 60).
Proof. vm_compute. reflexivity. Qed.

(** X5. The keyboard the program builds: sixty passes build it, it holds
    one key for each pitch from 29 (F1) to 88 (E6) in ascending order, 35
    of them white, and the nineteenth white key is middle C. *)
Theorem KEYBOARD_MAP_layout :
  (forall fuel, (60 <= fuel)%nat ->
     Constants.generateKeyboardMap fuel = Some Constants.KEYBOARD_MAP)
  /\ Constants.generateKeyboardMap 59 = None
  /\ map Constants.midi Constants.KEYBOARD_MAP = interval 29 60
  /\ (forall m, In m (map Constants.midi Constants.KEYBOARD_MAP)
                <-> 29 <= m <= 88)
  /\ countWhite Constants.KEYBOARD_MAP = 35%nat
  /\ option_map Constants.midi
       (nth_error (filter isWhite Constants.KEYBOARD_MAP) 18)
     = Some Constants.MIDDLE_C.
Proof.
  split; [exact generateKeyboardMap_returns|].
  split; [vm_compute; reflexivity|].
  assert (Hmidis : map Constants.midi Constants.KEYBOARD_MAP = interval 29 60)
    by (vm_compute; reflexivity).
  split; [exact Hmidis|]. split; [|split; vm_compute; reflexivity].
  intros m. rewrite Hmidis. split.
  - unfold interval. rewrite in_map_iff. intros (k & <- & Hk).
    apply in_seq in Hk. lia.
  - intros Hm. apply interval_In. lia.
Qed.

(** X6. The keys are labelled as the speller spells: the label of every
    key of the keyboard is the letter, the sharp if any and the octave
    that [midiToNote] gives its pitch in C major, and the key is black
    exactly when that spelling has a sharp. *)
Theorem KEYBOARD_MAP_labels (k : Constants.KeyConfig) :
  In k Constants.KEYBOARD_MAP ->
  exists n,
    midiToNote (Constants.midi k) KC major = Some n
    /\ Constants.label k = (spelling n ++ numberToString (octave n))%string
    /\ (Constants.type k = Constants.black <-> accidental n = Some Sharp)
    /\ (Constants.type k = Constants.white <-> accidental n = None).
Proof.
  rewrite KEYBOARD_MAP_keys, in_map_iff. intros (m & <- & Hin).
  assert (Hm : 0 <= m).
  { unfold interval in Hin. apply in_map_iff in Hin.
    destruct Hin as (j & <- & _). lia. }
  clear Hin. unfold keyAt.
  cbn [Constants.midi Constants.label Constants.type].
  destruct (split_pitch m Hm) as (q & pc & -> & Hq & Hpc).
  rewrite midiToNote_split by assumption.
  rewrite jsmod_shift, div_split by lia.
  each_class pc; eexists; (split; [reflexivity|]);
    unfold spelling; cbn [name octave accidental];
    (split; [reflexivity|]); vm_compute; split; split;
    (reflexivity || discriminate).
Qed.

Lemma KEYBOARD_MAP_labels_witness :
  exists n,
    midiToNote 30 KC major = Some n
    /\ "F#1" = (spelling n ++ numberToString (octave n))%string.
Proof.
  destruct (KEYBOARD_MAP_labels
              (Constants.mkKeyConfig 30 Constants.black "F#1" None))
    as (n & Hn & Hlabel & _).
  - vm_compute. right. left. reflexivity.
  - exists n. split; [exact Hn | exact Hlabel].
Defined.

(** X7. Every pitch of every generated round is the pitch of a key of the
    keyboard, whatever the settings and the random draws. *)
Theorem generated_pitches_on_keyboard (mathRandom : nat -> Q)
  (uuidSource : nat -> string) (settings : GameSettings) (w : World) :
  unitRandom mathRandom ->
  exists items w',
    (forall fuel, (mode settings = chords -> (6 <= fuel)%nat) ->
       generateExercise mathRandom uuidSource fuel settings w
       = Returns items w')
    /\ Forall (fun it =>
         Forall (fun n => In (midi n)
                             (map Constants.midi Constants.KEYBOARD_MAP))
                (notes it)) items.
Proof.
  intros Hrand.
  destruct (generateExercise_spec mathRandom uuidSource Hrand settings w)
    as (items & w' & Hrun & Hok).
  exists items, w'. split; [exact Hrun|].
  assert (Hmidis : map Constants.midi Constants.KEYBOARD_MAP = interval 29 60)
    by (vm_compute; reflexivity).
  rewrite Hmidis.
  eapply Forall_impl; [|exact (round_pitches settings items Hok)].
  intros it Hit. eapply Forall_impl; [|exact Hit].
  intros n (Htreble & Hbass & _). apply interval_In.
  destruct (clef settings);
    [specialize (Htreble eq_refl) | specialize (Hbass eq_refl)]; lia.
Qed.

Lemma generated_pitches_on_keyboard_witness :
  exists items w',
    generateExercise sampleRandom sampleUuid 6
      (mkSettings bass true chords KCs minor) startWorld = Returns items w'
    /\ Forall (fun it =>
         Forall (fun n => In (midi n)
                             (map Constants.midi Constants.KEYBOARD_MAP))
                (notes it)) items.
Proof.
  destruct (generated_pitches_on_keyboard sampleRandom sampleUuid
              (mkSettings bass true chords KCs minor) startWorld
              sampleRandom_unit)
    as (items & w' & Hrun & Hok).
  exists items, w'. split; [apply Hrun; intros _; apply le_n | exact Hok].
Defined.

(* ===================================================================== *)
(** ** Ids, statuses and beam fields of a round *)
(* ===================================================================== *)

(** A counted loop keeps an invariant on its state and the world. *)
Lemma returns_forUpTo_world {St} (body : Z -> St -> M St)
  (inv : nat -> St -> World -> Prop) (count : nat) :
  forall (done : nat) (i : Z) (s : St) (w : World),
    (forall k i' s' w', (done <= k < done + count)%nat -> inv k s' w' ->
        returns (body i' s') w' (fun s'' w'' => inv (S k) s'' w'')) ->
    inv done s w ->
    returns (forUpTo count i body s) w
            (fun s' w' => inv (done + count)%nat s' w').
Proof.
  induction count as [|count IH]; intros done i s w Hbody Hinv; cbn.
  - apply returns_ret. rewrite Nat.add_0_r. exact Hinv.
  - apply returns_bind.
    eapply returns_weaken; [apply (Hbody done); [lia | exact Hinv]|].
    intros s' w' Hs'. cbv beta in Hs'.
    replace (done + S count)%nat with (S done + count)%nat by lia.
    apply IH; [|exact Hs'].
    intros k i' s'' w'' Hk. apply Hbody. lia.
Qed.

(** Pushing an item whose id is the next uuid keeps the frame. *)
Lemma roundFrame_push (uuidSource : nat -> string) (beamed : bool)
  (u0 : nat) (items : list ExerciseItem) (w w' : World)
  (it : ExerciseItem) :
  roundFrame uuidSource beamed u0 items w ->
  id it = uuidSource (uuidCalls w) ->
  status it = pending ->
  (if beamed
   then isBeamGroup it = Some true /\ beamGroupIndex it <> None
   else isBeamGroup it = None /\ beamGroupIndex it = None) ->
  uuidCalls w' = S (uuidCalls w) ->
  roundFrame uuidSource beamed u0 (items ++ [it]) w'.
Proof.
  intros (Hu & Hids & Hst & Hfl) Hid Hstatus Hflags Hw'.
  unfold roundFrame. rewrite length_app. cbn [List.length].
  split; [lia|]. split; [|split].
  - rewrite map_app, Hids. replace (List.length items + 1)%nat
      with (S (List.length items)) by lia.
    rewrite seq_S, map_app. cbn [map]. rewrite Hid, Hu. reflexivity.
  - apply Forall_app. split; [exact Hst |].
    constructor; [exact Hstatus|constructor].
  - apply Forall_app. split; [exact Hfl |].
    constructor; [exact Hflags|constructor].
Qed.

Lemma roundFrame_world (uuidSource : nat -> string) (beamed : bool)
  (u0 : nat) (items : list ExerciseItem) (w w' : World) :
  roundFrame uuidSource beamed u0 items w ->
  uuidCalls w' = uuidCalls w ->
  roundFrame uuidSource beamed u0 items w'.
Proof.
  intros (Hu & Hrest) Hw'. split; [rewrite Hw'; exact Hu | exact Hrest].
Qed.

Section GeneratorFrame.

Variable mathRandom : nat -> Q.
Variable uuidSource : nat -> string.
Hypothesis random_in_unit : unitRandom mathRandom.

Lemma singleBody_frame (settings : GameSettings) (min max : Z) (u0 : nat)
  (i : Z) (items : list ExerciseItem) (w : World) :
  0 <= min -> min + 11 <= max ->
  roundFrame uuidSource false u0 items w ->
  returns (singleBody mathRandom uuidSource settings min max i items) w
    (fun items' w' => roundFrame uuidSource false u0 items' w').
Proof.
  intros Hmin Hspan Hframe.
  destruct (getValidRandomMidi_valid mathRandom random_in_unit
              (validIn settings) min max w
              ltac:(lia) (valid_in_span settings min max Hmin Hspan))
    as (v & w1 & Hrun & Hr & Hv & Hu & _).
  destruct (midiToNote_returns v (keyRoot settings) (keyType settings)
              ltac:(lia)) as (n & Hn & _).
  unfold returns, singleBody, bind.
  change (isValidNote settings
            (getScalePitchClasses (keyRoot settings) (keyType settings)))
    with (validIn settings).
  rewrite Hrun. unfold uuidv4, throwIfUndefined. rewrite Hn.
  do 2 eexists. split; [reflexivity|].
  apply (roundFrame_push uuidSource false u0 items w1).
  - apply (roundFrame_world uuidSource false u0 items w); assumption.
  - reflexivity.
  - reflexivity.
  - split; reflexivity.
  - reflexivity.
Qed.

Lemma beamNoteBody_frame (settings : GameSettings) (min max g : Z)
  (u0 : nat) (i : Z) (items : list ExerciseItem) (w : World) :
  0 <= min -> min + 11 <= max ->
  roundFrame uuidSource true u0 items w ->
  returns (beamNoteBody mathRandom uuidSource settings min max g i items) w
    (fun items' w' => roundFrame uuidSource true u0 items' w').
Proof.
  intros Hmin Hspan Hframe.
  destruct (getValidRandomMidi_valid mathRandom random_in_unit
              (validIn settings) min max w
              ltac:(lia) (valid_in_span settings min max Hmin Hspan))
    as (v & w1 & Hrun & Hr & Hv & Hu & _).
  destruct (midiToNote_returns v (keyRoot settings) (keyType settings)
              ltac:(lia)) as (n & Hn & _).
  unfold returns, beamNoteBody, bind.
  change (isValidNote settings
            (getScalePitchClasses (keyRoot settings) (keyType settings)))
    with (validIn settings).
  rewrite Hrun. unfold uuidv4, throwIfUndefined. rewrite Hn.
  do 2 eexists. split; [reflexivity|].
  apply (roundFrame_push uuidSource true u0 items w1).
  - apply (roundFrame_world uuidSource true u0 items w); assumption.
  - reflexivity.
  - reflexivity.
  - split; [reflexivity | discriminate].
  - reflexivity.
Qed.

Lemma beamGroupBody_frame (settings : GameSettings) (min max : Z)
  (u0 : nat) (g : Z) (st : list ExerciseItem * Z) (w : World) :
  0 <= min -> min + 11 <= max ->
  roundFrame uuidSource true u0 (fst st) w ->
  returns (beamGroupBody mathRandom uuidSource settings min max g st) w
    (fun st' w' => roundFrame uuidSource true u0 (fst st') w').
Proof.
  intros Hmin Hspan Hframe. destruct st as (items, idx). cbn [fst] in *.
  unfold beamGroupBody. apply returns_bind.
  unfold getRandomInt, bind, Math_random, ret, returns at 1.
  do 2 eexists. split; [reflexivity|].
  apply returns_bind. unfold forLoop.
  eapply returns_weaken.
  - apply (returns_forUpTo_world
             (beamNoteBody mathRandom uuidSource settings min max idx)
             (fun _ items' w' => roundFrame uuidSource true u0 items' w')
             _ 0%nat).
    + intros k i' s' w' _ Hs'. apply beamNoteBody_frame; assumption.
    + apply (roundFrame_world uuidSource true u0 items w);
        [exact Hframe | reflexivity].
  - intros items' w' Hframe'. cbv beta in Hframe'.
    apply returns_ret. exact Hframe'.
Qed.

Lemma chordLoop_frame (settings : GameSettings) (min max : Z) (u0 : nat) :
  0 <= min -> min + 11 <= max - 11 ->
  forall (k : nat) (i : Z) (items : list ExerciseItem) (w : World),
    i = 6 - Z.of_nat k ->
    roundFrame uuidSource false u0 items w ->
    exists items' w',
      (forall fuel, (k <= fuel)%nat ->
         chordLoop mathRandom uuidSource settings min max fuel i items w
         = Returns items' w')
      /\ roundFrame uuidSource false u0 items' w'.
Proof.
  intros Hmin Hspan. induction k as [|k IH]; intros i items w Hi Hframe.
  - exists items, w. split; [|exact Hframe].
    intros fuel _. apply chordLoop_done. lia.
  - destruct (chordAttempt_spec mathRandom random_in_unit settings min max w
                Hmin Hspan)
      as (root & w1 & ns & w2 & _ & _ & _ & Hrun & Hu & _).
    set (it := mkItem (uuidSource (uuidCalls w2)) ns pending None None).
    destruct (IH (i + 1) (items ++ [it])
                 (mkWorld (randomCalls w2) (S (uuidCalls w2)))
                 ltac:(lia))
      as (items' & w' & Hloop & Hframe').
    { apply (roundFrame_push uuidSource false u0 items w2).
      - apply (roundFrame_world uuidSource false u0 items w); assumption.
      - reflexivity.
      - reflexivity.
      - split; reflexivity.
      - reflexivity. }
    exists items', w'. split; [|exact Hframe'].
    intros [|fuel] Hfuel; [lia|].
    rewrite chordLoop_unfold, Hrun.
    replace (i <? 6) with true by (symmetry; apply Z.ltb_lt; lia).
    fold it. apply Hloop. lia.
Qed.

Lemma generateExercise_frame (settings : GameSettings) (w : World) :
  exists items w',
    (forall fuel, (mode settings = chords -> (6 <= fuel)%nat) ->
       generateExercise mathRandom uuidSource fuel settings w
       = Returns items w')
    /\ roundFrame uuidSource (isBeams (mode settings)) (uuidCalls w) items w'.
Proof.
  destruct (clef_span (clef settings)) as (Hmin & Hspan).
  assert (Hstart : forall beamed w0, uuidCalls w0 = uuidCalls w ->
            roundFrame uuidSource beamed (uuidCalls w) [] w0).
  { intros beamed w0 H0. unfold roundFrame. cbn [List.length map seq].
    repeat split; try constructor. lia. }
  unfold generateExercise.
  change (match clef settings with
          | treble => TREBLE_MIN | bass => BASS_MIN end)
    with (clefMin (clef settings)).
  change (match clef settings with
          | treble => TREBLE_MAX | bass => BASS_MAX end)
    with (clefMax (clef settings)).
  destruct (mode settings); cbn [isBeams].
  - destruct (returns_forUpTo_world
                (singleBody mathRandom uuidSource settings
                   (clefMin (clef settings)) (clefMax (clef settings)))
                (fun _ items' w' =>
                   roundFrame uuidSource false (uuidCalls w) items' w')
                6 0%nat 0 [] w)
      as (items & w' & Hrun & Hframe).
    + intros k i' s' w' _ Hs'. apply singleBody_frame; [lia | lia | exact Hs'].
    + apply Hstart. reflexivity.
    + exists items, w'. split; [intros fuel _; exact Hrun | exact Hframe].
  - destruct (chordLoop_frame settings (clefMin (clef settings))
                (clefMax (clef settings)) (uuidCalls w) Hmin Hspan 6 0 [] w
                ltac:(reflexivity) (Hstart false w eq_refl))
      as (items & w' & Hrun & Hframe).
    exists items, w'. split; [|exact Hframe].
    intros fuel Hfuel. apply Hrun. apply Hfuel. reflexivity.
  - set (numGroups := getRandomIntOf (mathRandom (randomCalls w)) 3 4).
    destruct (returns_forUpTo_world
                (beamGroupBody mathRandom uuidSource settings
                   (clefMin (clef settings)) (clefMax (clef settings)))
                (fun _ st w' =>
                   roundFrame uuidSource true (uuidCalls w) (fst st) w')
                (Z.to_nat numGroups) 0%nat 0 ([], 0)
                (mkWorld (S (randomCalls w)) (uuidCalls w)))
      as ((items, idx) & w' & Hrun & Hframe).
    + intros k i' s' w' _ Hs'.
      apply beamGroupBody_frame; [lia | lia | exact Hs'].
    + apply Hstart. reflexivity.
    + exists items, w'. split; [|exact Hframe].
      intros fuel _. unfold getRandomInt, Math_random, forLoop.
      unfold bind, ret. fold numGroups. rewrite Hrun. reflexivity.
Qed.

End GeneratorFrame.

Lemma NoDup_map_injective {A B} (f : A -> B) (l : list A) :
  (forall x y, f x = f y -> x = y) -> NoDup l -> NoDup (map f l).
Proof.
  intros Hinj. induction 1 as [|x l Hx _ IH]; cbn; constructor; [|exact IH].
  rewrite in_map_iff. intros (y & E & Hy). apply Hinj in E. subst y.
  contradiction.
Qed.

(** X8. Bookkeeping of a round: every item gets the value of its own call
    of [uuidv4()], in order, so the ids of a round are pairwise distinct
    when [uuidv4()] never repeats a value; every item starts pending; the
    beam fields are set on every item in beam mode and on none in the
    other modes. *)
Theorem generated_items_frame (mathRandom : nat -> Q)
  (uuidSource : nat -> string) (settings : GameSettings) (w : World) :
  unitRandom mathRandom ->
  exists items w',
    (forall fuel, (mode settings = chords -> (6 <= fuel)%nat) ->
       generateExercise mathRandom uuidSource fuel settings w
       = Returns items w')
    /\ uuidCalls w' = (uuidCalls w + List.length items)%nat
    /\ map id items = map uuidSource (seq (uuidCalls w) (List.length items))
    /\ ((forall j k, uuidSource j = uuidSource k -> j = k) ->
        NoDup (map id items))
    /\ Forall (fun it => status it = pending) items
    /\ Forall (fun it =>
         if isBeams (mode settings)
         then isBeamGroup it = Some true /\ beamGroupIndex it <> None
         else isBeamGroup it = None /\ beamGroupIndex it = None) items.
Proof.
  intros Hrand.
  destruct (generateExercise_frame mathRandom uuidSource Hrand settings w)
    as (items & w' & Hrun & Hu & Hids & Hst & Hfl).
  exists items, w'. repeat split; try assumption.
  intros Hinj. rewrite Hids. apply NoDup_map_injective.
  - exact Hinj.
  - apply seq_NoDup.
Qed.

Lemma generated_items_frame_witness :
  exists items w',
    generateExercise sampleRandom sampleUuid 6
      (mkSettings treble false chords KE major) startWorld = Returns items w'
    /\ map id items = map sampleUuid (seq 0 (List.length items))
    /\ Forall (fun it => status it = pending) items.
Proof.
  destruct (generated_items_frame sampleRandom sampleUuid
              (mkSettings treble false chords KE major) startWorld
              sampleRandom_unit)
    as (items & w' & Hrun & _ & Hids & _ & Hst & _).
  exists items, w'.
  split; [apply Hrun; intros _; apply le_n|]. split; assumption.
Defined.

(* ===================================================================== *)
(** ** Manual beaming *)
(* ===================================================================== *)

Lemma beamStep_on {A} (items : list ExerciseItem) (it : ExerciseItem)
  (st : SheetMusic.BeamState A) (note : A) (index : nat) :
  nth_error items index = Some it ->
  SheetMusic.beamStep items st note index
  = Some (beamStepOn st note (beamGroupIndex it)).
Proof.
  intros H. unfold SheetMusic.beamStep, beamStepOn. rewrite H.
  destruct (beamGroupIndex it) as [g|].
  - destruct (SheetMusic.lastBeamIndex st) as [l|]; [|reflexivity].
    destruct (negb (g =? l)); reflexivity.
  - unfold SheetMusic.pushBeam.
    destruct (Nat.ltb 0 (List.length (SheetMusic.currentBeamGroup st))) eqn:E;
      [reflexivity|].
    destruct (SheetMusic.currentBeamGroup st);
      [reflexivity | discriminate E].
Qed.

(** With an item for every note the loop is the fold of its callback. *)
Lemma beamLoop_fold {A} (staveNotes : list A) :
  forall (pre items : list ExerciseItem) (st : SheetMusic.BeamState A),
    (List.length staveNotes <= List.length items)%nat ->
    SheetMusic.beamLoop (pre ++ items) st staveNotes (List.length pre)
    = Some (beamFold st (combine staveNotes (map beamGroupIndex items))).
Proof.
  induction staveNotes as [|note rest IH]; intros pre items st Hlen.
  - reflexivity.
  - destruct items as [|it items]; [cbn in Hlen; lia|].
    cbn [SheetMusic.beamLoop map combine beamFold].
    rewrite (beamStep_on (pre ++ it :: items) it).
    2:{ rewrite nth_error_app2, Nat.sub_diag by lia. reflexivity. }
    replace (pre ++ it :: items) with ((pre ++ [it]) ++ items)
      by (rewrite <- app_assoc; reflexivity).
    replace (S (List.length pre)) with (List.length (pre ++ [it]))
      by (rewrite length_app; cbn; lia).
    apply IH. cbn in Hlen. lia.
Qed.

(** With more notes than items the loop throws. *)
Lemma beamLoop_throws {A} (staveNotes : list A) :
  forall (pre items : list ExerciseItem) (st : SheetMusic.BeamState A),
    (List.length items < List.length staveNotes)%nat ->
    SheetMusic.beamLoop (pre ++ items) st staveNotes (List.length pre) = None.
Proof.
  induction staveNotes as [|note rest IH]; intros pre items st Hlen.
  - cbn in Hlen. lia.
  - destruct items as [|it items]; cbn [SheetMusic.beamLoop].
    + unfold SheetMusic.beamStep.
      replace (nth_error (pre ++ []) (List.length pre))
        with (@None ExerciseItem);
        [reflexivity|].
      symmetry. apply nth_error_None. rewrite app_nil_r. lia.
    + rewrite (beamStep_on (pre ++ it :: items) it).
      2:{ rewrite nth_error_app2, Nat.sub_diag by lia. reflexivity. }
      replace (pre ++ it :: items) with ((pre ++ [it]) ++ items)
        by (rewrite <- app_assoc; reflexivity).
      replace (S (List.length pre)) with (List.length (pre ++ [it]))
        by (rewrite length_app; cbn; lia).
      apply IH. cbn in Hlen. lia.
Qed.

Lemma pushBeam_concat {A} (bs : list (list A)) (c : list A) :
  List.concat (SheetMusic.pushBeam bs c) = List.concat bs ++ c.
Proof.
  unfold SheetMusic.pushBeam. destruct c as [|x c]; cbn.
  - rewrite app_nil_r. reflexivity.
  - rewrite concat_app. cbn. rewrite app_nil_r. reflexivity.
Qed.

Lemma pushBeam_nonempty {A} (bs : list (list A)) (c : list A) :
  Forall (fun b => b <> []) bs ->
  Forall (fun b => b <> []) (SheetMusic.pushBeam bs c).
Proof.
  intros H. unfold SheetMusic.pushBeam. destruct c as [|x c]; cbn.
  - exact H.
  - apply Forall_app. split; [exact H|].
    constructor; [discriminate | constructor].
Qed.

Lemma beamStepOn_keeps {A} (st : SheetMusic.BeamState A) (note : A)
  (index : option Z) :
  List.concat (closeBeams (beamStepOn st note index))
  = List.concat (closeBeams st)
    ++ match index with Some _ => [note] | None => [] end
  /\ (Forall (fun b => b <> []) (SheetMusic.beams st) ->
      Forall (fun b => b <> []) (SheetMusic.beams (beamStepOn st note index))).
Proof.
  unfold closeBeams, beamStepOn.
  destruct index as [g|];
    [destruct (SheetMusic.lastBeamIndex st) as [last|];
       [destruct (negb (g =? last))|]|];
    cbn [SheetMusic.beams SheetMusic.currentBeamGroup];
    rewrite ?pushBeam_concat, ?app_nil_r, <- ?app_assoc;
    (split; [reflexivity|]); intros Hst;
    try (apply pushBeam_nonempty); exact Hst.
Qed.

(** The fold keeps every beamed note, in order, and makes no empty
    beam. *)
Lemma beamFold_keeps {A} (l : list (A * option Z)) :
  forall st : SheetMusic.BeamState A,
    List.concat (closeBeams (beamFold st l))
    = List.concat (closeBeams st) ++ beamedNotes l
    /\ (Forall (fun b => b <> []) (SheetMusic.beams st) ->
        Forall (fun b => b <> []) (SheetMusic.beams (beamFold st l))).
Proof.
  induction l as [|(note, index) l IH]; intros st; cbn [beamFold].
  - split; [unfold beamedNotes; cbn; rewrite app_nil_r; reflexivity | auto].
  - destruct (IH (beamStepOn st note index)) as (Hcat & Hne).
    destruct (beamStepOn_keeps st note index) as (Hcat1 & Hne1).
    rewrite Hcat, Hcat1, <- app_assoc. split; [|auto].
    f_equal. unfold beamedNotes. cbn [filter snd].
    destruct index; reflexivity.
Qed.







Lemma manualBeams_fold {A} (items : list ExerciseItem) (staveNotes : list A) :
  (List.length staveNotes <= List.length items)%nat ->
  SheetMusic.manualBeams items staveNotes
  = Some (closeBeams
            (beamFold (SheetMusic.mkBeamState [] [] None)
                      (combine staveNotes (map beamGroupIndex items)))).
Proof.
  intros Hlen. unfold SheetMusic.manualBeams.
  rewrite (beamLoop_fold staveNotes [] items _ Hlen). reflexivity.
Qed.

(** X9. Manual beaming, for any items and stave notes: it throws exactly
    when there are more stave notes than items; otherwise no beam is
    empty and the beams, one after the other, are the notes of the items
    that carry a beam-group index, each once and in order. *)
Theorem manualBeams_partition (A : Type) (items : list ExerciseItem)
  (staveNotes : list A) :
  (SheetMusic.manualBeams items staveNotes = None
   <-> (List.length items < List.length staveNotes)%nat)
  /\ ((List.length staveNotes <= List.length items)%nat ->
      exists beams,
        SheetMusic.manualBeams items staveNotes = Some beams
        /\ Forall (fun beam => beam <> []) beams
        /\ List.concat beams
           = beamedNotes (combine staveNotes (map beamGroupIndex items))).
Proof.
  split.
  - split.
    + intros Hnone.
      destruct (Nat.lt_ge_cases (List.length items) (List.length staveNotes))
        as [Hlt | Hge]; [exact Hlt|].
      rewrite manualBeams_fold in Hnone by exact Hge. discriminate Hnone.
    + intros Hlt. unfold SheetMusic.manualBeams.
      rewrite (beamLoop_throws staveNotes [] items _ Hlt). reflexivity.
  - intros Hlen. rewrite manualBeams_fold by exact Hlen.
    eexists. split; [reflexivity|].
    destruct (beamFold_keeps (combine staveNotes (map beamGroupIndex items))
                (SheetMusic.mkBeamState [] [] None)) as (Hcat & Hne).
    split.
    + apply pushBeam_nonempty. apply Hne. constructor.
    + rewrite Hcat. reflexivity.
Qed.

Lemma manualBeams_partition_witness :
  exists beams,
    SheetMusic.manualBeams
      [mkItem "a" [] pending (Some true) (Some 0);
       mkItem "b" [] pending None None;
       mkItem "c" [] pending (Some true) (Some 0)] [10; 20; 30]
    = Some beams
    /\ List.concat beams = [10; 30].
Proof.
  destruct (manualBeams_partition Z
              [mkItem "a" [] pending (Some true) (Some 0);
               mkItem "b" [] pending None None;
               mkItem "c" [] pending (Some true) (Some 0)] [10; 20; 30])
    as (_ & Hsome).
  destruct (Hsome ltac:(cbn; lia)) as (beams & Hrun & _ & Hcat).
  exists beams. split; [exact Hrun | exact Hcat].
Defined.



(* ===================================================================== *)
(** ** The chord selection and its judgement *)
(* ===================================================================== *)

Lemma geb_false (a b : Z) : a < b -> (a >=? b) = false.
Proof. intros H. rewrite Z.geb_leb. apply Z.leb_gt. exact H. Qed.

Lemma geb_true (a b : Z) : b <= a -> (a >=? b) = true.
Proof. intros H. rewrite Z.geb_leb. apply Z.leb_le. exact H. Qed.

Lemma includesZ_In (l : list Z) (x : Z) : includesZ l x = true <-> In x l.
Proof.
  unfold includesZ. rewrite existsb_exists. split.
  - intros (y & Hy & E). apply Z.eqb_eq in E. subst y. exact Hy.
  - intros H. exists x. split; [exact H | apply Z.eqb_refl].
Qed.

Lemma toggleNote_spec (prev : list Z) (midi : Z) :
  (forall x, In x (App.toggleNote prev midi)
             <-> (x = midi /\ ~ In midi prev) \/ (x <> midi /\ In x prev))
  /\ (NoDup prev -> NoDup (App.toggleNote prev midi)).
Proof.
  unfold App.toggleNote. destruct (includesZ prev midi) eqn:E.
  - apply includesZ_In in E. split.
    + intros x. rewrite filter_In. cbv beta.
      rewrite negb_true_iff, Z.eqb_neq. split.
      * intros (Hin & Hne). right. split; assumption.
      * intros [(-> & Hn) | (Hne & Hin)]; [contradiction|].
        split; assumption.
    + apply NoDup_filter.
  - assert (Hnot : ~ In midi prev).
    { intros H. apply includesZ_In in H. congruence. }
    split.
    + intros x. rewrite in_app_iff. cbn [In].
      destruct (Z.eq_dec x midi) as [-> | Hne]; split.
      * intros _. left. split; [reflexivity | exact Hnot].
      * intros _. right. left. reflexivity.
      * intros [Hin | [E' | []]]; [right; split; assumption|].
        congruence.
      * intros [(E' & _) | (_ & Hin)]; [contradiction | left; exact Hin].
    + intros Hnd. apply NoDup_app; [exact Hnd | repeat constructor; auto |].
      intros x Hx [<- | []]. contradiction.
Qed.

(** X11. Pressing a key in chord mode toggles it in the selection: the
    pressed key changes sides, every other key stays where it was, the
    items and the cursor are untouched, nothing is requested from the
    outside, and a selection without repeats stays without repeats. *)
Theorem handlePianoInput_toggles (st : App.State) (midi : Z) :
  App.isPlaying st = true ->
  mode (App.settings st) = chords ->
  App.cursorIndex st < Z.of_nat (List.length (App.exerciseItems st)) ->
  exists st',
    App.handlePianoInput st midi = Some (st', [])
    /\ App.exerciseItems st' = App.exerciseItems st
    /\ App.cursorIndex st' = App.cursorIndex st
    /\ (forall x, In x (App.selectedChordNotes st')
                  <-> (x = midi /\ ~ In midi (App.selectedChordNotes st))
                      \/ (x <> midi /\ In x (App.selectedChordNotes st)))
    /\ (NoDup (App.selectedChordNotes st) ->
        NoDup (App.selectedChordNotes st')).
Proof.
  intros Hplay Hmode Hcursor. unfold App.handlePianoInput.
  rewrite Hplay, Hmode. cbn [negb].
  replace (App.cursorIndex st
           >=? Z.of_nat (List.length (App.exerciseItems st))) with false
    by (symmetry; apply geb_false; lia).
  eexists. split; [reflexivity|].
  cbn [App.exerciseItems App.cursorIndex App.selectedChordNotes].
  split; [reflexivity|]. split; [reflexivity|].
  apply toggleNote_spec.
Qed.

Lemma handlePianoInput_toggles_witness :
  exists st',
    App.handlePianoInput
      (App.mkState true (mkSettings treble false chords KC major)
         [mkItem "a" [] pending None None] 0 [60; 64] None) 60
    = Some (st', [])
    /\ App.selectedChordNotes st' = [64].
Proof.
  destruct (handlePianoInput_toggles
              (App.mkState true (mkSettings treble false chords KC major)
                 [mkItem "a" [] pending None None] 0 [60; 64] None) 60
              eq_refl eq_refl ltac:(cbn; lia))
    as (st' & Hrun & _).
  exists st'. split; [exact Hrun|].
  cbn in Hrun. injection Hrun as <-. reflexivity.
Defined.

(** *** The default sort is canonical *)

Lemma numberToString_injective (a b : Z) :
  numberToString a = numberToString b -> a = b.
Proof.
  unfold numberToString. intros H. apply DecimalZ.to_int_inj.
  assert (Hnn : forall z, Z.to_int z <> Decimal.Pos Decimal.Nil
                          /\ Z.to_int z <> Decimal.Neg Decimal.Nil).
  { intros [|p|p]; cbn; split; try discriminate;
      intros [= E]; exact (DecimalPos.Unsigned.to_uint_nonnil p E). }
  apply (f_equal NilZero.int_of_string) in H.
  rewrite !NilZero.isi in H by apply Hnn.
  injection H as H. exact H.
Qed.

Lemma string_compare_trans (a : string) :
  forall b c,
    String.compare a b <> Gt -> String.compare b c <> Gt ->
    String.compare a c <> Gt.
Proof.
  induction a as [|x a IH]; intros [|y b] [|z c]; cbn; try congruence.
  unfold Ascii.compare.
  destruct (N.compare_spec (Ascii.N_of_ascii x) (Ascii.N_of_ascii y)),
    (N.compare_spec (Ascii.N_of_ascii y) (Ascii.N_of_ascii z)),
    (N.compare_spec (Ascii.N_of_ascii x) (Ascii.N_of_ascii z));
    try lia; try congruence.
  apply IH.
Qed.

Lemma jsLeb_trans (a b c : Z) :
  jsLeb a b = true -> jsLeb b c = true -> jsLeb a c = true.
Proof.
  unfold jsLeb, String.leb. intros Hab Hbc.
  pose proof (string_compare_trans (numberToString a) (numberToString b)
                (numberToString c)) as H.
  destruct (String.compare (numberToString a) (numberToString b));
    destruct (String.compare (numberToString b) (numberToString c));
    destruct (String.compare (numberToString a) (numberToString c));
    try reflexivity; try discriminate;
    exfalso; apply H; congruence.
Qed.

Lemma jsLeb_total (a b : Z) : jsLeb a b = true \/ jsLeb b a = true.
Proof. apply String.leb_total. Qed.

Lemma jsLeb_antisym (a b : Z) :
  jsLeb a b = true -> jsLeb b a = true -> a = b.
Proof.
  intros Hab Hba. apply numberToString_injective.
  apply String.leb_antisym; assumption.
Qed.

Lemma insertBy_perm {A} (le : A -> A -> bool) (x : A) (l : list A) :
  Permutation (x :: l) (insertBy le x l).
Proof.
  induction l as [|y l IH]; cbn; [reflexivity|].
  destruct (le x y); [reflexivity|].
  rewrite perm_swap. constructor. exact IH.
Qed.

Lemma sortBy_perm {A} (le : A -> A -> bool) (l : list A) :
  Permutation l (sortBy le l).
Proof.
  induction l as [|x l IH]; [reflexivity|].
  change (sortBy le (x :: l)) with (insertBy le x (sortBy le l)).
  rewrite <- insertBy_perm. constructor. exact IH.
Qed.

Lemma jsDefaultSort_sorted (l : list Z) :
  StronglySorted (fun a b => jsLeb a b = true) (jsDefaultSort l).
Proof.
  unfold jsDefaultSort. fold jsLeb.
  induction l as [|x l IH]; [constructor|].
  change (sortBy jsLeb (x :: l)) with (insertBy jsLeb x (sortBy jsLeb l)).
  induction IH as [|y s Hs IHs Hall]; cbn [insertBy].
  - repeat constructor.
  - destruct (jsLeb x y) eqn:E.
    + constructor; [constructor; assumption|].
      constructor; [exact E|].
      eapply Forall_impl; [|exact Hall].
      intros b Hb. cbv beta in Hb. apply (jsLeb_trans x y b); assumption.
    + constructor; [exact IHs|].
      apply Forall_forall. intros b Hb. apply insertBy_In in Hb.
      destruct Hb as [-> | Hb].
      * destruct (jsLeb_total x y) as [H | H]; [congruence | exact H].
      * rewrite Forall_forall in Hall. apply Hall. exact Hb.
Qed.

Lemma sorted_perm_unique (l1 : list Z) :
  forall l2,
    StronglySorted (fun a b => jsLeb a b = true) l1 ->
    StronglySorted (fun a b => jsLeb a b = true) l2 ->
    Permutation l1 l2 -> l1 = l2.
Proof.
  induction l1 as [|x l1 IH]; intros l2 H1 H2 Hperm.
  - apply Permutation_nil in Hperm. congruence.
  - destruct l2 as [|y l2].
    + apply Permutation_sym, Permutation_nil in Hperm. discriminate.
    + inversion H1 as [|? ? Hs1 Hall1]; subst.
      inversion H2 as [|? ? Hs2 Hall2]; subst.
      assert (Hxy : x = y).
      { assert (Hx : In x (y :: l2))
          by (eapply Permutation_in; [exact Hperm | left; reflexivity]).
        assert (Hy : In y (x :: l1))
          by (eapply Permutation_in;
              [apply Permutation_sym; exact Hperm | left; reflexivity]).
        destruct Hx as [-> | Hx]; [reflexivity|].
        destruct Hy as [-> | Hy]; [reflexivity|].
        rewrite Forall_forall in Hall1, Hall2.
        apply jsLeb_antisym; [apply Hall1 | apply Hall2]; assumption. }
      subst y. f_equal. apply IH; [assumption | assumption |].
      eapply Permutation_cons_inv. exact Hperm.
Qed.

(** Two arrays sort alike exactly when one is the other in another
    order. *)
Lemma jsDefaultSort_canonical (l1 l2 : list Z) :
  jsDefaultSort l1 = jsDefaultSort l2 <-> Permutation l1 l2.
Proof.
  split.
  - intros H.
    rewrite (sortBy_perm (fun a b => String.leb (numberToString a)
                                                (numberToString b)) l1).
    rewrite (sortBy_perm (fun a b => String.leb (numberToString a)
                                                (numberToString b)) l2).
    unfold jsDefaultSort in H. rewrite H. reflexivity.
  - intros H. apply sorted_perm_unique; try apply jsDefaultSort_sorted.
    unfold jsDefaultSort.
    rewrite <- !sortBy_perm. exact H.
Qed.

(** *** [JSON.stringify] tells arrays of integers apart *)

Lemma string_of_uint_plain (d : Decimal.uint) (c : ascii) :
  c = ","%char \/ c = "]"%char ->
  strIncludes (NilEmpty.string_of_uint d) c = false.
Proof.
  intros Hc. induction d; cbn [NilEmpty.string_of_uint strIncludes];
    rewrite ?IHd; destruct Hc as [-> | ->]; reflexivity.
Qed.

Lemma numberToString_plain (z : Z) :
  plainText (numberToString z) /\ numberToString z <> "".
Proof.
  unfold plainText, numberToString, NilZero.string_of_int,
    NilZero.string_of_uint.
  destruct z as [|p|p]; cbn [Z.to_int].
  - repeat split; try reflexivity. discriminate.
  - pose proof (DecimalPos.Unsigned.to_uint_nonnil p) as Hnn.
    destruct (Pos.to_uint p) eqn:E; [contradiction | ..];
      rewrite <- E at 1 2;
      rewrite !string_of_uint_plain by auto;
      (repeat split; try reflexivity); discriminate.
  - pose proof (DecimalPos.Unsigned.to_uint_nonnil p) as Hnn.
    destruct (Pos.to_uint p) eqn:E; [contradiction | ..];
      rewrite <- E at 1 2; cbn [strIncludes];
      rewrite !string_of_uint_plain by auto;
      (repeat split; try reflexivity); discriminate.
Qed.

(** Two plain texts followed by a comma or a bracket: the texts and what
    follows them can be read back. *)
Lemma plain_prefix_unique (a : string) :
  forall (b : string) (c1 c2 : ascii) (t u : string),
    plainText a -> plainText b ->
    (c1 = ","%char \/ c1 = "]"%char) -> (c2 = ","%char \/ c2 = "]"%char) ->
    (a ++ String c1 t = b ++ String c2 u)%string ->
    a = b /\ c1 = c2 /\ t = u.
Proof.
  unfold plainText.
  induction a as [|x a IH]; intros [|y b] c1 c2 t u (Ha1 & Ha2) (Hb1 & Hb2)
    Hc1 Hc2 E; cbn [String.append] in E.
  - injection E as -> ->. auto.
  - injection E as -> _. cbn [strIncludes] in Hb1, Hb2.
    destruct Hc1 as [-> | ->]; [rewrite Ascii.eqb_refl in Hb1
                               | rewrite Ascii.eqb_refl in Hb2];
      discriminate.
  - injection E as -> _. cbn [strIncludes] in Ha1, Ha2.
    destruct Hc2 as [-> | ->]; [rewrite Ascii.eqb_refl in Ha1
                               | rewrite Ascii.eqb_refl in Ha2];
      discriminate.
  - injection E as -> E. cbn [strIncludes] in Ha1, Ha2, Hb1, Hb2.
    apply orb_false_iff in Ha1, Ha2, Hb1, Hb2.
    destruct (IH b c1 c2 t u) as (-> & -> & ->); auto; tauto.
Qed.

Lemma append_assoc (a b c : string) :
  ((a ++ b) ++ c = a ++ (b ++ c))%string.
Proof. induction a; cbn; [reflexivity | rewrite IHa; reflexivity]. Qed.

Lemma jsonTail_cons (z : Z) (l : list Z) :
  jsonTail (z :: l)
  = (numberToString z
     ++ match l with
        | [] => "]"
        | _ :: _ => String ","%char (jsonTail l)
        end)%string.
Proof.
  unfold jsonTail. destruct l as [|y l]; [reflexivity|].
  cbn [map String.concat]. rewrite append_assoc. reflexivity.
Qed.

Lemma jsonTail_injective (l1 : list Z) :
  forall l2, jsonTail l1 = jsonTail l2 -> l1 = l2.
Proof.
  induction l1 as [|x l1 IH]; intros [|y l2] E.
  - reflexivity.
  - rewrite jsonTail_cons in E. exfalso.
    destruct (numberToString_plain y) as (Hy & Hne).
    change (jsonTail []) with ("" ++ String "]"%char "")%string in E.
    destruct l2 as [|z l2];
      apply plain_prefix_unique in E; auto;
      try (split; reflexivity); destruct E as (E & _); auto.
  - rewrite jsonTail_cons in E. exfalso.
    destruct (numberToString_plain x) as (Hx & Hne).
    change (jsonTail []) with ("" ++ String "]"%char "")%string in E.
    destruct l1 as [|z l1];
      apply plain_prefix_unique in E; auto;
      try (split; reflexivity); destruct E as (E & _); auto.
  - rewrite !jsonTail_cons in E.
    destruct (numberToString_plain x) as (Hx & _).
    destruct (numberToString_plain y) as (Hy & _).
    destruct l1 as [|x' l1], l2 as [|y' l2];
      apply plain_prefix_unique in E; auto;
      destruct E as (Exy & Ec & Et);
      apply numberToString_injective in Exy; subst y;
      try discriminate Ec; [reflexivity|].
    f_equal. apply IH. exact Et.
Qed.

Lemma jsonStringify_injective (l1 l2 : list Z) :
  App.jsonStringify l1 = App.jsonStringify l2 -> l1 = l2.
Proof.
  unfold App.jsonStringify. cbn [String.append]. intros [= E].
  apply jsonTail_injective. exact E.
Qed.

(** The comparison of [submitChord] holds exactly when the selection is
    the pitches of the item in some order. *)
Lemma chordMatches_iff (currentItem : ExerciseItem) (selected : list Z) :
  App.chordMatches currentItem selected = true
  <-> Permutation (map midi (notes currentItem)) selected.
Proof.
  unfold App.chordMatches, targetMidis. rewrite String.eqb_eq.
  rewrite <- jsDefaultSort_canonical. split.
  - apply jsonStringify_injective.
  - intros ->. reflexivity.
Qed.

(** X12. [submitChord] accepts the selection exactly when the selected
    keys are the pitches of the current item, in whatever order they were
    selected: then it marks the item and sounds the chord, and otherwise
    it only shows the feedback. *)
Theorem submitChord_accepts_iff (st : App.State) (currentItem : ExerciseItem) :
  arrayGet (App.exerciseItems st) (App.cursorIndex st) = Some currentItem ->
  App.cursorIndex st < Z.of_nat (List.length (App.exerciseItems st)) ->
  (App.chordMatches currentItem (App.selectedChordNotes st) = true
   <-> Permutation (map midi (notes currentItem))
                   (App.selectedChordNotes st))
  /\ (Permutation (map midi (notes currentItem))
                  (App.selectedChordNotes st) ->
      App.submitChord st
      = Some (App.markCorrect st []
                [App.PlayChord (targetMidis currentItem) "2n"]))
  /\ (~ Permutation (map midi (notes currentItem))
                    (App.selectedChordNotes st) ->
      App.submitChord st
      = Some (App.showFeedback st "Incorrect chord notes.")).
Proof.
  intros Hitem Hcursor.
  split; [apply chordMatches_iff|].
  unfold App.submitChord. rewrite (geb_false _ _ Hcursor), Hitem.
  split; intros Hperm.
  - apply chordMatches_iff in Hperm. rewrite Hperm. reflexivity.
  - destruct (App.chordMatches currentItem (App.selectedChordNotes st))
      eqn:E; [|reflexivity].
    apply chordMatches_iff in E. contradiction.
Qed.

Lemma submitChord_accepts_iff_witness :
  App.submitChord
    (App.mkState true (mkSettings treble false chords KC major)
       [mkItem "a" [mkNote 60 "C" 4 None None; mkNote 100 "E" 7 None None]
               pending None None] 0 [100; 60] None)
  = Some (App.markCorrect
            (App.mkState true (mkSettings treble false chords KC major)
               [mkItem "a" [mkNote 60 "C" 4 None None;
                            mkNote 100 "E" 7 None None]
                       pending None None] 0 [100; 60] None)
            []
            [App.PlayChord [100; 60] "2n"]).
Proof.
  destruct (submitChord_accepts_iff
              (App.mkState true (mkSettings treble false chords KC major)
                 [mkItem "a" [mkNote 60 "C" 4 None None;
                              mkNote 100 "E" 7 None None]
                         pending None None] 0 [100; 60] None)
              (mkItem "a" [mkNote 60 "C" 4 None None;
                           mkNote 100 "E" 7 None None]
                      pending None None)
              eq_refl ltac:(cbn; lia))
    as (_ & Haccept & _).
  apply Haccept. cbn. apply perm_swap.
Defined.

(* ===================================================================== *)
(** ** The running game *)
(* ===================================================================== *)

Lemma setStatusAt_length (items : list ExerciseItem) (s : Status) :
  forall i, List.length (App.setStatusAt items i s) = List.length items.
Proof.
  induction items as [|it items IH]; intros [|i]; cbn; auto.
Qed.

Lemma setStatusAt_nth (items : list ExerciseItem) (s : Status) :
  forall i k,
    nth_error (App.setStatusAt items i s) k
    = if Nat.eqb k i
      then option_map (fun it => App.withStatus it s) (nth_error items k)
      else nth_error items k.
Proof.
  induction items as [|it items IH]; intros [|i] [|k]; cbn; auto.
  destruct (Nat.eqb k i); reflexivity.
Qed.

Lemma setStatusAt_notes (items : list ExerciseItem) (s : Status) :
  forall i,
    Forall (fun it => notes it <> []) items ->
    Forall (fun it => notes it <> []) (App.setStatusAt items i s).
Proof.
  induction items as [|it items IH]; intros [|i] H; cbn;
    inversion H; subst; constructor; auto.
Qed.

(** Marking the current item keeps the game in order. *)
Lemma markCorrect_ok (st : App.State) (selected : list Z)
  (effects : list App.Effect) :
  sessionOk st -> NoDup selected ->
  sessionOk (fst (App.markCorrect st selected effects))
  /\ App.settings (fst (App.markCorrect st selected effects))
     = App.settings st.
Proof.
  intros (Hplay & Hcur & Hnotes & Hstat & _) Hnd.
  unfold App.markCorrect.
  assert (Hitems : forall k it,
    nth_error (App.setStatusAt (App.exerciseItems st)
                 (Z.to_nat (App.cursorIndex st)) correct) k = Some it ->
    (Z.of_nat k <= App.cursorIndex st -> status it = correct)
    /\ (App.cursorIndex st < Z.of_nat k -> status it = pending)
    /\ status it <> incorrect).
  { intros k it. rewrite setStatusAt_nth.
    destruct (Nat.eqb_spec k (Z.to_nat (App.cursorIndex st))) as [-> | Hne].
    - destruct (nth_error (App.exerciseItems st)
                  (Z.to_nat (App.cursorIndex st))) as [it0|];
        [|discriminate].
      intros [= <-]. cbn. repeat split; [lia | discriminate].
    - intros Hk. destruct (Hstat k it Hk) as (Hbefore & Hafter & Hnot).
      repeat split; [|exact Hafter | exact Hnot].
      intros Hle. apply Hbefore. lia. }
  destruct (App.cursorIndex st + 1
            <? Z.of_nat (List.length (App.exerciseItems st))) eqn:E;
    cbn [fst App.isPlaying App.settings App.exerciseItems App.cursorIndex
         App.selectedChordNotes]; (split; [|reflexivity]);
    unfold sessionOk;
    cbn [App.isPlaying App.settings App.exerciseItems App.cursorIndex
         App.selectedChordNotes];
    rewrite setStatusAt_length.
  - apply Z.ltb_lt in E.
    split; [exact Hplay|]. split; [lia|].
    split; [apply setStatusAt_notes; exact Hnotes|]. split; [|exact Hnd].
    intros k it Hk. destruct (Hitems k it Hk) as (Hbefore & Hafter & Hnot).
    repeat split; [| |exact Hnot].
    + intros Hlt. apply Hbefore. lia.
    + intros Hlt. apply Hafter. lia.
  - split; [exact Hplay|]. split; [lia|].
    split; [apply setStatusAt_notes; exact Hnotes|]. split; [|exact Hnd].
    intros k it Hk. destruct (Hitems k it Hk) as (Hbefore & Hafter & Hnot).
    repeat split; [| exact Hafter |exact Hnot].
    intros Hlt. apply Hbefore. lia.
Qed.

Lemma showFeedback_ok (st : App.State) (message : string) :
  sessionOk st ->
  sessionOk (fst (App.showFeedback st message))
  /\ App.settings (fst (App.showFeedback st message)) = App.settings st.
Proof. intros H. split; [exact H | reflexivity]. Qed.

Lemma arrayGet_in_range {A} (l : list A) (i : Z) :
  0 <= i < Z.of_nat (List.length l) ->
  exists a, arrayGet l i = Some a /\ nth_error l (Z.to_nat i) = Some a.
Proof.
  intros H. unfold arrayGet.
  replace (i <? 0) with false by (symmetry; apply Z.ltb_ge; lia).
  destruct (nth_error l (Z.to_nat i)) as [a|] eqn:E.
  - exists a. split; reflexivity.
  - apply nth_error_None in E. lia.
Qed.

Lemma handlePianoInput_ok (st : App.State) (midi : Z) :
  sessionOk st ->
  exists st' effects,
    App.handlePianoInput st midi = Some (st', effects)
    /\ sessionOk st' /\ App.settings st' = App.settings st.
Proof.
  intros Hok. pose proof Hok as (Hplay & Hcur & Hnotes & Hstat & Hnd).
  unfold App.handlePianoInput. rewrite Hplay. cbn [negb].
  rewrite geb_false by lia.
  destruct (arrayGet_in_range (App.exerciseItems st) (App.cursorIndex st)
              Hcur) as (it & Hget & Hnth).
  rewrite Hget.
  assert (Hfirst : exists n, arrayGet (notes it) 0 = Some n).
  { rewrite Forall_forall in Hnotes.
    specialize (Hnotes it (nth_error_In _ _ Hnth)).
    destruct (notes it) as [|n ns]; [contradiction|].
    exists n. reflexivity. }
  destruct Hfirst as ([targetMidi ? ? ? ?] & Hfirst).
  assert (Hsingle :
    exists st' effects,
      (if midi =? targetMidi
       then Some (App.markCorrect st (App.selectedChordNotes st) [])
       else Some (App.showFeedback st "Try again!")) = Some (st', effects)
      /\ sessionOk st' /\ App.settings st' = App.settings st).
  { destruct (midi =? targetMidi).
    - destruct (markCorrect_ok st (App.selectedChordNotes st) [] Hok Hnd)
        as (H1 & H2).
      destruct (App.markCorrect st (App.selectedChordNotes st) [])
        as (st', effects).
      exists st', effects. auto.
    - destruct (showFeedback_ok st "Try again!" Hok) as (H1 & H2).
      destruct (App.showFeedback st "Try again!") as (st', effects).
      exists st', effects. auto. }
  destruct (mode (App.settings st)); cbv beta iota zeta;
    rewrite ?Hfirst; cbv beta iota; try exact Hsingle.
  do 2 eexists. split; [reflexivity|]. split; [|reflexivity].
  unfold sessionOk.
  cbn [App.isPlaying App.settings App.exerciseItems App.cursorIndex
       App.selectedChordNotes].
  split; [reflexivity|]. split; [exact Hcur|]. split; [exact Hnotes|].
  split; [exact Hstat|]. apply toggleNote_spec. exact Hnd.
Qed.

Lemma submitChord_ok (st : App.State) :
  sessionOk st ->
  exists st' effects,
    App.submitChord st = Some (st', effects)
    /\ sessionOk st' /\ App.settings st' = App.settings st.
Proof.
  intros Hok. pose proof Hok as (Hplay & Hcur & Hnotes & Hstat & Hnd).
  unfold App.submitChord. rewrite geb_false by lia.
  destruct (arrayGet_in_range (App.exerciseItems st) (App.cursorIndex st)
              Hcur) as (it & Hget & _).
  rewrite Hget.
  destruct (App.chordMatches it (App.selectedChordNotes st)).
  - destruct (markCorrect_ok st []
                [App.PlayChord (targetMidis it) "2n"] Hok (NoDup_nil Z))
      as (H1 & H2).
    destruct (App.markCorrect st [] [App.PlayChord (targetMidis it) "2n"])
      as (st', effects).
    exists st', effects. auto.
  - destruct (showFeedback_ok st "Incorrect chord notes." Hok) as (H1 & H2).
    destruct (App.showFeedback st "Incorrect chord notes.")
      as (st', effects).
    exists st', effects. auto.
Qed.

(** A generated round can be played: it has an item, every item has a
    first note, and every item is pending. *)
Lemma round_ready (settings : GameSettings) (items : list ExerciseItem) :
  roundOk settings items ->
  items <> []
  /\ Forall (fun it => notes it <> []) items
  /\ Forall (fun it => status it = pending) items.
Proof.
  unfold roundOk. destruct (mode settings).
  - intros (Hlen & Hok). split; [intros ->; discriminate Hlen|].
    split; (eapply Forall_impl; [|exact Hok]).
    + intros it (n & -> & _). discriminate.
    + intros it (n & _ & _ & _ & _ & Hst & _). exact Hst.
  - intros (Hlen & Hok). split; [intros ->; discriminate Hlen|].
    split; (eapply Forall_impl; [|exact Hok]).
    + intros it Hit. destruct (clef_span (clef settings)) as (Hmin & _).
      destruct (chordItem_pitches settings _ _ it Hmin Hit)
        as (_ & _ & Hcount & _).
      intros E. rewrite E in Hcount. cbn in Hcount. lia.
    + intros it (? & ? & ? & ? & _ & _ & _ & _ & Hst). exact Hst.
  - intros (k & Hk & _ & sizes & Hlen & Hsizes & Hmap & Hok).
    cbn [fst] in Hmap, Hok. split; [|split].
    + intros ->. destruct sizes as [|size sizes]; [cbn in Hlen; lia|].
      inversion Hsizes as [|? ? Hsize _]; subst.
      cbn [map beamIndices] in Hmap.
      apply (f_equal (@List.length _)) in Hmap.
      rewrite length_app, repeat_length in Hmap. cbn in Hmap. lia.
    + eapply Forall_impl; [|exact Hok].
      intros it (g & n & -> & _). discriminate.
    + eapply Forall_impl; [|exact Hok].
      intros it (g & n & _ & _ & _ & _ & Hst & _). exact Hst.
Qed.

Lemma fresh_round_ok (settings : GameSettings) (items : list ExerciseItem) :
  roundOk settings items ->
  sessionOk (App.mkState true settings items 0 [] None).
Proof.
  intros Hok. destruct (round_ready settings items Hok)
    as (Hne & Hnotes & Hpending).
  unfold sessionOk.
  cbn [App.isPlaying App.settings App.exerciseItems App.cursorIndex
       App.selectedChordNotes].
  split; [reflexivity|]. split.
  - destruct items; [contradiction | cbn; lia].
  - split; [exact Hnotes|]. split; [|constructor].
    intros k it Hk. rewrite Forall_forall in Hpending.
    specialize (Hpending it (nth_error_In _ _ Hk)).
    repeat split; [lia | auto | congruence].
Qed.

Section RunningGame.

Variable mathRandom : nat -> Q.
Variable uuidSource : nat -> string.
Hypothesis random_in_unit : unitRandom mathRandom.

Lemma nextTurn_ok (st : App.State) (w : World) :
  App.isPlaying st = true ->
  returns (App.nextTurn mathRandom uuidSource 6 st) w
    (fun st' _ => sessionOk st' /\ App.settings st' = App.settings st).
Proof.
  intros Hplay. unfold App.nextTurn. apply returns_bind.
  destruct (generateExercise_spec mathRandom uuidSource random_in_unit
              (App.settings st) w) as (items & w' & Hrun & Hok).
  exists items, w'. split; [apply Hrun; intros _; apply le_n|].
  apply returns_ret. rewrite Hplay.
  split; [apply fresh_round_ok; exact Hok | reflexivity].
Qed.

Lemma dispatch_ok (e : Event) (st : App.State) (w : World) :
  sessionOk st ->
  returns (dispatch mathRandom uuidSource e st) w
    (fun st' _ => sessionOk st' /\ App.settings st' = App.settings st).
Proof.
  intros Hok. destruct e as [midi | | |]; cbn [dispatch].
  - destruct (handlePianoInput_ok st midi Hok)
      as (st' & effects & Hrun & Hok' & Hset).
    apply returns_bind. rewrite Hrun.
    eapply returns_throwIfUndefined; [reflexivity|].
    apply returns_ret. cbn [fst]. auto.
  - destruct (submitChord_ok st Hok) as (st' & effects & Hrun & Hok' & Hset).
    apply returns_bind. rewrite Hrun.
    eapply returns_throwIfUndefined; [reflexivity|].
    apply returns_ret. cbn [fst]. auto.
  - apply nextTurn_ok. apply Hok.
  - apply returns_ret. split; [exact Hok | reflexivity].
Qed.

Lemma runEvents_ok (events : list Event) :
  forall (st : App.State) (w : World),
    sessionOk st ->
    returns (runEvents mathRandom uuidSource events st) w
      (fun st' _ => sessionOk st' /\ App.settings st' = App.settings st).
Proof.
  induction events as [|e events IH]; intros st w Hok; cbn [runEvents].
  - apply returns_ret. auto.
  - apply returns_bind.
    eapply returns_weaken; [apply dispatch_ok; exact Hok|].
    intros st' w' (Hok' & Hset). cbv beta.
    eapply returns_weaken; [apply IH; exact Hok'|].
    intros st'' w'' (Hok'' & Hset'). cbv beta. split; [exact Hok''|].
    congruence.
Qed.

End RunningGame.

(** X13. A started game stays in order whatever happens next: after
    [startGame] and any sequence of key presses, chord submissions and
    timer callbacks, no handler has thrown, the cursor points at an item
    of the current round, the items before the cursor are correct and the
    items after it pending, no item is ever marked incorrect, no key is
    selected twice, and the settings are those the game started with. *)
Theorem running_game_stays_in_order (mathRandom : nat -> Q)
  (uuidSource : nat -> string) (st0 : App.State) (events : list Event)
  (w : World) :
  unitRandom mathRandom ->
  exists st w',
    bind (App.startGame mathRandom uuidSource 6 st0)
         (runEvents mathRandom uuidSource events) w
    = Returns st w'
    /\ sessionOk st
    /\ App.settings st = App.settings st0.
Proof.
  intros Hrand.
  destruct (generateExercise_spec mathRandom uuidSource Hrand
              (App.settings st0) w) as (items & w1 & Hrun & Hok).
  destruct (runEvents_ok mathRandom uuidSource Hrand events
              (App.mkState true (App.settings st0) items 0 [] None) w1
              (fresh_round_ok _ _ Hok))
    as (st & w' & Hevents & Hst & Hset).
  exists st, w'. split; [|split; [exact Hst | exact Hset]].
  unfold bind, App.startGame, bind, ret.
  rewrite (Hrun 6%nat ltac:(intros _; apply le_n)). exact Hevents.
Qed.

Lemma running_game_stays_in_order_witness :
  exists st w',
    bind (App.startGame sampleRandom sampleUuid 6
            (App.mkState false (mkSettings treble false chords KD major)
                         [] 0 [] None))
         (runEvents sampleRandom sampleUuid
            [PressKey 62; PressKey 55; PressKey 59; PressSubmit;
             PressKey 40; PressSubmit; TimerClearFeedback; TimerNextTurn])
         startWorld
    = Returns st w'
    /\ sessionOk st.
Proof.
  destruct (running_game_stays_in_order sampleRandom sampleUuid
              (App.mkState false (mkSettings treble false chords KD major)
                           [] 0 [] None)
              [PressKey 62; PressKey 55; PressKey 59; PressSubmit;
               PressKey 40; PressSubmit; TimerClearFeedback; TimerNextTurn]
              startWorld sampleRandom_unit)
    as (st & w' & Hrun & Hok & _).
  exists st, w'. split; [exact Hrun | exact Hok].
Defined.

(* ===================================================================== *)
(** ** The key decides the spelling only *)
(* ===================================================================== *)

Lemma alike_ret {A B} (R : A -> B -> Prop) (a : A) (b : B) :
  R a b -> alike R (ret a) (ret b).
Proof. intros H w. cbn. auto. Qed.

Lemma alike_same {A} (c1 c2 : M A) :
  (forall w, c1 w = c2 w) -> alike eq c1 c2.
Proof.
  intros H w. rewrite H. destruct (c2 w); auto.
Qed.

Lemma alike_bind {A1 A2 B1 B2} (R : A1 -> A2 -> Prop) (S : B1 -> B2 -> Prop)
  (c1 : M A1) (c2 : M A2) (k1 : A1 -> M B1) (k2 : A2 -> M B2) :
  alike R c1 c2 ->
  (forall a1 a2, R a1 a2 -> alike S (k1 a1) (k2 a2)) ->
  alike S (bind c1 k1) (bind c2 k2).
Proof.
  intros Hc Hk w. unfold bind. specialize (Hc w).
  destruct (c1 w) as [a1 w1| |], (c2 w) as [a2 w2| |]; try contradiction;
    auto.
  destruct Hc as (HR & ->). apply Hk. exact HR.
Qed.

Lemma alike_forUpTo {S1 S2} (R : S1 -> S2 -> Prop)
  (body1 : Z -> S1 -> M S1) (body2 : Z -> S2 -> M S2) (count : nat) :
  (forall i s1 s2, R s1 s2 -> alike R (body1 i s1) (body2 i s2)) ->
  forall i s1 s2,
    R s1 s2 -> alike R (forUpTo count i body1 s1) (forUpTo count i body2 s2).
Proof.
  intros Hbody. induction count as [|count IH]; intros i s1 s2 HR;
    cbn [forUpTo].
  - apply alike_ret. exact HR.
  - eapply alike_bind; [apply Hbody; exact HR|].
    intros a1 a2 Ha. apply IH. exact Ha.
Qed.

Lemma randomAttempts_ext (mathRandom : nat -> Q) (f g : Z -> bool)
  (min max : Z) (left : nat) :
  (forall m, f m = g m) ->
  forall w, randomAttempts mathRandom f min max left w
            = randomAttempts mathRandom g min max left w.
Proof.
  intros Hfg. induction left as [|left IH]; intros w; [reflexivity|].
  cbn [randomAttempts]. unfold getRandomInt, Math_random.
  unfold bind, ret. cbv beta iota.
  rewrite Hfg. destruct (g _); [reflexivity | apply IH].
Qed.

Lemma scanRange_ext (f g : Z -> bool) (count : nat) :
  (forall m, f m = g m) ->
  forall i, scanRange f i count = scanRange g i count.
Proof.
  intros Hfg. induction count as [|count IH]; intros i; [reflexivity|].
  cbn [scanRange]. rewrite Hfg, IH. reflexivity.
Qed.

Lemma getValidRandomMidi_ext (mathRandom : nat -> Q) (f g : Z -> bool)
  (min max : Z) :
  (forall m, f m = g m) ->
  forall w, getValidRandomMidi mathRandom f min max w
            = getValidRandomMidi mathRandom g min max w.
Proof.
  intros Hfg w. unfold getValidRandomMidi, bind.
  rewrite (randomAttempts_ext mathRandom f g min max 100 Hfg).
  rewrite (scanRange_ext f g _ Hfg). reflexivity.
Qed.

(** Whether [midiToNote] throws, and the pitch, octave and duration of
    the note it returns, do not depend on the key. *)
Lemma midiToNote_alike (m : Z) (r1 r2 : KeyRoot) (t1 t2 : KeyType) :
  match midiToNote m r1 t1, midiToNote m r2 t2 with
  | Some n1, Some n2 => sameNote n1 n2
  | None, None => True
  | _, _ => False
  end.
Proof.
  pose proof (midiToNote_throws_iff m r1 t1) as H1.
  pose proof (midiToNote_throws_iff m r2 t2) as H2.
  pose proof (midiToNote_by_class m r1 t1) as E1.
  pose proof (midiToNote_by_class m r2 t2) as E2.
  destruct (midiToNote m r1 t1) as [n1|], (midiToNote m r2 t2) as [n2|].
  - destruct (midiToNote (jsmod m 12) r1 t1); [|discriminate].
    destruct (midiToNote (jsmod m 12) r2 t2); [|discriminate].
    injection E1 as ->. injection E2 as ->. repeat split.
  - destruct H2 as (H2 & _). specialize (H2 eq_refl).
    apply H1 in H2. discriminate.
  - destruct H1 as (H1 & _). specialize (H1 eq_refl).
    apply H2 in H1. discriminate.
  - exact I.
Qed.

Lemma mapThrow_alike (r1 r2 : KeyRoot) (t1 t2 : KeyType) (ms : list Z) :
  alike (Forall2 sameNote)
    (mapThrow (fun m => midiToNote m r1 t1) ms)
    (mapThrow (fun m => midiToNote m r2 t2) ms).
Proof.
  induction ms as [|m ms IH]; cbn [mapThrow].
  - apply alike_ret. constructor.
  - eapply (alike_bind sameNote).
    + intros w. unfold throwIfUndefined.
      pose proof (midiToNote_alike m r1 r2 t1 t2) as H.
      destruct (midiToNote m r1 t1), (midiToNote m r2 t2); auto.
    + intros n1 n2 Hn. eapply alike_bind; [exact IH|].
      intros ns1 ns2 Hns. apply alike_ret. constructor; assumption.
Qed.

Lemma existsb_pointwise {A} (f g : A -> bool) (l : list A) :
  (forall a, f a = g a) -> existsb f l = existsb g l.
Proof.
  intros H. induction l as [|a l IH]; [reflexivity|].
  cbn. rewrite H, IH. reflexivity.
Qed.

Section SameScale.

Variable mathRandom : nat -> Q.
Variable uuidSource : nat -> string.
Variables s1 s2 : GameSettings.
Hypothesis same_clef : clef s1 = clef s2.
Hypothesis same_accidentals : useAccidentals s1 = useAccidentals s2.
Hypothesis same_mode : mode s1 = mode s2.
Hypothesis same_scale :
  useAccidentals s1 = false ->
  sameScale (keyRoot s1) (keyType s1) (keyRoot s2) (keyType s2).

Lemma validIn_same (m : Z) : validIn s1 m = validIn s2 m.
Proof.
  unfold validIn, isValidNote. rewrite <- same_accidentals.
  destruct (useAccidentals s1) eqn:Hacc; cbn [negb]; [reflexivity|].
  apply same_scale. reflexivity.
Qed.

Lemma midiToNote_note_alike (m1 m2 : Z) :
  m1 = m2 ->
  alike sameNote
    (throwIfUndefined (midiToNote m1 (keyRoot s1) (keyType s1)))
    (throwIfUndefined (midiToNote m2 (keyRoot s2) (keyType s2))).
Proof.
  intros <- w. unfold throwIfUndefined.
  pose proof (midiToNote_alike m1 (keyRoot s1) (keyRoot s2)
                (keyType s1) (keyType s2)) as H.
  destruct (midiToNote m1 (keyRoot s1) (keyType s1)),
    (midiToNote m1 (keyRoot s2) (keyType s2)); auto.
Qed.

Lemma getValidRandomMidi_alike (min max : Z) :
  alike eq
    (getValidRandomMidi mathRandom
       (isValidNote s1 (getScalePitchClasses (keyRoot s1) (keyType s1)))
       min max)
    (getValidRandomMidi mathRandom
       (isValidNote s2 (getScalePitchClasses (keyRoot s2) (keyType s2)))
       min max).
Proof.
  apply alike_same. apply getValidRandomMidi_ext. exact validIn_same.
Qed.

Lemma singleBody_alike (min max i : Z) (items1 items2 : list ExerciseItem) :
  Forall2 sameItem items1 items2 ->
  alike (Forall2 sameItem)
    (singleBody mathRandom uuidSource s1 min max i items1)
    (singleBody mathRandom uuidSource s2 min max i items2).
Proof.
  intros Hitems. unfold singleBody.
  eapply alike_bind; [apply getValidRandomMidi_alike|].
  intros m1 m2 Hm. eapply alike_bind; [apply alike_same; reflexivity|].
  intros u1 u2 <-. eapply alike_bind; [apply midiToNote_note_alike; exact Hm|].
  intros n1 n2 Hn. apply alike_ret. apply Forall2_app; [exact Hitems|].
  constructor; [|constructor].
  repeat split; cbn; auto.
Qed.

Lemma beamNoteBody_alike (min max g i : Z)
  (items1 items2 : list ExerciseItem) :
  Forall2 sameItem items1 items2 ->
  alike (Forall2 sameItem)
    (beamNoteBody mathRandom uuidSource s1 min max g i items1)
    (beamNoteBody mathRandom uuidSource s2 min max g i items2).
Proof.
  intros Hitems. unfold beamNoteBody.
  eapply alike_bind; [apply getValidRandomMidi_alike|].
  intros m1 m2 Hm.
  eapply alike_bind; [apply midiToNote_note_alike; exact Hm|].
  intros n1 n2 (Hmidi & Hoct & _).
  eapply alike_bind; [apply alike_same; reflexivity|].
  intros u1 u2 <-. apply alike_ret. apply Forall2_app; [exact Hitems|].
  constructor; [|constructor].
  split; [reflexivity|]. split; [|repeat split].
  constructor; [|constructor]. unfold sameNote, withDuration. cbn. auto.
Qed.

Lemma beamGroupBody_alike (min max g : Z)
  (st1 st2 : list ExerciseItem * Z) :
  Forall2 sameItem (fst st1) (fst st2) /\ snd st1 = snd st2 ->
  alike (fun a b => Forall2 sameItem (fst a) (fst b) /\ snd a = snd b)
    (beamGroupBody mathRandom uuidSource s1 min max g st1)
    (beamGroupBody mathRandom uuidSource s2 min max g st2).
Proof.
  destruct st1 as (items1, idx1), st2 as (items2, idx2).
  cbn [fst snd]. intros (Hitems & <-). unfold beamGroupBody.
  eapply alike_bind; [apply alike_same; reflexivity|].
  intros size1 size2 <-.
  eapply alike_bind.
  - unfold forLoop. apply alike_forUpTo; [|exact Hitems].
    intros i a b Hab. apply beamNoteBody_alike. exact Hab.
  - intros a b Hab. apply alike_ret. cbn [fst snd]. auto.
Qed.

Lemma strictChordMidis_same (root : Z) (seventh : bool) :
  useAccidentals s1 = false ->
  strictChordMidis (getScalePitchClasses (keyRoot s1) (keyType s1))
                   root seventh
  = strictChordMidis (getScalePitchClasses (keyRoot s2) (keyType s2))
                     root seventh.
Proof.
  intros Hacc. unfold strictChordMidis.
  rewrite !(same_scale Hacc). reflexivity.
Qed.

Lemma chordAttempt_alike (min max : Z) :
  alike sameAttempt
    (chordAttempt mathRandom s1 min max)
    (chordAttempt mathRandom s2 min max).
Proof.
  unfold chordAttempt.
  eapply alike_bind; [apply getValidRandomMidi_alike|].
  intros root ? <-. eapply alike_bind; [apply alike_same; reflexivity|].
  intros r ? <-. rewrite <- same_accidentals.
  eapply (alike_bind eq).
  { pose proof (strictChordMidis_same root (Qgtb r (7 # 10))) as Hstrict.
    destruct (useAccidentals s1); cbn [negb]; apply alike_same;
      intros w; [reflexivity|].
    rewrite (Hstrict eq_refl). reflexivity. }
  intros built ? <-. destruct built as [chordMidis|];
    [|apply alike_ret; exact I].
  replace (existsb
             (fun m => negb (isValidNote s2
                (getScalePitchClasses (keyRoot s2) (keyType s2)) m))
             chordMidis)
    with (existsb
            (fun m => negb (isValidNote s1
               (getScalePitchClasses (keyRoot s1) (keyType s1)) m))
            chordMidis).
  2:{ apply existsb_pointwise. intros m. f_equal. apply validIn_same. }
  destruct (negb (useAccidentals s1) && existsb _ chordMidis);
    [apply alike_ret; exact I|].
  eapply alike_bind; [apply mapThrow_alike|].
  intros ns1 ns2 Hns. apply alike_ret. exact Hns.
Qed.

Lemma chordLoop_alike (min max : Z) (fuel : nat) :
  forall (i : Z) (items1 items2 : list ExerciseItem),
    Forall2 sameItem items1 items2 ->
    alike (Forall2 sameItem)
      (chordLoop mathRandom uuidSource s1 min max fuel i items1)
      (chordLoop mathRandom uuidSource s2 min max fuel i items2).
Proof.
  induction fuel as [|fuel IH]; intros i items1 items2 Hitems;
    cbn [chordLoop]; destruct (i <? 6).
  - intros w. exact I.
  - apply alike_ret. exact Hitems.
  - eapply alike_bind; [apply chordAttempt_alike|].
    intros [|ns1] [|ns2] Ha; try contradiction.
    + apply IH. exact Hitems.
    + eapply alike_bind; [apply alike_same; reflexivity|].
      intros u1 u2 <-. apply IH. apply Forall2_app; [exact Hitems|].
      constructor; [|constructor]. repeat split; cbn; auto.
  - apply alike_ret. exact Hitems.
Qed.

Lemma generateExercise_alike (fuel : nat) :
  alike (Forall2 sameItem)
    (generateExercise mathRandom uuidSource fuel s1)
    (generateExercise mathRandom uuidSource fuel s2).
Proof.
  unfold generateExercise. rewrite <- same_clef, <- same_mode.
  destruct (mode s1).
  - unfold forLoop. apply alike_forUpTo; [|constructor].
    intros i a b Hab. apply singleBody_alike. exact Hab.
  - apply chordLoop_alike. constructor.
  - eapply alike_bind; [apply alike_same; reflexivity|].
    intros numGroups ? <-.
    eapply alike_bind.
    + unfold forLoop.
      apply (alike_forUpTo
               (fun a b => Forall2 sameItem (fst a) (fst b)
                           /\ snd a = snd b)).
      * intros i a b Hab. apply beamGroupBody_alike. exact Hab.
      * cbn [fst snd]. split; [constructor | reflexivity].
    + intros a b (Hab & _). apply alike_ret. exact Hab.
Qed.

End SameScale.

(** X14. The key decides the spelling only: two settings that agree on
    clef, accidentals flag and mode, and, when accidentals are off, on
    which pitch classes are in the scale, give for the same random draws
    and uuids rounds with the same ids, pitches, octaves, durations,
    statuses and beam fields, item by item, leaving the same world; and
    if one run throws or is cut off so does the other. *)
Theorem key_decides_spelling_only (mathRandom : nat -> Q)
  (uuidSource : nat -> string) (s1 s2 : GameSettings) (fuel : nat) :
  clef s1 = clef s2 ->
  useAccidentals s1 = useAccidentals s2 ->
  mode s1 = mode s2 ->
  (useAccidentals s1 = false ->
   sameScale (keyRoot s1) (keyType s1) (keyRoot s2) (keyType s2)) ->
  alike (Forall2 sameItem)
    (generateExercise mathRandom uuidSource fuel s1)
    (generateExercise mathRandom uuidSource fuel s2).
Proof.
  intros Hclef Hacc Hmode Hscale.
  apply generateExercise_alike; assumption.
Qed.

Lemma key_decides_spelling_only_witness :
  alike (Forall2 sameItem)
    (generateExercise sampleRandom sampleUuid 6
       (mkSettings treble false chords KFs major))
    (generateExercise sampleRandom sampleUuid 6
       (mkSettings treble false chords KGb major)).
Proof.
  apply (key_decides_spelling_only sampleRandom sampleUuid
           (mkSettings treble false chords KFs major)
           (mkSettings treble false chords KGb major) 6);
    try reflexivity.
  intros _ pc. reflexivity.
Defined.




(* ===================================================================== *)
(** ** Playing a round through *)
(* ===================================================================== *)

Lemma skipn_nth {A} (l : list A) :
  forall c a, nth_error l c = Some a -> skipn c l = a :: skipn (S c) l.
Proof.
  induction l as [|x l IH]; intros [|c] a H; try discriminate H.
  - injection H as ->. reflexivity.
  - cbn [skipn]. apply IH. exact H.
Qed.

Lemma setStatusAt_split (items : list ExerciseItem) (s : Status) :
  forall c it,
    nth_error items c = Some it ->
    App.setStatusAt items c s
    = firstn c items ++ App.withStatus it s :: skipn (S c) items.
Proof.
  induction items as [|x items IH]; intros [|c] it H; try discriminate H.
  - injection H as ->. reflexivity.
  - cbn [App.setStatusAt firstn skipn app]. f_equal. apply IH. exact H.
Qed.

Lemma pressKeys_completes (n : nat) :
  forall st : App.State,
    App.isPlaying st = true ->
    mode (App.settings st) <> chords ->
    Forall (fun it => notes it <> []) (App.exerciseItems st) ->
    0 <= App.cursorIndex st ->
    Z.of_nat (List.length (App.exerciseItems st)) - App.cursorIndex st
    = Z.of_nat (S n) ->
    exists st',
      pressKeys st
        (firstPitches (skipn (Z.to_nat (App.cursorIndex st))
                             (App.exerciseItems st)))
      = Some (st', [App.SetTimeout App.NextTurn 500])
      /\ App.exerciseItems st'
         = firstn (Z.to_nat (App.cursorIndex st)) (App.exerciseItems st)
           ++ map (fun it => App.withStatus it correct)
                  (skipn (Z.to_nat (App.cursorIndex st))
                         (App.exerciseItems st))
      /\ App.cursorIndex st'
         = Z.of_nat (List.length (App.exerciseItems st)) - 1
      /\ App.selectedChordNotes st' = App.selectedChordNotes st.
Proof.
  induction n as [|n IH]; intros st Hplay Hmode Hnotes Hc Hleft.
  all: destruct (arrayGet_in_range (App.exerciseItems st)
                   (App.cursorIndex st) ltac:(lia)) as (it & Hget & Hnth).
  all: assert (Hit : exists first rest, notes it = first :: rest)
    by (rewrite Forall_forall in Hnotes;
        specialize (Hnotes it (nth_error_In _ _ Hnth));
        destruct (notes it) as [|first rest];
        [contradiction | exists first, rest; reflexivity]).
  all: destruct Hit as ([targetMidi ? ? ? ?] & rest & Hit).
  all: rewrite (skipn_nth _ _ _ Hnth).
  all: unfold firstPitches; cbn [map]; fold (firstPitches
         (skipn (S (Z.to_nat (App.cursorIndex st))) (App.exerciseItems st))).
  all: rewrite Hit; cbn [midi pressKeys].
  all: assert (Hpress : App.handlePianoInput st targetMidi
                        = Some (App.markCorrect st
                                  (App.selectedChordNotes st) [])).
  1,3: unfold App.handlePianoInput; rewrite Hplay; cbn [negb];
    rewrite geb_false by lia; cbv zeta; rewrite Hget;
    destruct (mode (App.settings st)); try contradiction;
    cbv beta iota; rewrite Hit; unfold arrayGet; cbn;
    rewrite Z.eqb_refl; reflexivity.
  all: rewrite Hpress; unfold App.markCorrect.
  - replace (App.cursorIndex st + 1
             <? Z.of_nat (List.length (App.exerciseItems st))) with false
      by (symmetry; apply Z.ltb_ge; lia).
    assert (Hend : skipn (S (Z.to_nat (App.cursorIndex st)))
                         (App.exerciseItems st) = []).
    { apply skipn_all2. lia. }
    rewrite Hend. cbn [firstPitches map pressKeys app].
    eexists. split; [reflexivity|].
    cbn [App.exerciseItems App.cursorIndex App.selectedChordNotes].
    rewrite (setStatusAt_split _ _ _ _ Hnth), Hend.
    repeat split. lia.
  - replace (App.cursorIndex st + 1
             <? Z.of_nat (List.length (App.exerciseItems st))) with true
      by (symmetry; apply Z.ltb_lt; lia).
    set (st1 := App.mkState (App.isPlaying st) (App.settings st)
                  (App.setStatusAt (App.exerciseItems st)
                     (Z.to_nat (App.cursorIndex st)) correct)
                  (App.cursorIndex st + 1) (App.selectedChordNotes st)
                  (App.feedbackMessage st)).
    assert (Hitems1 : App.exerciseItems st1
                      = firstn (Z.to_nat (App.cursorIndex st))
                               (App.exerciseItems st)
                        ++ App.withStatus it correct
                           :: skipn (S (Z.to_nat (App.cursorIndex st)))
                                    (App.exerciseItems st))
      by (apply setStatusAt_split; exact Hnth).
    assert (Hlen1 : List.length (App.exerciseItems st1)
                    = List.length (App.exerciseItems st))
      by apply setStatusAt_length.
    assert (Hfirst : List.length (firstn (Z.to_nat (App.cursorIndex st))
                                         (App.exerciseItems st))
                     = Z.to_nat (App.cursorIndex st))
      by (rewrite length_firstn; lia).
    assert (Hskip1 : skipn (S (Z.to_nat (App.cursorIndex st)))
                           (App.exerciseItems st1)
                     = skipn (S (Z.to_nat (App.cursorIndex st)))
                             (App.exerciseItems st)).
    { rewrite Hitems1.
      rewrite skipn_app, Hfirst.
      replace (S (Z.to_nat (App.cursorIndex st))
               - Z.to_nat (App.cursorIndex st))%nat with 1%nat by lia.
      rewrite skipn_all2 by lia. reflexivity. }
    assert (Hfirstn1 : firstn (S (Z.to_nat (App.cursorIndex st)))
                              (App.exerciseItems st1)
                       = firstn (Z.to_nat (App.cursorIndex st))
                                (App.exerciseItems st)
                         ++ [App.withStatus it correct]).
    { rewrite Hitems1.
      rewrite firstn_app, Hfirst.
      replace (S (Z.to_nat (App.cursorIndex st))
               - Z.to_nat (App.cursorIndex st))%nat with 1%nat by lia.
      rewrite firstn_all2 by lia. reflexivity. }
    destruct (IH st1) as (st' & Hrun & Hitems & Hcur & Hsel).
    + exact Hplay.
    + exact Hmode.
    + apply setStatusAt_notes. exact Hnotes.
    + cbn [App.cursorIndex st1]. lia.
    + rewrite Hlen1. cbn [App.cursorIndex st1]. lia.
    + replace (Z.to_nat (App.cursorIndex st1))
        with (S (Z.to_nat (App.cursorIndex st))) in Hrun, Hitems
        by (cbn [App.cursorIndex st1]; lia).
      rewrite Hskip1 in Hrun, Hitems. rewrite Hfirstn1 in Hitems.
      rewrite Hrun. cbn [app]. exists st'. split; [reflexivity|].
      split; [|split].
      * rewrite Hitems, <- app_assoc. reflexivity.
      * rewrite Hcur, Hlen1. reflexivity.
      * exact Hsel.
Qed.

(** X16. Playing a round through: in single or beam mode, from a round
    whose items all have a first note, pressing the first pitch of every
    item in order never throws, marks every item correct without changing
    its notes, leaves the cursor on the last item, and asks for the next
    turn exactly once, after the last key. *)
Theorem playing_the_round_completes_it (st : App.State) :
  App.isPlaying st = true ->
  mode (App.settings st) <> chords ->
  App.exerciseItems st <> [] ->
  Forall (fun it => notes it <> []) (App.exerciseItems st) ->
  App.cursorIndex st = 0 ->
  exists st',
    pressKeys st (firstPitches (App.exerciseItems st))
    = Some (st', [App.SetTimeout App.NextTurn 500])
    /\ App.exerciseItems st'
       = map (fun it => App.withStatus it correct) (App.exerciseItems st)
    /\ Forall (fun it => status it = correct) (App.exerciseItems st')
    /\ map notes (App.exerciseItems st') = map notes (App.exerciseItems st)
    /\ App.cursorIndex st'
       = Z.of_nat (List.length (App.exerciseItems st)) - 1.
Proof.
  intros Hplay Hmode Hne Hnotes Hcur.
  destruct (App.exerciseItems st) as [|it0 items0] eqn:Eitems;
    [contradiction|].
  destruct (pressKeys_completes (List.length items0) st Hplay Hmode)
    as (st' & Hrun & Hitems & Hcursor & _).
  - rewrite Eitems. exact Hnotes.
  - lia.
  - rewrite Eitems, Hcur. cbn [List.length]. lia.
  - rewrite Hcur, Eitems in Hrun, Hitems. cbn [Z.to_nat skipn firstn app]
      in Hrun, Hitems.
    exists st'. split; [exact Hrun|]. split; [exact Hitems|].
    rewrite Hitems. split; [|split].
    + apply Forall_map. apply Forall_forall. intros it _. reflexivity.
    + rewrite map_map. reflexivity.
    + rewrite Hcursor, Eitems. reflexivity.
Qed.

Lemma playing_the_round_completes_it_witness :
  exists st',
    pressKeys
      (App.mkState true (mkSettings treble false single KC major)
         [mkItem "a" [mkNote 60 "C" 4 None None] pending None None;
          mkItem "b" [mkNote 64 "E" 4 None None] pending None None]
         0 [] None)
      [60; 64]
    = Some (st', [App.SetTimeout App.NextTurn 500])
    /\ Forall (fun it => status it = correct) (App.exerciseItems st').
Proof.
  destruct (playing_the_round_completes_it
              (App.mkState true (mkSettings treble false single KC major)
                 [mkItem "a" [mkNote 60 "C" 4 None None] pending None None;
                  mkItem "b" [mkNote 64 "E" 4 None None] pending None None]
                 0 [] None))
    as (st' & Hrun & _ & Hdone & _).
  - reflexivity.
  - discriminate.
  - discriminate.
  - repeat constructor; discriminate.
  - reflexivity.
  - exists st'. split; [exact Hrun | exact Hdone].
Defined.

(* ===================================================================== *)
(** ** The time signature *)
(* ===================================================================== *)

Lemma jsRemQ_one (K : Z) :
  0 <= K -> Qeq_bool (jsRemQ (K # 4) 1) 0 = (K mod 4 =? 0).
Proof.
  intros HK. apply eq_true_iff_eq. rewrite Qeq_bool_iff, Z.eqb_eq.
  unfold jsRemQ, Qtrunc.
  assert (E : ((K # 4) / 1 == K # 4)%Q) by field.
  assert (Hle : Qle_bool 0 ((K # 4) / 1) = true).
  { apply Qle_bool_iff. rewrite E. unfold Qle. cbn [Qnum Qden]. lia. }
  rewrite Hle, E. unfold Qfloor.
  pose proof (Z.div_mod K 4 ltac:(lia)) as Hdm.
  unfold Qeq, Qminus, Qplus, Qopp, Qmult, inject_Z. cbn [Qnum Qden].
  change (Z.pos (4 * (1 * 1))) with 4. change (Z.pos 4) with 4.
  lia.
Qed.

Lemma jsRemQ_half (K : Z) :
  0 <= K -> Qeq_bool (jsRemQ (K # 4) (1 # 2)) 0 = (K mod 2 =? 0).
Proof.
  intros HK. apply eq_true_iff_eq. rewrite Qeq_bool_iff, Z.eqb_eq.
  unfold jsRemQ, Qtrunc.
  assert (E : ((K # 4) / (1 # 2) == K # 2)%Q).
  { unfold Qeq, Qdiv, Qmult, Qinv. cbn [Qnum Qden]. lia. }
  assert (Hle : Qle_bool 0 ((K # 4) / (1 # 2)) = true).
  { apply Qle_bool_iff. rewrite E. unfold Qle. cbn [Qnum Qden]. lia. }
  rewrite Hle, E. unfold Qfloor.
  pose proof (Z.div_mod K 2 ltac:(lia)) as Hdm.
  unfold Qeq, Qminus, Qplus, Qopp, Qmult, inject_Z. cbn [Qnum Qden].
  change (Z.pos 2) with 2 in *.
  lia.
Qed.

Lemma Qtrunc_comp (x y : Q) : (x == y)%Q -> Qtrunc x = Qtrunc y.
Proof.
  intros E. unfold Qtrunc.
  assert (Hle : Qle_bool 0 x = Qle_bool 0 y).
  { apply eq_true_iff_eq. rewrite !Qle_bool_iff, E. reflexivity. }
  rewrite Hle. destruct (Qle_bool 0 y); rewrite E; reflexivity.
Qed.

Lemma jsRemQ_comp (x y d : Q) :
  (x == y)%Q -> Qeq_bool (jsRemQ x d) 0 = Qeq_bool (jsRemQ y d) 0.
Proof.
  intros E. apply eq_true_iff_eq. rewrite !Qeq_bool_iff. unfold jsRemQ.
  assert (Et : Qtrunc (x / d) = Qtrunc (y / d))
    by (apply Qtrunc_comp; rewrite E; reflexivity).
  rewrite Et, E. reflexivity.
Qed.

(** The beats add up to the quarters of the items, over four. *)
Lemma reduceBeats_quarters (items : list ExerciseItem) :
  Forall (fun it => notes it <> []) items ->
  forall (acc : Q) (A : Z),
    (acc == A # 4)%Q ->
    exists total,
      SheetMusic.reduceBeats items acc = Some total
      /\ (total == (A + sumZ (map quarterBeats items)) # 4)%Q.
Proof.
  induction 1 as [|it items Hit _ IH]; intros acc A Hacc.
  - exists acc. split; [reflexivity|]. cbn. rewrite Z.add_0_r. exact Hacc.
  - cbn [SheetMusic.reduceBeats]. unfold SheetMusic.addBeats.
    destruct (notes it) as [|first rest] eqn:En; [contradiction|].
    cbn [arrayGet Z.ltb Z.compare Z.to_nat nth_error].
    destruct (IH (acc + SheetMusic.orElse
                          (SheetMusic.durationValues
                             match duration first with
                             | Some d => d
                             | None => Dq
                             end) 1)%Q
                 (A + quarterBeats it))
      as (total & Hrun & Htotal).
    + unfold quarterBeats. rewrite En. rewrite Hacc.
      destruct (duration first) as [[]|]; cbn;
        unfold Qeq, Qplus; cbn [Qnum Qden]; lia.
    + exists total. split; [exact Hrun|]. rewrite Htotal.
      cbn [map sumZ fold_right]. fold (sumZ (map quarterBeats items)).
      unfold Qeq. cbn [Qnum Qden]. lia.
Qed.

Lemma reduceBeats_throws (items : list ExerciseItem) :
  Exists (fun it => notes it = []) items ->
  forall acc, SheetMusic.reduceBeats items acc = None.
Proof.
  induction 1 as [it items Hit | it items _ IH]; intros acc;
    cbn [SheetMusic.reduceBeats]; unfold SheetMusic.addBeats.
  - rewrite Hit. reflexivity.
  - destruct (arrayGet (notes it) 0); [apply IH | reflexivity].
Qed.

Lemma quarterBeats_positive (items : list ExerciseItem) :
  Forall (fun it => notes it <> []) items ->
  Z.of_nat (List.length items) <= sumZ (map quarterBeats items).
Proof.
  induction 1 as [|it items Hit _ IH]; cbn [map sumZ fold_right List.length];
    [lia|].
  fold (sumZ (map quarterBeats items)).
  assert (1 <= quarterBeats it).
  { unfold quarterBeats. destruct (notes it) as [|first rest];
      [contradiction|]. destruct (duration first) as [[]|]; lia. }
  lia.
Qed.

Lemma all_or_some_without_notes (items : list ExerciseItem) :
  Forall (fun it => notes it <> []) items
  \/ Exists (fun it => notes it = []) items.
Proof.
  induction items as [|it items [IH | IH]].
  - left. constructor.
  - destruct (notes it) eqn:E.
    + right. left. exact E.
    + left. constructor; [rewrite E; discriminate | exact IH].
  - right. right. exact IH.
Qed.

Lemma totalBeats_quarters (items : list ExerciseItem) :
  Forall (fun it => notes it <> []) items ->
  exists total,
    SheetMusic.totalBeats items = Some total
    /\ (total == sumZ (map quarterBeats items) # 4)%Q.
Proof.
  intros Hnotes.
  destruct (reduceBeats_quarters items Hnotes 0 0 ltac:(reflexivity))
    as (total & Hrun & Htotal).
  exists total. split; [exact Hrun | exact Htotal].
Qed.

(** The bar the time signature gives to items that all have a note. *)
Lemma timeSignature_bar (items : list ExerciseItem) :
  items <> [] -> Forall (fun it => notes it <> []) items ->
  exists (numBeats : Q) (beatValue n : Z),
    SheetMusic.timeSignature items = Some (numBeats, beatValue)
    /\ 0 < n /\ (numBeats == inject_Z n)%Q
    /\ n * 16 = sumZ (map quarterBeats items) * beatValue
    /\ (beatValue = 4
        \/ (beatValue = 8 /\ sumZ (map quarterBeats items) mod 4 <> 0)
        \/ (beatValue = 16
            /\ sumZ (map quarterBeats items) mod 2 <> 0)).
Proof.
  intros Hne Hnotes.
  destruct (totalBeats_quarters items Hnotes) as (total & Hrun & Htotal).
  pose proof (quarterBeats_positive items Hnotes) as Hpos.
  assert (HK : 0 < sumZ (map quarterBeats items)).
  { destruct items; [contradiction | cbn [List.length] in Hpos; lia]. }
  set (K := sumZ (map quarterBeats items)) in *.
  unfold SheetMusic.timeSignature. rewrite Hrun.
  rewrite (jsRemQ_comp total (K # 4) 1 Htotal), jsRemQ_one by lia.
  rewrite (jsRemQ_comp total (K # 4) (1 # 2) Htotal), jsRemQ_half by lia.
  pose proof (Z.div_mod K 4 ltac:(lia)) as Hd4.
  pose proof (Z.div_mod K 2 ltac:(lia)) as Hd2.
  pose proof (Z.mod_pos_bound K 4 ltac:(lia)) as Hb4.
  pose proof (Z.mod_pos_bound K 2 ltac:(lia)) as Hb2.
  destruct (K mod 4 =? 0) eqn:E4; cbn [negb].
  - apply Z.eqb_eq in E4.
    assert (Hn : (total == inject_Z (K / 4))%Q).
    { rewrite Htotal. unfold Qeq, inject_Z. cbn [Qnum Qden]. lia. }
    replace (Qeq_bool total 0) with false.
    2:{ symmetry. apply not_true_iff_false. rewrite Qeq_bool_iff, Hn.
        unfold Qeq, inject_Z. cbn [Qnum Qden]. lia. }
    exists total, 4, (K / 4). split; [reflexivity|].
    split; [lia|]. split; [exact Hn|]. split; [lia | left; reflexivity].
  - apply Z.eqb_neq in E4. destruct (K mod 2 =? 0) eqn:E2.
    + apply Z.eqb_eq in E2.
      assert (Hn : (total * 2 == inject_Z (K / 2))%Q).
      { rewrite Htotal. unfold Qeq, Qmult, inject_Z. cbn [Qnum Qden].
        lia. }
      replace (Qeq_bool (total * 2) 0) with false.
      2:{ symmetry. apply not_true_iff_false. rewrite Qeq_bool_iff, Hn.
          unfold Qeq, inject_Z. cbn [Qnum Qden]. lia. }
      exists (total * 2)%Q, 8, (K / 2). split; [reflexivity|].
      split; [lia|]. split; [exact Hn|]. split; [lia|].
      right. left. split; [reflexivity | exact E4].
    + apply Z.eqb_neq in E2.
      assert (Hn : (total * 4 == inject_Z K)%Q).
      { rewrite Htotal. unfold Qeq, Qmult, inject_Z. cbn [Qnum Qden].
        lia. }
      replace (Qeq_bool (total * 4) 0) with false.
      2:{ symmetry. apply not_true_iff_false. rewrite Qeq_bool_iff, Hn.
          unfold Qeq, inject_Z. cbn [Qnum Qden]. lia. }
      exists (total * 4)%Q, 16, K. split; [reflexivity|].
      split; [lia|]. split; [exact Hn|]. split; [lia|].
      right. right. split; [reflexivity | exact E2].
Qed.

(** X17. The time signature of a round: the computation throws exactly
    when an item has no note; otherwise, for a round that is not empty,
    the number of beats is a positive integer, the beat value is 4, 8 or
    16, the bar lasts exactly as long as the first notes of the items
    together, and the beat value is the coarsest of the three that allows
    it. *)
Theorem timeSignature_fills_the_bar (items : list ExerciseItem) :
  (SheetMusic.timeSignature items = None
   <-> Exists (fun it => notes it = []) items)
  /\ (items <> [] -> Forall (fun it => notes it <> []) items ->
      exists (numBeats : Q) (beatValue n : Z),
        SheetMusic.timeSignature items = Some (numBeats, beatValue)
        /\ 0 < n /\ (numBeats == inject_Z n)%Q
        /\ n * 16 = sumZ (map quarterBeats items) * beatValue
        /\ (beatValue = 4
            \/ (beatValue = 8 /\ sumZ (map quarterBeats items) mod 4 <> 0)
            \/ (beatValue = 16
                /\ sumZ (map quarterBeats items) mod 2 <> 0))).
Proof.
  split; [split|].
  - intros Hnone.
    destruct (all_or_some_without_notes items) as [Hall | Hex];
      [|exact Hex].
    destruct (totalBeats_quarters items Hall) as (total & Hrun & _).
    unfold SheetMusic.timeSignature in Hnone. rewrite Hrun in Hnone.
    destruct (negb _); [destruct (Qeq_bool _ 0)|]; discriminate Hnone.
  - intros Hex. unfold SheetMusic.timeSignature, SheetMusic.totalBeats.
    rewrite (reduceBeats_throws items Hex). reflexivity.
  - intros Hne Hnotes.
    destruct (timeSignature_bar items Hne Hnotes)
      as (numBeats & beatValue & n & Hsig & Hpos & Hnum & Hfill & Hcoarse).
    exists numBeats, beatValue, n.
    split; [exact Hsig|]. split; [exact Hpos|]. split; [exact Hnum|].
    split; [exact Hfill | exact Hcoarse].
Qed.

Lemma timeSignature_fills_the_bar_witness :
  exists (numBeats : Q) (beatValue n : Z),
    SheetMusic.timeSignature
      [mkItem "a" [mkNote 60 "C" 4 None (Some D16)] pending None None;
       mkItem "b" [mkNote 62 "D" 4 None (Some D16)] pending None None]
    = Some (numBeats, beatValue)
    /\ (numBeats == inject_Z n)%Q /\ n * 16 = 2 * beatValue.
Proof.
  destruct (timeSignature_fills_the_bar
              [mkItem "a" [mkNote 60 "C" 4 None (Some D16)] pending None None;
               mkItem "b" [mkNote 62 "D" 4 None (Some D16)] pending None None])
    as (_ & Hsome).
  destruct Hsome as (numBeats & beatValue & n & Hrun & _ & Hn & Hbar & _).
  - discriminate.
  - repeat constructor; discriminate.
  - exists numBeats, beatValue, n. repeat split; assumption.
Defined.

(* ===================================================================== *)
(** ** The time signature of a generated round *)
(* ===================================================================== *)

Lemma midiToNote_duration (m : Z) (root : KeyRoot) (type : KeyType)
  (n : Note) :
  midiToNote m root type = Some n -> duration n = None.
Proof.
  unfold midiToNote.
  destruct (if shouldUseFlats root type
            then arrayGet NOTE_NAMES_FLAT (jsmod m 12)
            else arrayGet NOTE_NAMES_SHARP (jsmod m 12)) as [rawName|];
    [|discriminate].
  destruct (if strIncludes rawName "#"%char
            then (firstChar rawName, Some Sharp)
            else if strIncludes rawName "b"%char
                    && (Nat.ltb 1 (String.length rawName))
                 then (firstChar rawName, Some Flat)
                 else (rawName, None)) as [nm acc].
  intros [= <-]. reflexivity.
Qed.

Lemma sumZ_quarterBeats (c : Z) (items : list ExerciseItem) :
  Forall (fun it => quarterBeats it = c) items ->
  sumZ (map quarterBeats items) = c * Z.of_nat (List.length items).
Proof.
  induction 1 as [|it items Hit _ IH].
  - cbn. lia.
  - cbn [map sumZ fold_right List.length].
    fold (sumZ (map quarterBeats items)). rewrite IH, Hit. lia.
Qed.

(** The items of a generated round last a quarter each, and a sixteenth
    each in beam mode. *)
Lemma round_quarterBeats (settings : GameSettings)
  (items : list ExerciseItem) :
  roundOk settings items ->
  Forall (fun it => quarterBeats it
                    = if isBeams (mode settings) then 1 else 4) items.
Proof.
  unfold roundOk. destruct (mode settings); cbn [isBeams].
  - intros (_ & Hok). eapply Forall_impl; [|exact Hok].
    intros it (n & Hn & _ & _ & Hspell & _).
    unfold quarterBeats. rewrite Hn.
    rewrite (midiToNote_duration _ _ _ _ Hspell). reflexivity.
  - intros (_ & Hok). eapply Forall_impl; [|exact Hok].
    intros it Hit. destruct (clef_span (clef settings)) as (Hmin & _).
    destruct (chordItem_pitches settings _ _ it Hmin Hit)
      as (_ & _ & Hlen & _).
    destruct Hit as (_ & _ & _ & _ & _ & _ & _ & Hspell & _).
    unfold quarterBeats.
    destruct (notes it) as [|first rest].
    + destruct Hlen as [Hlen | Hlen]; discriminate Hlen.
    + inversion Hspell as [|? ? Hfirst _]; subst.
      rewrite (midiToNote_duration _ _ _ _ Hfirst). reflexivity.
  - intros (k & _ & _ & sizes & _ & _ & _ & Hok). cbn [fst] in Hok.
    eapply Forall_impl; [|exact Hok].
    intros it (g & n & Hn & _ & _ & Hdur & _).
    unfold quarterBeats. rewrite Hn, Hdur. reflexivity.
Qed.

Lemma round_length (settings : GameSettings) (items : list ExerciseItem) :
  roundOk settings items ->
  if isBeams (mode settings)
  then 12 <= Z.of_nat (List.length items) <= 24
  else List.length items = 6%nat.
Proof.
  unfold roundOk. destruct (mode settings); cbn [isBeams].
  - intros (Hlen & _). exact Hlen.
  - intros (Hlen & _). exact Hlen.
  - intros (k & Hk & _ & sizes & Hlen & Hsizes & Hmap & _).
    cbn [fst] in Hmap.
    rewrite <- (length_map beamGroupIndex items), Hmap.
    rewrite beamIndices_length.
    2:{ eapply Forall_impl; [|exact Hsizes].
        intros size Hs. cbv beta in Hs. lia. }
    assert (Hsum : 4 * Z.of_nat (List.length sizes) <= sumZ sizes
                   <= 6 * Z.of_nat (List.length sizes)).
    { clear Hlen Hmap. induction Hsizes as [|size sizes Hs _ IH].
      - cbn. lia.
      - cbn [sumZ fold_right List.length]. fold (sumZ sizes). lia. }
    rewrite Hlen in Hsum. lia.
Qed.

(** X18. The time signature of a generated round: a single-note or chord
    round, six items of a quarter each, is drawn in 6/4; a beam round of
    [n] sixteenths, [n] from 12 to 24, is drawn in [n/4] over 4 when four
    divides [n], in [n/2] over 8 when only two does, and in [n] over 16
    otherwise. *)
Theorem generated_round_time_signature (mathRandom : nat -> Q)
  (uuidSource : nat -> string) (settings : GameSettings) (w : World) :
  unitRandom mathRandom ->
  exists items w' numBeats beatValue,
    (forall fuel, (mode settings = chords -> (6 <= fuel)%nat) ->
       generateExercise mathRandom uuidSource fuel settings w
       = Returns items w')
    /\ SheetMusic.timeSignature items = Some (numBeats, beatValue)
    /\ (if isBeams (mode settings)
        then let n := Z.of_nat (List.length items) in
             12 <= n <= 24
             /\ beatValue = (if n mod 4 =? 0 then 4
                             else if n mod 2 =? 0 then 8 else 16)
             /\ (numBeats * inject_Z 16 == inject_Z (n * beatValue))%Q
        else (numBeats == 6)%Q /\ beatValue = 4).
Proof.
  intros Hrand.
  destruct (generateExercise_spec mathRandom uuidSource Hrand settings w)
    as (items & w' & Hrun & Hok).
  destruct (round_ready settings items Hok) as (Hne & Hnotes & _).
  pose proof (sumZ_quarterBeats _ items (round_quarterBeats _ _ Hok))
    as Hsum.
  pose proof (round_length settings items Hok) as Hlen.
  destruct (timeSignature_bar items Hne Hnotes)
    as (numBeats & beatValue & n & Hsig & Hn & Hnum & Hfill & Hcoarse).
  exists items, w', numBeats, beatValue.
  split; [exact Hrun|]. split; [exact Hsig|].
  rewrite Hsum in Hfill, Hcoarse.
  destruct (isBeams (mode settings)).
  - cbv zeta. split; [exact Hlen|].
    rewrite Z.mul_1_l in Hfill, Hcoarse.
    remember (Z.of_nat (List.length items)) as len eqn:Elen.
    clear Elen.
    pose proof (Z.div_mod len 4 ltac:(lia)) as Hd4.
    pose proof (Z.div_mod len 2 ltac:(lia)) as Hd2.
    pose proof (Z.mod_pos_bound len 4 ltac:(lia)) as Hb4.
    pose proof (Z.mod_pos_bound len 2 ltac:(lia)) as Hb2.
    assert (Hvalue : beatValue = (if len mod 4 =? 0 then 4
                                  else if len mod 2 =? 0 then 8 else 16)).
    { destruct (len mod 4 =? 0) eqn:E4;
        [apply Z.eqb_eq in E4 | apply Z.eqb_neq in E4].
      - destruct Hcoarse as [H | [(H & H') | (H & H')]]; lia.
      - destruct (len mod 2 =? 0) eqn:E2;
          [apply Z.eqb_eq in E2 | apply Z.eqb_neq in E2];
          destruct Hcoarse as [H | [(H & H') | (H & H')]]; lia. }
    split; [exact Hvalue|].
    rewrite Hnum. unfold Qeq, Qmult, inject_Z. cbn [Qnum Qden]. lia.
  - rewrite Hlen in Hfill, Hcoarse.
    assert (Hvalue : beatValue = 4).
    { destruct Hcoarse as [H | [(_ & H) | (_ & H)]];
        [exact H | exfalso; apply H; reflexivity
                 | exfalso; apply H; reflexivity]. }
    split; [|exact Hvalue].
    rewrite Hnum. unfold Qeq, inject_Z. cbn [Qnum Qden]. lia.
Qed.

Lemma generated_round_time_signature_witness :
  exists items w' numBeats,
    generateExercise sampleRandom sampleUuid 6
      (mkSettings treble false chords KD major) startWorld
    = Returns items w'
    /\ SheetMusic.timeSignature items = Some (numBeats, 4)
    /\ (numBeats == 6)%Q.
Proof.
  destruct (generated_round_time_signature sampleRandom sampleUuid
              (mkSettings treble false chords KD major) startWorld
              sampleRandom_unit)
    as (items & w' & numBeats & beatValue & Hrun & Hsig & Hnum & Hvalue).
  exists items, w', numBeats.
  split; [apply Hrun; intros _; apply le_n|].
  split; [rewrite <- Hvalue; exact Hsig | exact Hnum].
Defined.
